(** * CoverMonkey: a shallow embedding of [Coverage.js]

    The model follows the source file:

    - JavaScript values the code manipulates (strings, numbers, the
      regular expressions of the trace grammar);
    - [Coverage.Script]: the constructor, [toString], [addCounts] and the
      reachability analysis ([reachable], [checkReachability]);
    - [Coverage.Parser]: [processLine];
    - [Coverage.Line] and [Coverage.File], with the classes of a line
      ([coverageClass], [profileClass]);
    - [Coverage.prototype.parseData] with its listeners, [addListener] and
      [removeListener].

    It is followed by the control-flow graph the analysis is specified
    against, by example traces, and by the properties: lines and their
    counts, the instruction pattern, reachability, the Parser, the engine.

    Modelling conventions.

    - A JavaScript string is the sequence of its code units; the model keeps
      the code units below 256 (type [ascii]).  On that range [\s] is
      {9,10,11,12,13,32,160}, [.] is everything but 10 and 13, [\d] is
      [0-9] and [\w] is [A-Za-z0-9_].
    - Numbers obtained by [parseInt] on a run of digits are exact integers
      ([N] or [Z]); this agrees with the doubles of the source below 2^53.
      [NaN], [Infinity] and [undefined] are explicit where the code can
      produce them.
    - Objects used as maps are [gmap]s when only lookup and update matter,
      association lists in insertion order when the code enumerates them.
      The operator [in] also sees the properties inherited from
      [Object.prototype]; they are listed in [Object_prototype].
    - A thrown [TypeError] is an explicit outcome.  Mutations made before the
      exception persist in JavaScript, so the outcome carries the state
      reached when the exception was raised. *)

From Stdlib Require Import ZArith NArith Ascii String DecimalString DecimalN Lia.
From Stdlib Require Import Sorted.
From stdpp Require Import base option list gmap strings.

Open Scope string_scope.

(** ** Outcomes *)

(** Outcome of a computation that mutates a state of type [S]. *)
Inductive result (S : Type) : Type :=
| Ok (s : S)          (* normal completion in state [s] *)
| TypeError (s : S)   (* a TypeError propagates; [s] is the state reached *)
| OutOfFuel.          (* the fuel of a recursive model ran out *)
Arguments Ok {S} s.
Arguments TypeError {S} s.
Arguments OutOfFuel {S}.

(** Outcome of an expression that yields a value or throws. *)
Inductive exn (A : Type) : Type :=
| Val (a : A)
| Exn.                (* a TypeError propagates *)
Arguments Val {A} a.
Arguments Exn {A}.

(** ** Characters and strings *)

Definition code (c : ascii) : N := N_of_ascii c.

Definition is_digit (c : ascii) : bool :=
  ((48 <=? code c) && (code c <=? 57))%N.

Definition is_word (c : ascii) : bool :=
  (is_digit c
   || ((65 <=? code c) && (code c <=? 90))
   || ((97 <=? code c) && (code c <=? 122))
   || (code c =? 95))%N.

Definition is_space (c : ascii) : bool :=
  (((9 <=? code c) && (code c <=? 13)) || (code c =? 32) || (code c =? 160))%N.

Definition is_line_terminator (c : ascii) : bool :=
  ((code c =? 10) || (code c =? 13))%N.

(** The class of [.]. *)
Definition is_dot (c : ascii) : bool := negb (is_line_terminator c).

Definition LF : ascii := ascii_of_N 10.
Definition TAB : ascii := ascii_of_N 9.

Fixpoint all_chars (p : ascii -> bool) (s : string) : bool :=
  match s with
  | EmptyString => true
  | String c s' => p c && all_chars p s'
  end.

Definition nonempty (s : string) : bool :=
  match s with EmptyString => false | _ => true end.

(** Longest prefix of [s] made of characters of class [p], and the rest. *)
Fixpoint span (p : ascii -> bool) (s : string) : string * string :=
  match s with
  | EmptyString => (EmptyString, EmptyString)
  | String c s' =>
      if p c then let (a, b) := span p s' in (String c a, b)
      else (EmptyString, s)
  end.

Fixpoint strip_prefix (pre s : string) : option string :=
  match pre with
  | EmptyString => Some s
  | String c pre' =>
      match s with
      | EmptyString => None
      | String d s' => if Ascii.eqb c d then strip_prefix pre' s' else None
      end
  end.

Definition starts_with (pre s : string) : bool :=
  match strip_prefix pre s with Some _ => true | None => false end.

Definition strip_suffix (suf s : string) : option string :=
  let n := String.length s - String.length suf in
  if (String.length suf <=? String.length s)%nat
     && String.eqb (substring n (String.length suf) s) suf
  then Some (substring 0 n s) else None.

(** [String.prototype.split] with a one-character separator. *)
Fixpoint split (sep : ascii) (s : string) : list string :=
  match s with
  | EmptyString => [EmptyString]
  | String c s' =>
      if Ascii.eqb c sep then EmptyString :: split sep s'
      else match split sep s' with
           | x :: xs => String c x :: xs
           | [] => [String c EmptyString]
           end
  end.

(** Split at the last occurrence of [sep]. *)
Fixpoint rsplit (sep : ascii) (s : string) : option (string * string) :=
  match s with
  | EmptyString => None
  | String c s' =>
      match rsplit sep s' with
      | Some (a, b) => Some (String c a, b)
      | None => if Ascii.eqb c sep then Some (EmptyString, s') else None
      end
  end.

(** [Array.prototype.join]. *)
Fixpoint join (sep : string) (l : list string) : string :=
  match l with
  | [] => EmptyString
  | [x] => x
  | x :: l' => x ++ sep ++ join sep l'
  end.

(** ** Numbers *)

(** Value of a run of decimal digits. *)
Definition digit_value (c : ascii) : N := (code c - 48)%N.

Definition parse_digits (s : string) : N :=
  (fix go (acc : N) (s : string) : N :=
     match s with
     | EmptyString => acc
     | String c s' => go (10 * acc + digit_value c)%N s'
     end) 0%N s.

(** Decimal notation of a number, as [String(n)] gives it. *)
Definition dec (n : N) : string := NilEmpty.string_of_uint (N.to_uint n).

(** The number values that occur: integers, [Infinity] (initial [min]),
    [NaN] ([parseInt] of a missing field) and [undefined] (reading past the
    end of an array). *)
Inductive jsnum : Type :=
| Int (z : Z)
| Infinity
| NaN
| Undefined.

(** [parseInt(s, 10)] where [s] is a captured run of digits or is missing.
    The result is the exact value of the digits; the code has the nearest
    double, which is that value as long as it is below 2^53. *)
Definition parseInt (s : option string) : jsnum :=
  match s with
  | Some d =>
      let (ds, _) := span is_digit d in
      if nonempty ds then Int (Z.of_N (parse_digits ds)) else NaN
  | None => NaN
  end.

(** [a + b] on numbers; the sum of two integers is exact, as it is in the
    code as long as it is below 2^53. *)
Definition js_add (a b : jsnum) : jsnum :=
  match a, b with
  | Int x, Int y => Int (x + y)
  | Infinity, Int _ | Int _, Infinity | Infinity, Infinity => Infinity
  | _, _ => NaN
  end.

(** [a === b]. *)
Definition strict_eq (a b : jsnum) : bool :=
  match a, b with
  | Int x, Int y => (x =? y)%Z
  | Infinity, Infinity => true
  | Undefined, Undefined => true
  | _, _ => false
  end.

(** [a > b] and [a >= b]; [undefined] converts to [NaN]. *)
Definition js_gt (a b : jsnum) : bool :=
  match a, b with
  | Int x, Int y => (y <? x)%Z
  | Infinity, Int _ => true
  | _, _ => false
  end.

Definition js_ge (a b : jsnum) : bool :=
  match a, b with
  | Int x, Int y => (y <=? x)%Z
  | Infinity, Int _ | Infinity, Infinity => true
  | _, _ => false
  end.

Definition Math_min (a b : jsnum) : jsnum :=
  match a, b with
  | Int x, Int y => Int (Z.min x y)
  | Infinity, Int y => Int y
  | Int x, Infinity => Int x
  | Infinity, Infinity => Infinity
  | _, _ => NaN
  end.

Definition Math_max (a b : jsnum) : jsnum :=
  match a, b with
  | Int x, Int y => Int (Z.max x y)
  | Infinity, Int _ | Int _, Infinity | Infinity, Infinity => Infinity
  | _, _ => NaN
  end.

(** ** Property lookup through the prototype chain *)

(** The properties every object inherits from [Object.prototype]
    (ECMAScript 5, 15.2.4 and Annex B). *)
Definition Object_prototype : list string :=
  [ "constructor"; "toString"; "toLocaleString"; "valueOf";
    "hasOwnProperty"; "isPrototypeOf"; "propertyIsEnumerable";
    "__proto__"; "__defineGetter__"; "__defineSetter__";
    "__lookupGetter__"; "__lookupSetter__" ].

Definition mem (s : string) (l : list string) : bool :=
  existsb (String.eqb s) l.

Definition inherited (s : string) : bool := mem s Object_prototype.

(** [key in table] for an object literal whose own keys are [table]. *)
Definition js_in (key : string) (table : list string) : bool :=
  mem key table || inherited key.

(** ** The trace grammar *)

(** [Coverage.SCRIPT_START]: the line is [--- SCRIPT file:digits ---], where
    [file] is any run of [.] and [digits] a non-empty run of [\d]; the result
    is the pair of captures.  The digits and the closing dashes hold no
    colon, so the colon of the pattern is the last colon of the line. *)
Definition match_SCRIPT_START (l : string) : option (string * string) :=
  match strip_prefix "--- SCRIPT " l with
  | None => None
  | Some r =>
      match strip_suffix " ---" r with
      | None => None
      | Some mid =>
          match rsplit ":" mid with
          | None => None
          | Some (file, d) =>
              if all_chars is_dot file && nonempty d && all_chars is_digit d
              then Some (file, d) else None
          end
      end
  end.

(** [Coverage.SCRIPT_END]: the line begins with [--- END SCRIPT]. *)
Definition test_SCRIPT_END (l : string) : bool :=
  starts_with "--- END SCRIPT" l.

(** [Coverage.SCRIPT_DATA]: digits, a colon, two or more runs of digits
    separated by slashes, spaces, an [x], spaces, digits, spaces and a run of
    [.] up to the end of the line; the result is the four captures.  Every
    greedy run is followed by a character outside its class, so each run is
    the longest one; the second capture is the longest run over [0-9/], which
    must split at the slashes into two or more non-empty fields. *)
Definition match_SCRIPT_DATA (l : string)
  : option (string * string * string * string) :=
  let (pc, r1) := span is_digit l in
  if negb (nonempty pc) then None else
  match strip_prefix ":" r1 with
  | None => None
  | Some r2 =>
      let (g, r3) := span (fun c => is_digit c || Ascii.eqb c "/") r2 in
      let fields := split "/" g in
      if negb ((2 <=? length fields)%nat && forallb nonempty fields) then None else
      let (w1, r4) := span is_space r3 in
      if negb (nonempty w1) then None else
      match strip_prefix "x" r4 with
      | None => None
      | Some r5 =>
          let (w2, r6) := span is_space r5 in
          if negb (nonempty w2) then None else
          let (ln, r7) := span is_digit r6 in
          if negb (nonempty ln) then None else
          let (w3, r8) := span is_space r7 in
          if negb (nonempty w3) then None else
          if all_chars is_dot r8 then Some (pc, g, ln, r8) else None
      end
  end.

(** The first run of word characters: the capture of the pattern [\w+]
    searched in the assembly. *)
Fixpoint first_word (s : string) : option string :=
  match s with
  | EmptyString => None
  | String c s' => if is_word c then Some (fst (span is_word s)) else first_word s'
  end.

(** The branch target: a leading run of [\w], a run of [\s], then the
    captured run of [\d]. *)
Definition branch_target (assembly : string) : option string :=
  let (w, r1) := span is_word assembly in
  if negb (nonempty w) then None else
  let (sp, r2) := span is_space r1 in
  if negb (nonempty sp) then None else
  let (d, _) := span is_digit r2 in
  if nonempty d then Some d else None.

(** The default offset of a switch: the run of [\d] captured by the leftmost
    match of [ffset ] followed by digits. *)
Fixpoint find_ffset (s : string) : option string :=
  match s with
  | EmptyString => None
  | String _ s' =>
      match strip_prefix "ffset " s with
      | Some r =>
          let (d, _) := span is_digit r in
          if nonempty d then Some d else find_ffset s'
      | None => find_ffset s'
      end
  end.

(** The offset of a case line: the run of [\d] captured by the leftmost
    match of a colon, a space and digits up to the end of the string. *)
Fixpoint find_case_offset (s : string) : option string :=
  match s with
  | EmptyString => None
  | String _ s' =>
      match strip_prefix ": " s with
      | Some r =>
          if nonempty r && all_chars is_digit r then Some r
          else find_case_offset s'
      | None => find_case_offset s'
      end
  end.

(** Vocabulary for the shape of a line. *)

(** [s] does not begin with a character of class [p]. *)
Definition stops (p : ascii -> bool) (s : string) : bool :=
  match s with
  | EmptyString => true
  | String c _ => negb (p c)
  end.

Definition digits (s : string) : bool := nonempty s && all_chars is_digit s.
Definition spaces (s : string) : bool := nonempty s && all_chars is_space s.

(** ** Coverage.Script *)

Record Opcode : Type := {
  op_pc : N;
  op_count : jsnum;
  op_srcline : N;
  op_assembly : string;
  op_reachable : bool;      (* [opcode.reachable]; absent reads as false *)
  op_fallsthrough : bool;   (* [opcode.fallsthrough] *)
  op_entrypoint : bool      (* [opcode.entrypoint] *)
}.

Definition set_count (c : jsnum) (o : Opcode) : Opcode :=
  {| op_pc := op_pc o; op_count := c; op_srcline := op_srcline o;
     op_assembly := op_assembly o; op_reachable := op_reachable o;
     op_fallsthrough := op_fallsthrough o; op_entrypoint := op_entrypoint o |}.

Definition set_assembly (a : string) (o : Opcode) : Opcode :=
  {| op_pc := op_pc o; op_count := op_count o; op_srcline := op_srcline o;
     op_assembly := a; op_reachable := op_reachable o;
     op_fallsthrough := op_fallsthrough o; op_entrypoint := op_entrypoint o |}.

Definition set_reachable (o : Opcode) : Opcode :=
  {| op_pc := op_pc o; op_count := op_count o; op_srcline := op_srcline o;
     op_assembly := op_assembly o; op_reachable := true;
     op_fallsthrough := op_fallsthrough o; op_entrypoint := op_entrypoint o |}.

Definition set_fallsthrough (o : Opcode) : Opcode :=
  {| op_pc := op_pc o; op_count := op_count o; op_srcline := op_srcline o;
     op_assembly := op_assembly o; op_reachable := op_reachable o;
     op_fallsthrough := true; op_entrypoint := op_entrypoint o |}.

Definition set_entrypoint (o : Opcode) : Opcode :=
  {| op_pc := op_pc o; op_count := op_count o; op_srcline := op_srcline o;
     op_assembly := op_assembly o; op_reachable := op_reachable o;
     op_fallsthrough := op_fallsthrough o; op_entrypoint := true |}.

(** A Script.  [parseData] builds its Parser without a remap function, so
    [script.remap] is undefined and the remap branches of the constructor
    are not taken; the model is that of the constructor without remap. *)
Record Script : Type := {
  name : option string;            (* undefined until a start marker is read *)
  filename : option string;
  startline : option N;
  entrypoint : option nat;         (* undefined until ["main:"] is read *)
  opcodes : list Opcode;
  pcToOpcodeIndex : gmap string nat  (* keyed by [String(pc)] *)
}.

Definition empty_Script : Script :=
  {| name := None; filename := None; startline := None; entrypoint := None;
     opcodes := []; pcToOpcodeIndex := ∅ |}.

Definition with_header (file : string) (line : N) (s : Script) : Script :=
  {| name := Some (file ++ ":" ++ dec line); filename := Some file;
     startline := Some line; entrypoint := entrypoint s;
     opcodes := opcodes s; pcToOpcodeIndex := pcToOpcodeIndex s |}.

Definition with_entrypoint (e : nat) (s : Script) : Script :=
  {| name := name s; filename := filename s; startline := startline s;
     entrypoint := Some e; opcodes := opcodes s;
     pcToOpcodeIndex := pcToOpcodeIndex s |}.

Definition with_opcodes (ops : list Opcode) (s : Script) : Script :=
  {| name := name s; filename := filename s; startline := startline s;
     entrypoint := entrypoint s; opcodes := ops;
     pcToOpcodeIndex := pcToOpcodeIndex s |}.

Definition push_opcode (o : Opcode) (s : Script) : Script :=
  {| name := name s; filename := filename s; startline := startline s;
     entrypoint := entrypoint s; opcodes := opcodes s ++ [o];
     pcToOpcodeIndex := <[dec (op_pc o) := length (opcodes s)]> (pcToOpcodeIndex s) |}.

(** The opcode an instruction line yields. *)
Definition new_opcode (pc g ln asm : string) : Opcode :=
  let counts := split "/" g in
  let assembly1 := if starts_with "lambda " asm then "lambda" else asm in
  let assembly :=
    if starts_with "deflocalfun " assembly1 then "deflocalfun" else assembly1 in
  {| op_pc := parse_digits pc;
     op_count := js_add (js_add (parseInt (counts !! 0%nat))
                                (parseInt (counts !! 1%nat)))
                        (parseInt (counts !! 2%nat));
     op_srcline := parse_digits ln;
     op_assembly := assembly;
     op_reachable := false; op_fallsthrough := false; op_entrypoint := false |}.

(** The body of the [lines.forEach] of the constructor. *)
Definition Script_line (script : Script) (dataline : string) : exn Script :=
  match match_SCRIPT_START dataline with
  | Some (file, d) => Val (with_header file (parse_digits d) script)
  | None =>
      if test_SCRIPT_END dataline then Val script
      else if String.eqb dataline "main:"
      then Val (with_entrypoint (length (opcodes script)) script)
      else
        match match_SCRIPT_DATA dataline with
        | Some (pc, g, ln, asm) => Val (push_opcode (new_opcode pc g ln asm) script)
        | None =>
            match dataline with
            | String c _ =>
                if Ascii.eqb c TAB then
                  (* script.opcodes[script.opcodes.length-1].assembly += dataline *)
                  match last (opcodes script) with
                  | Some o =>
                      Val (with_opcodes
                             (<[length (opcodes script) - 1 :=
                                  set_assembly (op_assembly o ++ dataline) o]>
                                (opcodes script))
                             script)
                  | None => Exn
                  end
                else Val script
            | EmptyString => Val script
            end
        end
  end.

Fixpoint Script_lines (script : Script) (lines : list string) : exn Script :=
  match lines with
  | [] => Val script
  | l :: lines' =>
      match Script_line script l with
      | Val script' => Script_lines script' lines'
      | Exn => Exn
      end
  end.

(** [new Coverage.Script(lines)]. *)
Definition Script_new (lines : list string) : exn Script :=
  Script_lines empty_Script lines.

(** String conversion of a possibly undefined value. *)
Definition str {A} (f : A -> string) (x : option A) : string :=
  match x with Some a => f a | None => "undefined" end.

Definition opcode_toString (o : Opcode) : string :=
  dec (op_pc o) ++ ":" ++ dec (op_srcline o) ++ ":" ++ op_assembly o.

(** [Script.prototype.toString]. *)
Definition toString (s : Script) : string :=
  (str id (name s) ++ ":" ++ str (fun e => dec (N.of_nat e)) (entrypoint s)
     ++ String LF EmptyString)
  ++ join (String LF EmptyString) (map opcode_toString (opcodes s)).

(** What the signature is built from: the name, the entry index and, for
    every opcode, its address, source line and assembly. *)
Definition signature (s : Script)
  : option string * option nat * list (N * N * string) :=
  (name s, entrypoint s,
   map (fun o => (op_pc o, op_srcline o, op_assembly o)) (opcodes s)).

(** [Script.prototype.addCounts]: the loop runs over the opcodes of [this]
    and reads [that.opcodes[i].count], which throws when [that] is shorter. *)
Fixpoint addCounts_loop (this that : list Opcode) : exn (list Opcode) :=
  match this with
  | [] => Val []
  | o :: this' =>
      match that with
      | [] => Exn
      | o' :: that' =>
          match addCounts_loop this' that' with
          | Val r => Val (set_count (js_add (op_count o) (op_count o')) o :: r)
          | Exn => Exn
          end
      end
  end.

Definition addCounts (this that : Script) : exn Script :=
  match addCounts_loop (opcodes this) (opcodes that) with
  | Val ops => Val (with_opcodes ops this)
  | Exn => Exn
  end.

(** *** Reachability *)

Definition switches : list string :=
  ["tableswitch"; "lookupswitch"; "tableswitchx"; "lookupswitchx"].

Definition terminators : list string :=
  ["stop"; "return"; "throw"; "retrval"; "retsub"].

Definition unconditionals : list string :=
  ["goto"; "gotox"; "default"; "defaultx"; "filter"].

Definition conditionals : list string :=
  ["ifeq"; "ifeqx"; "ifne"; "ifnex"; "or"; "orx"; "and"; "andx";
   "gosub"; "gosubx"; "case"; "casex"; "ifcantcalltop"; "endfilter"; "try"].

Definition nonlinear : list string :=
  terminators ++ switches ++ conditionals ++ unconditionals.

Definition linear (op : string) : bool := negb (js_in op nonlinear).

(** [branchIndex]: [null] when the assembly shows no target, [undefined]
    when the target is not in the index; both read as [None]. *)
Definition branchIndex (script : Script) (assembly : string) : option nat :=
  match branch_target assembly with
  | None => None
  | Some d => pcToOpcodeIndex script !! d
  end.

(** Outcome of the [while] loop of [reachable]. *)
Inductive walk_result : Type :=
| WalkReturn (ops : list Opcode)
    (* [return] on a reachable opcode, or the loop ran off the end *)
| WalkThrow (ops : list Opcode)
    (* the assembly has no word: the match is [null] *)
| WalkBreak (ops : list Opcode) (i : nat) (op : string) (opcode : Opcode).
    (* [break] at the non-linear opcode of position [i] *)

(** The [while] loop; [k] is [script.opcodes.length - opcodeIndex], so that
    [k = 0] is the exit condition of the loop. *)
Fixpoint walk (k : nat) (ops : list Opcode) (i : nat) : walk_result :=
  match k with
  | 0 => WalkReturn ops
  | S k' =>
      match ops !! i with
      | None => WalkReturn ops
      | Some opcode =>
          if op_reachable opcode then WalkReturn ops
          else
            let ops1 := alter set_reachable i ops in
            match first_word (op_assembly opcode) with
            | None => WalkThrow ops1
            | Some op =>
                if negb (linear op) then WalkBreak ops1 i op opcode
                else walk k' (alter set_fallsthrough i ops1) (S i)
            end
      end
  end.

(** The [for] loop over the case lines of a switch; [rec] is the recursive
    call of [reachable]. *)
Fixpoint switch_cases (rec : Script -> option nat -> result Script)
    (pc : N) (script : Script) (cases : list string) : result Script :=
  match cases with
  | [] => Ok script
  | c :: cases' =>
      match find_case_offset c with
      | None => TypeError script
      | Some d =>
          let absolute := (pc + parse_digits d)%N in
          match rec script (pcToOpcodeIndex script !! dec absolute) with
          | Ok script' => switch_cases rec pc script' cases'
          | r => r
          end
      end
  end.

(** [reachable(script, opcodeIndex)].  The index is [None] when the caller
    passes [null] or [undefined].  [fuel] bounds the depth of the recursion. *)
Fixpoint reachable (fuel : nat) (script : Script) (opcodeIndex : option nat)
  : result Script :=
  match fuel with
  | 0 => OutOfFuel
  | S fuel' =>
      match opcodeIndex with
      | None => TypeError script
      | Some i =>
          match opcodes script !! i with
          | None => TypeError script   (* opcode.entrypoint on undefined *)
          | Some _ =>
              let ops0 := alter set_entrypoint i (opcodes script) in
              match walk (length ops0 - i) ops0 i with
              | WalkReturn ops => Ok (with_opcodes ops script)
              | WalkThrow ops => TypeError (with_opcodes ops script)
              | WalkBreak ops j op opcode =>
                  let script1 := with_opcodes ops script in
                  if js_in op terminators then Ok script1
                  else if js_in op unconditionals then
                    reachable fuel' script1
                      (branchIndex script1 (op_assembly opcode))
                  else if js_in op conditionals then
                    match reachable fuel' script1 (Some (S j)) with
                    | Ok script2 =>
                        match branchIndex script2 (op_assembly opcode) with
                        | Some (S b) => reachable fuel' script2 (Some (S b))
                        | _ => Ok script2   (* [if (branch)] is false *)
                        end
                    | r => r
                    end
                  else if js_in op switches then
                    match split TAB (op_assembly opcode) with
                    | [] => TypeError script1
                    | c0 :: cases =>
                        match find_ffset c0 with
                        | None => TypeError script1
                        | Some d =>
                            let absolute := (op_pc opcode + parse_digits d)%N in
                            match reachable fuel' script1
                                    (pcToOpcodeIndex script1 !! dec absolute) with
                            | Ok script2 =>
                                switch_cases (reachable fuel') (op_pc opcode)
                                  script2 cases
                            | r => r
                            end
                        end
                    end
                  else Ok script1
              end
          end
      end
  end.

(** [Script.prototype.checkReachability]: the walk starts at position 0.
    A depth of one more than the number of opcodes is never exhausted
    (see [reachable_fuel]). *)
Definition checkReachability (script : Script) : result Script :=
  reachable (S (length (opcodes script))) script (Some 0%nat).

(** ** Coverage.Parser *)

(** The Parser.  [scriptMap] maps a signature to a Script that is also an
    element of [scripts]; the shared object is modelled by its position in
    [scripts].  [scriptlines] is [null] outside a record; it is read only
    inside one, where it is an array, and [null] is modelled by [[]]. *)
Record Parser : Type := {
  inscript : bool;
  scriptlines : list string;
  scripts : list Script;
  scriptMap : gmap string nat
}.

Definition new_Parser : Parser :=
  {| inscript := false; scriptlines := []; scripts := []; scriptMap := ∅ |}.

(** First lines of the records that are skipped. *)
Definition dummy_scripts : list string :=
  ["--- SCRIPT (null):0 ---"; "--- SCRIPT :0 ---"; "--- SCRIPT -e:1 ---"].

Definition is_dummy (lines : list string) : bool :=
  match lines with
  | first :: _ => existsb (String.eqb first) dummy_scripts
  | [] => false
  end.

(** [Parser.prototype.processLine].  The signature always holds a line
    feed, which no inherited property name does, so the lookup in
    [scriptMap] sees own properties only. *)
Definition processLine (p : Parser) (dataline : string) : result Parser :=
  if inscript p then
    let lines := (scriptlines p ++ [dataline])%list in
    let p1 := {| inscript := true; scriptlines := lines;
                 scripts := scripts p; scriptMap := scriptMap p |} in
    if test_SCRIPT_END dataline then
      if negb (is_dummy lines) then
        match Script_new lines with
        | Exn => TypeError p1
        | Val script =>
            let string := toString script in
            match scriptMap p !! string with
            | Some idx =>
                (* We've seen this script before *)
                match scripts p !! idx with
                | Some existingScript =>
                    match addCounts existingScript script with
                    | Val merged =>
                        Ok {| inscript := false; scriptlines := [];
                              scripts := <[idx := merged]> (scripts p);
                              scriptMap := scriptMap p |}
                    | Exn => TypeError p1
                    end
                | None => TypeError p1
                end
            | None =>
                match checkReachability script with
                | Ok script' =>
                    Ok {| inscript := false; scriptlines := [];
                          scripts := scripts p ++ [script'];
                          scriptMap := <[string := length (scripts p)]> (scriptMap p) |}
                | TypeError _ => TypeError p1
                | OutOfFuel => OutOfFuel
                end
            end
        end
      else
        Ok {| inscript := false; scriptlines := [];
              scripts := scripts p; scriptMap := scriptMap p |}
    else Ok p1
  else
    match match_SCRIPT_START dataline with
    | Some _ =>
        Ok {| inscript := true; scriptlines := [dataline];
              scripts := scripts p; scriptMap := scriptMap p |}
    | None => Ok p
    end.

(** The value [processLine] returns: whether the line was consumed. *)
Definition consumed (p : Parser) (dataline : string) : bool :=
  inscript p || bool_decide (is_Some (match_SCRIPT_START dataline)).

(** [lines.forEach(function(line) { parser.processLine(line); })]. *)
Fixpoint processLines (p : Parser) (lines : list string) : result Parser :=
  match lines with
  | [] => Ok p
  | l :: lines' =>
      match processLine p l with
      | Ok p' => processLines p' lines'
      | r => r
      end
  end.

(** ** Coverage.Line *)

(** A Line.  [opcodes] is enumerated with [for ... in]; its keys hold a
    colon, so the enumeration follows the insertion order.  The cache
    [_counts] is not modelled: the opcodes of a line do not change any more
    once [counts] has been called, so the cached array is the computed one. *)
Record Line : Type := {
  number : N;
  line_opcodes : list (string * Opcode);   (* key, opcode *)
  startFunc : bool;
  endFunc : bool
}.

Definition new_Line (n : N) : Line :=
  {| number := n; line_opcodes := []; startFunc := false; endFunc := false |}.

Definition has_key {A} (k : string) (l : list (string * A)) : bool :=
  existsb (fun kv => String.eqb k (fst kv)) l.

(** [Line.prototype.addOpcode]. *)
Definition addOpcode (pc : string) (opcode : Opcode) (l : Line) : Line :=
  if has_key pc (line_opcodes l) then l
  else {| number := number l; line_opcodes := line_opcodes l ++ [(pc, opcode)];
          startFunc := startFunc l; endFunc := endFunc l |}.

Definition set_startFunc (l : Line) : Line :=
  {| number := number l; line_opcodes := line_opcodes l;
     startFunc := true; endFunc := endFunc l |}.

Definition set_endFunc (l : Line) : Line :=
  {| number := number l; line_opcodes := line_opcodes l;
     startFunc := startFunc l; endFunc := true |}.

(** State of the loop of [counts]: [min], [max], [rawcounts], [lastopcode]. *)
Record counts_state : Type := {
  cs_min : jsnum;
  cs_max : jsnum;
  rawcounts : list jsnum;
  lastopcode : option Opcode
}.

Definition counts_init : counts_state :=
  {| cs_min := Infinity; cs_max := Int 0; rawcounts := []; lastopcode := None |}.

(** The test that skips the count of an opcode. *)
Definition skip_count (last : option Opcode) (c : jsnum) : bool :=
  match last with
  | Some lo =>
      op_fallsthrough lo
      && (strict_eq c (op_count lo)
          || (strict_eq c (Int 0) && negb (strict_eq (op_count lo) (Int 0))))
  | None => false
  end.

Definition counts_step (st : counts_state) (opcode : Opcode) : counts_state :=
  let c := op_count opcode in
  if op_reachable opcode then
    if skip_count (lastopcode st) c then
      {| cs_min := cs_min st; cs_max := cs_max st; rawcounts := rawcounts st;
         lastopcode := Some opcode |}
    else
      {| cs_min := Math_min (cs_min st) c; cs_max := Math_max (cs_max st) c;
         rawcounts := rawcounts st ++ [c]; lastopcode := Some opcode |}
  else
    {| cs_min := cs_min st; cs_max := cs_max st;
       rawcounts := rawcounts st ++ [Int (-1)]; lastopcode := Some opcode |}.

(** The comparator [function(a,b) { return a-b; }] says that [a] goes after
    [b] when the difference is positive; a [NaN] difference counts as zero. *)
Definition goes_after (a b : jsnum) : bool :=
  match a, b with
  | Int x, Int y => (0 <? x - y)%Z
  | Infinity, Int _ => true
  | _, _ => false
  end.

Fixpoint sort_insert (x : jsnum) (l : list jsnum) : list jsnum :=
  match l with
  | [] => [x]
  | y :: l' => if goes_after y x then x :: l else y :: sort_insert x l'
  end.

(** [rawcounts.sort(...)]: a stable insertion sort.  On integers every
    conforming sort gives this result; with a [NaN] among two or more
    elements the order is left to the implementation by the language. *)
Definition sort_counts (l : list jsnum) : list jsnum :=
  fold_left (fun acc x => sort_insert x acc) l [].

(** The loop that removes adjacent duplicates. *)
Fixpoint dedup_from (prev : jsnum) (l : list jsnum) : list jsnum :=
  match l with
  | [] => []
  | x :: l' => if strict_eq x prev then dedup_from prev l'
               else x :: dedup_from x l'
  end.

Definition dedup (l : list jsnum) : list jsnum :=
  match l with
  | [] => [Undefined]          (* counts[0] = rawcounts[0] on an empty array *)
  | x :: l' => x :: dedup_from x l'
  end.

(** The test [rawcounts.length === 1 && rawcounts[0] === -1]. *)
Definition single_dead (raw : list jsnum) : bool :=
  match raw with
  | [x] => strict_eq x (Int (-1))
  | _ => false
  end.

(** [Line.prototype.counts]; [None] is the value [undefined]. *)
Definition Line_counts (l : Line) : option (list jsnum) :=
  let st := fold_left counts_step (map snd (line_opcodes l)) counts_init in
  if strict_eq (cs_min st) (cs_max st) && js_ge (cs_min st) (Int 0)
  then Some [cs_min st]
  else if single_dead (rawcounts st) then
    match line_opcodes l with
    | (_, first) :: _ =>
        if String.eqb (op_assembly first) "stop" then Some [] else None
    | [] => None
    end
  else Some (dedup (sort_counts (rawcounts st))).

(** The strings [coverage] returns; [cov_empty] is the empty string and
    [cov_undefined] the value of a call that runs off the end. *)
Inductive cov : Type :=
| cov_full | cov_some | cov_none | cov_dead | cov_empty | cov_undefined.

Definition coverage_of (counts : list jsnum) : cov :=
  match counts with
  | [] => cov_empty
  | c0 :: rest =>
      if js_gt c0 (Int 0) then cov_full
      else
        match rest with
        | [] =>
            if strict_eq c0 (Int 0) then cov_none
            else if strict_eq c0 (Int (-1)) then cov_dead
            else cov_undefined
        | c1 :: _ =>
            if strict_eq c0 (Int (-1)) && js_gt c1 (Int 0) then cov_full
            else cov_some
        end
  end.

(** [Line.prototype.coverage]: reading [counts.length] throws when
    [counts()] is [undefined]. *)
Definition Line_coverage (l : Line) : exn cov :=
  match Line_counts l with
  | Some counts => Val (coverage_of counts)
  | None => Exn
  end.

(** ** Coverage.File *)

(** A File.  [lines] is keyed by line number; the results computed from it
    (a tally, and an array filled at one index per line number) do not
    depend on the order of enumeration, which the model takes to be the
    insertion order. *)
Record File : Type := {
  file_name : string;
  lines : list (N * Line)
}.

Definition new_File (n : string) : File := {| file_name := n; lines := [] |}.

Fixpoint alter_line (g : Line -> Line) (n : N) (ls : list (N * Line))
  : list (N * Line) :=
  match ls with
  | [] => [(n, g (new_Line n))]
  | (m, l) :: ls' =>
      if (m =? n)%N then (m, g l) :: ls' else (m, l) :: alter_line g n ls'
  end.

(** [file.line(linenum)] followed by an update [g] of the Line it returns;
    the Line is created when the file has none for that number. *)
Definition File_line (linenum : N) (g : Line -> Line) (f : File) : File :=
  {| file_name := file_name f; lines := alter_line g linenum (lines f) |}.

Definition tally : Type := (nat * nat * nat * nat)%type.

Definition tally_add (c : cov) (t : tally) : tally :=
  let '(covered, partial, uncovered, dead) := t in
  match c with
  | cov_full => (S covered, partial, uncovered, dead)
  | cov_some => (covered, S partial, uncovered, dead)
  | cov_none => (covered, partial, S uncovered, dead)
  | cov_dead => (covered, partial, uncovered, S dead)
  | _ => t
  end.

(** [File.prototype.coverage]. *)
Fixpoint File_coverage_loop (ls : list (N * Line)) (t : tally) : exn tally :=
  match ls with
  | [] => Val t
  | (_, line) :: ls' =>
      match Line_coverage line with
      | Val c => File_coverage_loop ls' (tally_add c t)
      | Exn => Exn
      end
  end.

Definition File_coverage (f : File) : exn tally :=
  File_coverage_loop (lines f) (0, 0, 0, 0)%nat.

(** ** Coverage *)

(** The per-line object of the output. *)
Record LineData : Type := {
  coverage : cov;
  counts : list jsnum;
  ld_startFunc : bool;
  ld_endFunc : bool
}.

(** A JavaScript array with holes. *)
Abbreviation array A := (list (option A)).

(** [a[i]]; a hole and an index past the end both read as [undefined]. *)
Definition array_get {A} (a : array A) (i : nat) : option A :=
  match a !! i with Some (Some x) => Some x | _ => None end.

(** [a[i] = x] for an array index [i]: the array grows as needed. *)
Fixpoint array_set {A} (i : nat) (x : A) (a : array A) : array A :=
  match i, a with
  | 0, [] => [Some x]
  | 0, _ :: a' => Some x :: a'
  | S i', [] => None :: array_set i' x []
  | S i', y :: a' => y :: array_set i' x a'
  end.

(** [a[k] = x] for a number [k]: only [0 <= k < 2^32 - 1] is an array index;
    any other key creates a plain property, which no loop of the program
    reads. *)
Definition array_store {A} (k : Z) (x : A) (a : array A) : array A :=
  if ((0 <=? k) && (k <? 2 ^ 32 - 1))%Z then array_set (Z.to_nat k) x a else a.

(** The per-file object of the output. *)
Record FileData : Type := {
  fd_filename : string;
  covered : nat;
  partial : nat;
  uncovered : nat;
  dead : nat;
  fd_lines : array LineData
}.

(** The events handed to [_trigger], with the values of their arguments at
    the time of the call. *)
Inductive Event : Type :=
| onNewScript (filename : string) (filedata : FileData)
| onScriptUpdate (filename : string) (filedata : FileData)
| onLineUpdate (filename : string) (linenum : nat) (line : LineData).

(** A listener: the handlers it has. *)
Record Listener : Type := {
  has_onNewScript : bool;
  has_onScriptUpdate : bool;
  has_onLineUpdate : bool
}.

Definition handles (l : Listener) (e : Event) : bool :=
  match e with
  | onNewScript _ _ => has_onNewScript l
  | onScriptUpdate _ _ => has_onScriptUpdate l
  | onLineUpdate _ _ _ => has_onLineUpdate l
  end.

(** The engine.  [triggered] is the history of the calls of [_trigger]; a
    listener receives those it has a handler for, in that order. *)
Record Coverage : Type := {
  _listeners : list Listener;
  filenames : gmap string FileData;
  triggered : list Event
}.

Definition new_Coverage : Coverage :=
  {| _listeners := []; filenames := ∅; triggered := [] |}.

Definition addListener (l : Listener) (self : Coverage) : Coverage :=
  {| _listeners := (_listeners self ++ [l])%list; filenames := filenames self;
     triggered := triggered self |}.

Definition received (l : Listener) (self : Coverage) : list Event :=
  filter (fun e => handles l e = true) (triggered self).

(** [Coverage.prototype._trigger]. *)
Definition _trigger (e : Event) (self : Coverage) : Coverage :=
  {| _listeners := _listeners self; filenames := filenames self;
     triggered := (triggered self ++ [e])%list |}.

Definition set_file (filename : string) (fd : FileData) (self : Coverage)
  : Coverage :=
  {| _listeners := _listeners self;
     filenames := <[filename := fd]> (filenames self);
     triggered := triggered self |}.

(** *** From Scripts to Files *)

Fixpoint assoc {A} (k : string) (l : list (string * A)) : option A :=
  match l with
  | [] => None
  | (k', v) :: l' => if String.eqb k k' then Some v else assoc k l'
  end.

Fixpoint assoc_set {A} (k : string) (v : A) (l : list (string * A))
  : list (string * A) :=
  match l with
  | [] => [(k, v)]
  | (k', v') :: l' =>
      if String.eqb k k' then (k', v) :: l' else (k', v') :: assoc_set k v l'
  end.

(** The body of [scripts.forEach] in [parseData].  When [filename] names an
    inherited property, [files[filename]] is not a File and calling its
    [line] throws. *)
Definition add_script (files : list (string * File)) (script : Script)
  : exn (list (string * File)) :=
  let filename := str id (filename script) in
  let files1 :=
    if negb (has_key filename files || inherited filename)
    then (files ++ [(filename, new_File filename)])%list else files in
  match assoc filename files1 with
  | None => Exn
  | Some file =>
      let file1 :=
        fold_left
          (fun f opcode =>
             File_line (op_srcline opcode)
               (addOpcode (str id (name script) ++ ":" ++ dec (op_pc opcode)) opcode)
               f)
          (opcodes script) file in
      match head (opcodes script), last (opcodes script) with
      | Some first, Some final =>
          Val (assoc_set filename
                 (File_line (op_srcline final) set_endFunc
                    (File_line (op_srcline first) set_startFunc file1))
                 files1)
      | _, _ => Exn
      end
  end.

Fixpoint add_scripts (files : list (string * File)) (l : list Script)
  : exn (list (string * File)) :=
  match l with
  | [] => Val files
  | script :: l' =>
      match add_script files script with
      | Val files' => add_scripts files' l'
      | Exn => Exn
      end
  end.

(** [filenames.sort()]: strings in the order of their code units. *)
Fixpoint sort_insert_string (x : string) (l : list string) : list string :=
  match l with
  | [] => [x]
  | y :: l' => if String.ltb x y then x :: l else y :: sort_insert_string x l'
  end.

Definition sort_strings (l : list string) : list string :=
  fold_left (fun acc x => sort_insert_string x acc) l [].

(** *** The snapshot of a file *)

(** The object [l] built for a Line. *)
Definition line_data (line : Line) : exn LineData :=
  match Line_counts line with
  | Some c =>
      Val {| coverage := coverage_of c; counts := c;
             ld_startFunc := startFunc line; ld_endFunc := endFunc line |}
  | None => Exn
  end.

(** The loop [for(var linenum in file.lines)] that fills [filedata.lines]. *)
Fixpoint fill_lines (ls : list (N * Line)) (a : array LineData)
  : exn (array LineData) :=
  match ls with
  | [] => Val a
  | (linenum, line) :: ls' =>
      match line_data line with
      | Val l => fill_lines ls' (array_store (Z.of_N linenum - 1) l a)
      | Exn => Exn
      end
  end.

Definition make_filedata (filename : string) (file : File) : exn FileData :=
  match File_coverage file with
  | Exn => Exn
  | Val (c0, c1, c2, c3) =>
      match fill_lines (lines file) [] with
      | Exn => Exn
      | Val a =>
          Val {| fd_filename := filename; covered := c0; partial := c1;
                 uncovered := c2; dead := c3; fd_lines := a |}
      end
  end.

(** *** Reconciliation with the stored data *)

(** [equalArrays]. *)
Fixpoint equalArrays (a b : list jsnum) : bool :=
  match a, b with
  | [], [] => true
  | x :: a', y :: b' => strict_eq x y && equalArrays a' b'
  | _, _ => false
  end.

Definition cov_eqb (a b : cov) : bool :=
  match a, b with
  | cov_full, cov_full | cov_some, cov_some | cov_none, cov_none
  | cov_dead, cov_dead | cov_empty, cov_empty
  | cov_undefined, cov_undefined => true
  | _, _ => false
  end.

Definition overwrite (oldline newline : LineData) : LineData :=
  {| coverage := coverage newline; counts := counts newline;
     ld_startFunc := ld_startFunc oldline; ld_endFunc := ld_endFunc oldline |}.

(** State of the first loop: the lines of [olddata] and the events. *)
Definition rec_state : Type := (array LineData * list Event)%type.

(** The loop [for(var i = 0; i < filedata.lines.length; i++)] from position
    [i] on; [newlines] is what is left of [filedata.lines]. *)
Fixpoint reconcile_lines (filename : string) (i : nat)
    (newlines : array LineData) (st : rec_state) : result rec_state :=
  match newlines with
  | [] => Ok st
  | None :: rest => reconcile_lines filename (S i) rest st
  | Some newline :: rest =>
      let '(old, evs) := st in
      match array_get old i with
      | None =>
          (* [olddata.lines[i] = newline], the event with [i+1], and then
             [oldline.coverage] on the undefined [oldline] *)
          TypeError (array_set i newline old,
                     (evs ++ [onLineUpdate filename (S i) newline])%list)
      | Some oldline =>
          if negb (cov_eqb (coverage newline) (coverage oldline))
             || negb (equalArrays (counts newline) (counts oldline))
          then
            let oldline' := overwrite oldline newline in
            reconcile_lines filename (S i) rest
              (array_set i oldline' old,
               (evs ++ [onLineUpdate filename i oldline'])%list)
          else reconcile_lines filename (S i) rest st
      end
  end.

(** The second loop: the tallies of the lines of [olddata]. *)
Fixpoint recount (a : array LineData) (t : tally) : tally :=
  match a with
  | [] => t
  | None :: a' => recount a' t
  | Some l :: a' => recount a' (tally_add (coverage l) t)
  end.

Definition with_lines (a : array LineData) (fd : FileData) : FileData :=
  {| fd_filename := fd_filename fd; covered := covered fd;
     partial := partial fd; uncovered := uncovered fd; dead := dead fd;
     fd_lines := a |}.

Definition with_tally (t : tally) (fd : FileData) : FileData :=
  let '(c0, c1, c2, c3) := t in
  {| fd_filename := fd_filename fd; covered := c0; partial := c1;
     uncovered := c2; dead := c3; fd_lines := fd_lines fd |}.

Definition tally_of (fd : FileData) : tally :=
  (covered fd, partial fd, uncovered fd, dead fd).

Definition tally_eqb (a b : tally) : bool :=
  let '(a0, a1, a2, a3) := a in
  let '(b0, b1, b2, b3) := b in
  ((a0 =? b0) && (a1 =? b1) && (a2 =? b2) && (a3 =? b3))%nat.

Definition add_events (evs : list Event) (self : Coverage) : Coverage :=
  {| _listeners := _listeners self; filenames := filenames self;
     triggered := evs |}.

(** The [else] branch of the body of [filenames.forEach]: [olddata] is the
    object stored for [filename], updated in place. *)
Definition update_file (self : Coverage) (filename : string)
    (olddata filedata : FileData) : result Coverage :=
  match reconcile_lines filename 0 (fd_lines filedata)
          (fd_lines olddata, triggered self) with
  | Ok (old, evs) =>
      let olddata1 := with_lines old olddata in
      let self1 := add_events evs (set_file filename olddata1 self) in
      let t := recount old (0, 0, 0, 0)%nat in
      if negb (tally_eqb t (tally_of olddata1)) then
        let olddata2 := with_tally t olddata1 in
        Ok (_trigger (onScriptUpdate filename olddata2)
              (set_file filename olddata2 self1))
      else Ok self1
  | TypeError (old, evs) =>
      TypeError (add_events evs (set_file filename (with_lines old olddata) self))
  | OutOfFuel => OutOfFuel
  end.

(** The body of [filenames.forEach]. *)
Definition process_file (files : list (string * File)) (self : Coverage)
    (filename : string) : result Coverage :=
  match assoc filename files with
  | None => TypeError self
  | Some file =>
      match make_filedata filename file with
      | Exn => TypeError self
      | Val filedata =>
          if negb (bool_decide (is_Some (filenames self !! filename))
                   || inherited filename)
          then Ok (_trigger (onNewScript filename filedata)
                     (set_file filename filedata self))
          else
            match filenames self !! filename with
            | Some olddata => update_file self filename olddata filedata
            | None => TypeError self   (* an inherited value has no [lines] *)
            end
      end
  end.

Fixpoint process_files (files : list (string * File)) (self : Coverage)
    (names : list string) : result Coverage :=
  match names with
  | [] => Ok self
  | filename :: names' =>
      match process_file files self filename with
      | Ok self' => process_files files self' names'
      | r => r
      end
  end.

(** [Coverage.prototype.parseData]. *)
Definition parseData (self : Coverage) (rawdata : string) : result Coverage :=
  match processLines new_Parser (split LF rawdata) with
  | Ok parser =>
      match add_scripts [] (scripts parser) with
      | Val files => process_files files self (sort_strings (map fst files))
      | Exn => TypeError self
      end
  | TypeError _ => TypeError self
  | OutOfFuel => OutOfFuel
  end.

(** ** The control-flow graph of a Script, as the analysis is specified *)

(** The categories of instructions. *)
Inductive category : Type :=
| Terminator | Unconditional | Conditional | Switch | Linear.

(** The category of a mnemonic, read off the four tables in the order in
    which [reachable] consults them; [test] says whether a table holds a
    mnemonic. *)
Definition category_by (test : string -> list string -> bool) (op : string)
  : category :=
  if test op terminators then Terminator
  else if test op unconditionals then Unconditional
  else if test op conditionals then Conditional
  else if test op switches then Switch
  else Linear.

(** The category of a mnemonic: the table that lists it, and linear when
    none does. *)
Definition category_of (op : string) : category := category_by mem op.

(** The offsets of a switch: the default offset of the first line, then one
    offset per case line; [None] when one of them cannot be decoded. *)
Fixpoint case_offsets (cases : list string) : option (list N) :=
  match cases with
  | [] => Some []
  | c :: cases' =>
      match find_case_offset c, case_offsets cases' with
      | Some d, Some ds => Some (parse_digits d :: ds)
      | _, _ => None
      end
  end.

Definition switch_offsets (assembly : string) : option (list N) :=
  match split TAB assembly with
  | [] => None
  | c0 :: cases =>
      match find_ffset c0, case_offsets cases with
      | Some d, Some ds => Some (parse_digits d :: ds)
      | _, _ => None
      end
  end.

(** The position a relative offset of the switch [opcode] resolves to:
    the offset is added to the address of the switch and the sum is looked
    up in the address index. *)
Definition switch_target (script : Script) (opcode : Opcode) (offset : N)
  : option nat :=
  pcToOpcodeIndex script !! dec (op_pc opcode + offset).

(** The successors of position [i] under the rules of the categories:
    none after a terminator, the target after an unconditional branch, the
    next instruction and the target (when there is one) after a conditional
    branch, the default and case targets after a switch, the next
    instruction otherwise. *)
Definition successors_by (test : string -> list string -> bool)
    (script : Script) (i : nat) : list nat :=
  match opcodes script !! i with
  | None => []
  | Some opcode =>
      let next :=
        if (S i <? length (opcodes script))%nat then [S i] else [] in
      let target := option_list (branchIndex script (op_assembly opcode)) in
      match first_word (op_assembly opcode) with
      | None => []
      | Some op =>
          match category_by test op with
          | Terminator => []
          | Unconditional => target
          | Conditional => (next ++ target)%list
          | Switch =>
              match switch_offsets (op_assembly opcode) with
              | Some offs => omap (switch_target script opcode) offs
              | None => []
              end
          | Linear => next
          end
      end
  end.

Definition successors (script : Script) (i : nat) : list nat :=
  successors_by mem script i.

Definition successor (script : Script) (i j : nat) : Prop :=
  j ∈ successors script i.

(** Reachability from position 0 in that graph. *)
Definition Reach (script : Script) (j : nat) : Prop :=
  rtc (successor script) 0%nat j.

(** The mark [reachable] leaves on position [j]. *)
Definition marked_at (ops : list Opcode) (j : nat) : bool :=
  match ops !! j with
  | Some o => op_reachable o
  | None => false
  end.

Definition marked (script : Script) (j : nat) : bool :=
  marked_at (opcodes script) j.

(** A Script as the constructor leaves it: no opcode is marked. *)
Definition unmarked_script (script : Script) : bool :=
  forallb (fun o => negb (op_reachable o)) (opcodes script).

Definition valid_position (script : Script) (t : option nat) : bool :=
  match t with
  | Some j => (j <? length (opcodes script))%nat
  | None => false
  end.

(** The decoded targets of an opcode resolve through the address index: the
    target of an unconditional branch, the target of a conditional branch
    when its assembly shows one, the default and case targets of a switch. *)
Definition targets_resolve_at_by (test : string -> list string -> bool)
    (script : Script) (opcode : Opcode) : bool :=
  match first_word (op_assembly opcode) with
  | None => true
  | Some op =>
      match category_by test op with
      | Unconditional =>
          valid_position script (branchIndex script (op_assembly opcode))
      | Conditional =>
          match branch_target (op_assembly opcode) with
          | Some _ =>
              valid_position script (branchIndex script (op_assembly opcode))
          | None => true
          end
      | Switch =>
          match switch_offsets (op_assembly opcode) with
          | Some offs =>
              forallb (fun off =>
                         valid_position script (switch_target script opcode off))
                offs
          | None => false
          end
      | _ => true
      end
  end.

Definition targets_resolve_at (script : Script) (opcode : Opcode) : bool :=
  targets_resolve_at_by mem script opcode.

Definition targets_resolve (script : Script) : bool :=
  forallb (targets_resolve_at script) (opcodes script).

(** The assembly of the opcode at position [i] begins a mnemonic somewhere,
    and a conditional branch is not the last opcode. *)
Definition has_next_at_by (test : string -> list string -> bool)
    (script : Script) (i : nat) (opcode : Opcode) : bool :=
  match first_word (op_assembly opcode) with
  | None => false
  | Some op =>
      match category_by test op with
      | Conditional => (S i <? length (opcodes script))%nat
      | _ => true
      end
  end.

Definition has_next_at (script : Script) (i : nat) (opcode : Opcode) : bool :=
  has_next_at_by mem script i opcode.

(** The mnemonic of the opcode is not the name of a property that the tables
    inherit from [Object.prototype]. *)
Definition own_mnemonic (opcode : Opcode) : bool :=
  match first_word (op_assembly opcode) with
  | None => true
  | Some op => negb (inherited op)
  end.

(** What the analysis expects of a Script: its targets resolve, it has an
    opcode, every assembly begins a mnemonic somewhere, no mnemonic is an
    inherited property name, and a conditional branch is never the last
    opcode. *)
Definition well_formed (script : Script) : bool :=
  targets_resolve script
  && negb (bool_decide (opcodes script = []))
  && forallb (fun io => has_next_at script (fst io) (snd io))
       (imap pair (opcodes script))
  && forallb own_mnemonic (opcodes script).

(** Number of opcodes not yet marked reachable. *)
Fixpoint unmarked (ops : list Opcode) : nat :=
  match ops with
  | [] => 0
  | o :: ops' => (if op_reachable o then 0 else 1) + unmarked ops'
  end.



(** ** Texts in the format the engine expects *)

(** The opcodes of the Scripts a text parses to. *)
Definition instructions (rawdata : string) : list Opcode :=
  match processLines new_Parser (split LF rawdata) with
  | Ok p => concat (map opcodes (scripts p))
  | _ => []
  end.

(** The count of the opcode is an integer: its count group had three
    fields or more. *)
Definition counted (o : Opcode) : bool :=
  match op_count o with Int _ => true | _ => false end.

(** The source line of the opcode is the number of a line whose index
    [srcline - 1] is an array index. *)
Definition line_in_range (n : N) : bool := ((1 <=? n) && (n <? 2 ^ 32))%N.

(** Every instruction of the text has an integer count and a source line
    in range. *)
Definition in_format (rawdata : string) : bool :=
  forallb (fun o => counted o && line_in_range (op_srcline o))
    (instructions rawdata).

(** ** The classes of a line of a File *)

(** [this.lines[n]] for a line number [n]. *)
Fixpoint lookup_line (n : N) (ls : list (N * Line)) : option Line :=
  match ls with
  | [] => None
  | (m, l) :: ls' => if (m =? n)%N then Some l else lookup_line n ls'
  end.

(** The string a value of [coverage()] is. *)
Definition cov_string (c : cov) : string :=
  match c with
  | cov_full => "full"
  | cov_some => "some"
  | cov_none => "none"
  | cov_dead => "dead"
  | cov_empty => ""
  | cov_undefined => "undefined"
  end.

(** [File.prototype.coverageClass] for a line number [n]. *)
Definition coverageClass (f : File) (n : N) : exn string :=
  match lookup_line n (lines f) with
  | Some line =>
      match Line_coverage line with
      | Val c => Val (" " ++ cov_string c)
      | Exn => Exn
      end
  | None => Val ""
  end.

(** [a <= b]. *)
Definition js_le (a b : jsnum) : bool :=
  match a, b with
  | Int x, Int y => (x <=? y)%Z
  | Int _, Infinity | Infinity, Infinity => true
  | _, _ => false
  end.

(** String conversion of a number. *)
Definition num_string (x : jsnum) : string :=
  match x with
  | Int z =>
      if (z <? 0)%Z then "-" ++ dec (Z.to_N (- z)) else dec (Z.to_N z)
  | Infinity => "Infinity"
  | NaN => "NaN"
  | Undefined => "undefined"
  end.

Section Profile.

(** [Math.floor(Math.log(x)/Math.LN10)] for an integer [x > 0]: the floor
    of a quotient of floating-point numbers, which the model does not
    compute. *)
Variable floor_log10 : Z -> Z.

(** The local function [log] of [profileClass].  The logarithm of
    [Infinity] is [Infinity], that of [NaN] or [undefined] is [NaN], and
    [Math.min] yields [NaN] when an argument is [NaN]. *)
Definition log (x : jsnum) : jsnum :=
  if js_le x (Int 0) then Int 0
  else
    match x with
    | Int z => Math_min (Int (floor_log10 z)) (Int 9)
    | Infinity => Math_min Infinity (Int 9)
    | NaN | Undefined => Math_min NaN (Int 9)
    end.

(** [counts[counts.length-1]]; on the empty array the index is -1 and the
    value [undefined]. *)
Definition last_count (counts : list jsnum) : jsnum :=
  match last counts with
  | Some c => c
  | None => Undefined
  end.

(** [File.prototype.profileClass] for a line number [n]; reading
    [counts.length] throws when [counts()] is [undefined]. *)
Definition profileClass (f : File) (n : N) : exn string :=
  match lookup_line n (lines f) with
  | None => Val ""
  | Some line =>
      match Line_counts line with
      | Some counts => Val (" p" ++ num_string (log (last_count counts)))
      | None => Exn
      end
  end.

End Profile.

(** ** Listeners as objects *)

(** [removeListener] finds a listener with [indexOf], which compares
    objects by identity.  Here a listener is a reference of a type [R] with
    decidable equality, and the array [_listeners] a list of references. *)
Module Registry.
Section Registry.

Context {R : Type} `{EqDecision R}.

(** [Array.prototype.indexOf]: the first position that holds [l], [None]
    for -1. *)
Fixpoint indexOf (l : R) (a : list R) : option nat :=
  match a with
  | [] => None
  | x :: a' =>
      if decide (x = l) then Some 0%nat
      else match indexOf l a' with
           | Some i => Some (S i)
           | None => None
           end
  end.

(** [a.splice(idx, 1)]. *)
Fixpoint splice (idx : nat) (a : list R) : list R :=
  match a, idx with
  | [], _ => []
  | _ :: a', 0%nat => a'
  | x :: a', S i => x :: splice i a'
  end.

(** [Coverage.prototype.addListener]. *)
Definition addListener (l : R) (listeners : list R) : list R :=
  (listeners ++ [l])%list.

(** [Coverage.prototype.removeListener]. *)
Definition removeListener (l : R) (listeners : list R) : list R :=
  match indexOf l listeners with
  | Some idx => splice idx listeners
  | None => listeners
  end.

End Registry.
End Registry.

(** ** The Files of a text *)

(** The Files [parseData] builds from a text, in the order of their first
    Script; none when the text makes the Parser or the conversion throw. *)
Definition files_of (rawdata : string) : list (string * File) :=
  match processLines new_Parser (split LF rawdata) with
  | Ok p =>
      match add_scripts [] (scripts p) with
      | Val files => files
      | Exn => []
      end
  | _ => []
  end.

(** ** Example traces *)

Definition nl : string := String LF EmptyString.

(** The text made of the given lines. *)
Definition trace (l : list string) : string := join nl l.

(** An opcode as [reachable] leaves it. *)
Definition opcode_of (pc : N) (count : Z) (srcline : N) (assembly : string)
    (is_reachable falls : bool) : Opcode :=
  {| op_pc := pc; op_count := Int count; op_srcline := srcline;
     op_assembly := assembly; op_reachable := is_reachable;
     op_fallsthrough := falls; op_entrypoint := false |}.

Definition line_of (n : N) (ops : list (string * Opcode)) : Line :=
  {| number := n; line_opcodes := ops; startFunc := false; endFunc := false |}.

(** A line that holds one unreachable [nop]. *)
Definition dead_nop_line : Line :=
  line_of 2 [("a.js:1:1", opcode_of 1 0 2 "nop" false false)].

(** A function whose [return] is followed by a [nop] on a line of its own. *)
Definition dead_nop_trace : string :=
  trace [ "--- SCRIPT a.js:1 ---";
          "main:";
          "00000:3/0/0 x 1 return";
          "00001:0/0/0 x 2 nop";
          "00002:0/0/0 x 3 stop";
          "--- END SCRIPT a.js:1 ---" ].

(** A line that holds an unreachable opcode and a reachable one run 4 times. *)
Definition dead_and_live_line : Line :=
  line_of 1 [ ("a.js:1:0", opcode_of 0 0 1 "nop" false false);
              ("a.js:1:1", opcode_of 1 4 1 "nop" true true) ].

(** The Script the constructor builds from the lines of a record. *)
Definition script_of (lines : list string) : Script :=
  match Script_new lines with Val s => s | Exn => empty_Script end.

(** A [goto] over a [stop], to a conditional branch that is the last opcode
    and jumps back to the [stop]. *)
Definition cond_last_lines : list string :=
  [ "--- SCRIPT a.js:1 ---";
    "main:";
    "00000:1/0/0 x 1 goto 2";
    "00001:0/0/0 x 2 stop";
    "00002:1/0/0 x 3 ifeq 1";
    "--- END SCRIPT a.js:1 ---" ].
Definition cond_last_script := script_of cond_last_lines.

(** An instruction whose mnemonic is the name of a property that every
    object inherits, followed by a [stop]. *)
Definition inherited_lines : list string :=
  [ "--- SCRIPT a.js:1 ---";
    "main:";
    "00000:1/0/0 x 1 constructor";
    "00001:1/0/0 x 2 stop";
    "--- END SCRIPT a.js:1 ---" ].
Definition inherited_script := script_of inherited_lines.

(** A loop: the conditional branch leaves it, the [goto] closes it; the
    [nop] after the [stop] is unreachable. *)
Definition loop_lines : list string :=
  [ "--- SCRIPT a.js:1 ---";
    "main:";
    "00000:1/0/0 x 1 zero";
    "00001:5/0/0 x 2 ifeq 4";
    "00002:4/0/0 x 3 nop";
    "00003:4/0/0 x 3 goto 1";
    "00004:1/0/0 x 4 stop";
    "00005:0/0/0 x 5 nop";
    "--- END SCRIPT a.js:1 ---" ].
Definition loop_script := script_of loop_lines.

(** A switch at address 100 with default offset 10 and one case of offset
    20, followed by opcodes at the addresses 105, 110 and 120. *)
Definition switch_lines : list string :=
  [ "--- SCRIPT a.js:1 ---";
    "main:";
    "00100:1/0/0 x 1 tableswitch defaultOffset 10 low 0 high 0";
    String TAB "0: 20";
    "00105:0/0/0 x 2 nop";
    "00110:1/0/0 x 3 stop";
    "00120:0/0/0 x 4 stop";
    "--- END SCRIPT a.js:1 ---" ].
Definition switch_script := script_of switch_lines.

(** A function of two instructions dumped twice, with the counts 3, 3 and
    then 2, 2. *)
Definition twice_lines : list string :=
  [ "--- SCRIPT a.js:1 ---";
    "main:";
    "00000:3/0/0 x 1 nop";
    "00001:3/0/0 x 1 stop";
    "--- END SCRIPT a.js:1 ---";
    "--- SCRIPT a.js:1 ---";
    "main:";
    "00000:2/0/0 x 1 nop";
    "00001:2/0/0 x 1 stop" ].

Definition twice_trace : string :=
  trace (twice_lines ++ ["--- END SCRIPT a.js:1 ---"]).

(** The Parser once it has read [twice_lines]. *)
Definition twice_parser : Parser :=
  match processLines new_Parser twice_lines with
  | Ok p => p
  | _ => new_Parser
  end.

(** The Script it has registered. *)
Definition twice_existing : Script :=
  match scripts twice_parser with
  | s :: _ => s
  | [] => empty_Script
  end.

(** The Script of the second record. *)
Definition twice_script : Script :=
  script_of (scriptlines twice_parser ++ ["--- END SCRIPT a.js:1 ---"]).

(** A file known by its lines 1 and 3. *)
Definition known_file_trace : string :=
  trace [ "--- SCRIPT a.js:1 ---";
          "main:";
          "00000:3/0/0 x 1 nop";
          "00001:3/0/0 x 3 stop";
          "--- END SCRIPT a.js:1 ---" ].

(** A later dump of the same file: the counts of lines 1 and 3 are now 4,
    and a function on line 2 has been compiled. *)
Definition new_line_trace : string :=
  trace [ "--- SCRIPT a.js:1 ---";
          "main:";
          "00000:4/0/0 x 1 nop";
          "00001:4/0/0 x 3 stop";
          "--- END SCRIPT a.js:1 ---";
          "--- SCRIPT a.js:2 ---";
          "main:";
          "00000:1/0/0 x 2 stop";
          "--- END SCRIPT a.js:2 ---" ].

Definition line_data_of (c : cov) (n : Z) (starts ends : bool) : LineData :=
  {| coverage := c; counts := [Int n]; ld_startFunc := starts; ld_endFunc := ends |}.



(** An instruction line with a count group of two fields. *)
Definition two_field_trace : string :=
  trace [ "--- SCRIPT a.js:1 ---";
          "main:";
          "00000:3/0 x 1 nop";
          "00001:3/0/0 x 2 stop";
          "--- END SCRIPT a.js:1 ---" ].

(** An instruction on the source line 0. *)
Definition line_zero_trace : string :=
  trace [ "--- SCRIPT a.js:1 ---";
          "main:";
          "00000:3/0/1 x 0 nop";
          "00001:3/0/0 x 2 stop";
          "--- END SCRIPT a.js:1 ---" ].

(** Two files: a function with a loop, a branch that is not taken and a
    closing [stop] that is not reachable, and a function that never ran. *)
Definition two_files_trace : string :=
  trace [ "--- SCRIPT a.js:1 ---";
          "main:";
          "00000:1/0/0 x 1 zero";
          "00001:5/0/0 x 2 ifeq 5";
          "00002:4/0/0 x 2 nop";
          "00003:4/0/0 x 3 goto 1";
          "00004:0/0/0 x 4 return";
          "00005:1/0/0 x 4 retrval";
          "00006:0/0/0 x 5 stop";
          "--- END SCRIPT a.js:1 ---";
          "junk";
          "--- SCRIPT b.js:7 ---";
          "main:";
          "00000:0/0/0 x 7 nop";
          "00003:0/0/0 x 8 stop";
          "--- END SCRIPT b.js:7 ---" ].

Definition listening : Coverage :=
  addListener {| has_onNewScript := true; has_onScriptUpdate := true;
                 has_onLineUpdate := true |} new_Coverage.

Definition after (self : Coverage) (rawdata : string) : Coverage :=
  match parseData self rawdata with
  | Ok self' => self'
  | _ => self
  end.

(** ** Further example inputs *)

(** A record that is cut before its end marker. *)
Definition unterminated_trace : string :=
  trace [ "--- SCRIPT a.js:1 ---";
          "main:";
          "00000:1/0/0 x 1 nop";
          "00001:1/0/0 x 1 stop" ].

(** A line with a conditional branch that was taken every time: the branch
    ran three times, the opcode after it never. *)
Definition branch_line : Line :=
  line_of 2 [ ("a.js:1:1", opcode_of 1 3 2 "ifeq 4" true false);
              ("a.js:1:2", opcode_of 2 0 2 "nop" true true) ].

(** A line that holds an unreachable [stop] alone, and a file with that
    line and the line of the unreachable [nop]. *)
Definition stop_line : Line :=
  line_of 5 [("a.js:1:6", opcode_of 6 0 5 "stop" false false)].

Definition stop_file : File :=
  {| file_name := "a.js"; lines := [(5%N, stop_line); (2%N, dead_nop_line)] |}.

(** A line that holds two unreachable opcodes. *)
Definition dead_line : Line :=
  line_of 3 [ ("a.js:1:4", opcode_of 4 0 3 "nop" false false);
              ("a.js:1:5", opcode_of 5 0 3 "goto 1" false false) ].

(** The File of the name [name] among those of a text. *)
Definition file_of (rawdata name : string) : File :=
  match assoc name (files_of rawdata) with
  | Some f => f
  | None => new_File name
  end.

(** The snapshot of that File. *)
Definition snapshot_of (rawdata name : string) : FileData :=
  match make_filedata name (file_of rawdata name) with
  | Val fd => fd
  | Exn => {| fd_filename := name; covered := 0; partial := 0; uncovered := 0;
              dead := 0; fd_lines := [] |}
  end.

(** A dump of the same file in which nothing has run. *)
Definition idle_trace : string :=
  trace [ "--- SCRIPT a.js:1 ---";
          "main:";
          "00000:0/0/0 x 1 nop";
          "00001:0/0/0 x 3 stop";
          "--- END SCRIPT a.js:1 ---" ].

(** The engine as an exception of [parseData] leaves it. *)
Definition thrown (self : Coverage) (rawdata : string) : Coverage :=
  match parseData self rawdata with
  | TypeError e => e
  | _ => self
  end.


(** Two files, dumped in the order [b.js], [a.js]. *)
Definition unsorted_files_trace : string :=
  trace [ "--- SCRIPT b.js:7 ---";
          "main:";
          "00000:1/0/0 x 7 stop";
          "--- END SCRIPT b.js:7 ---";
          "--- SCRIPT a.js:1 ---";
          "main:";
          "00000:2/0/0 x 1 stop";
          "--- END SCRIPT a.js:1 ---" ].



Close Scope string_scope.

(** ** Vocabulary of the proofs about [reachable] *)

(** The fields [reachable] never writes. *)
Definition same_code (o o' : Opcode) : Prop :=
  op_pc o = op_pc o' ∧ op_count o = op_count o' ∧ op_srcline o = op_srcline o'
  ∧ op_assembly o = op_assembly o'.

(** [ops'] is [ops] with more flags set. *)
Definition grows (ops ops' : list Opcode) : Prop :=
  Forall2 (fun o o' => same_code o o' ∧ (op_reachable o = true → op_reachable o' = true))
    ops ops'.

Definition script_grows (s s' : Script) : Prop :=
  pcToOpcodeIndex s' = pcToOpcodeIndex s ∧ name s' = name s
  ∧ filename s' = filename s ∧ startline s' = startline s
  ∧ entrypoint s' = entrypoint s ∧ grows (opcodes s) (opcodes s').

Definition linear_at (ops : list Opcode) (t : nat) : Prop :=
  ∃ o op, ops !! t = Some o ∧ first_word (op_assembly o) = Some op ∧ linear op = true.

(** [ops'] is [ops] after the loop has walked the positions from [i] up to [e]. *)
Definition walked (ops : list Opcode) (i e : nat) (ops' : list Opcode) : Prop :=
  i ≤ e ≤ length ops ∧ grows ops ops'
  ∧ (∀ t, i ≤ t < e → linear_at ops t ∧ marked_at ops t = false ∧ marked_at ops' t = true)
  ∧ (∀ t, ¬ (i ≤ t < e) → ops' !! t = ops !! t).

(** The successors of a position when the category of a mnemonic is found
    the way [reachable] finds it, by [in] tests on the tables. *)
Definition code_successor (s : Script) (i j : nat) : Prop :=
  j ∈ successors_by js_in s i.

(** The requirements on the code of a Script, position by position, with the
    categories found by [in] tests. *)
Definition wf_code (s : Script) : Prop :=
  ∀ i o, opcodes s !! i = Some o →
         targets_resolve_at_by js_in s o = true ∧ has_next_at_by js_in s i o = true.

Definition new (s s' : Script) (t : nat) : Prop :=
  marked s' t = true ∧ marked s t = false.

Definition succs_marked (s' : Script) (t : nat) : Prop :=
  ∀ u, code_successor s' t u → marked s' u = true.

(** After a sequence of calls on the positions [ts]. *)
Definition visit_post (s : Script) (ts : list nat) (s' : Script) : Prop :=
  script_grows s s'
  ∧ (∀ u, u ∈ ts → marked s' u = true)
  ∧ (∀ t, new s s' t → ∃ u, u ∈ ts ∧ rtc (code_successor s) u t)
  ∧ (marked s 0 = true → ∀ t, new s s' t → succs_marked s' t).

(** After the call [reachable(script, idx)]. *)
Definition call_post (s : Script) (idx : option nat) (s' : Script) : Prop :=
  ∃ i, idx = Some i ∧ script_grows s s' ∧ marked s' i = true
       ∧ (∀ t, new s s' t → rtc (code_successor s) i t)
       ∧ (marked s 0 = true ∨ i = 0 → ∀ t, new s s' t → succs_marked s' t).

Definition rec_ok (rec : Script → option nat → result Script) (n : nat) : Prop :=
  ∀ s idx, unmarked (opcodes s) < n →
    match rec s idx with
    | Ok s' => call_post s idx s'
    | TypeError _ => wf_code s → valid_position s idx = true → False
    | OutOfFuel => False
    end.

(** ** Vocabulary of the proofs about the Parser *)

(** [s] holds no line feed. *)
Definition no_LF (s : string) : bool :=
  all_chars (fun c => negb (Ascii.eqb c LF)) s.

(** A Script whose name and assembly texts hold no line feed. *)
Definition clean (s : Script) : Prop :=
  no_LF (str id (name s)) = true
  ∧ Forall (fun o => no_LF (op_assembly o) = true) (opcodes s).

(** What holds of a Parser while it processes the lines of a text. *)
Definition parser_inv (p : Parser) : Prop :=
  (∀ sig idx, scriptMap p !! sig = Some idx →
              ∃ s, scripts p !! idx = Some s ∧ toString s = sig)
  ∧ (∀ idx s, scripts p !! idx = Some s → scriptMap p !! toString s = Some idx)
  ∧ Forall clean (scripts p)
  ∧ Forall (fun l => no_LF l = true) (scriptlines p).

(** The opcodes of [this] with the counts of [that] added to them. *)
Definition merge_counts (this that : list Opcode) : list Opcode :=
  zip_with (fun o o' => set_count (js_add (op_count o) (op_count o')) o) this that.



(** ** Vocabulary of the proofs about the engine *)

(** Numbers other than [NaN] and [undefined]. *)
Definition is_number (x : jsnum) : bool :=
  match x with Int _ | Infinity => true | _ => false end.

(** Values equal to themselves. *)
Definition self_equal (x : jsnum) : bool := strict_eq x x.

Definition line_ok (n : N) (line : Line) : Prop :=
  line_in_range n = true
  ∧ Forall (λ ko, counted (snd ko) = true) (line_opcodes line).

Definition file_ok (f : File) : Prop :=
  NoDup (map fst (lines f))
  ∧ Forall (λ nl, line_ok (fst nl) (snd nl)) (lines f).

(** A snapshot that reconciles with itself without a change. *)
Definition settled (fd : FileData) : Prop :=
  (∀ evs, reconcile_lines (fd_filename fd) 0 (fd_lines fd) (fd_lines fd, evs)
          = Ok (fd_lines fd, evs))
  ∧ recount (fd_lines fd) (0, 0, 0, 0) = tally_of fd.

Definition entry_ok (ol : option LineData) : Prop :=
  match ol with
  | Some l => equalArrays (counts l) (counts l) = true
  | None => True
  end.

Definition opcodes_ok (l : Line) : Prop :=
  Forall (λ ko, counted (snd ko) = true) (line_opcodes l).

Definition opcode_ok (o : Opcode) : Prop :=
  counted o = true ∧ line_in_range (op_srcline o) = true.

(** ** Vocabulary of the proofs about malformed input *)

(** [l] is a start marker. *)
Definition is_start (l : string) : bool :=
  bool_decide (is_Some (match_SCRIPT_START l)).
















(** ** Vocabulary of the further properties *)

(** The outcome of a run is a state, reached by a return or by an
    exception. *)
Definition ends_in {S} (r : result S) (s : S) : Prop :=
  r = Ok s ∨ r = TypeError s.

(** *** Scripts *)

(** An opcode on which the analysis has set no flag. *)
Definition fresh (o : Opcode) : Prop :=
  op_reachable o = false ∧ op_fallsthrough o = false ∧ op_entrypoint o = false.

(** The address, count and source line of the opcode an instruction line
    yields; [None] on a line that is not an instruction line. *)
Definition instruction (l : string) : option (N * jsnum * N) :=
  match match_SCRIPT_DATA l with
  | Some (pc, g, ln, asm) =>
      let o := new_opcode pc g ln asm in Some (op_pc o, op_count o, op_srcline o)
  | None => None
  end.

(** Position [i] holds the last opcode of the Script whose address is
    written [k]. *)
Definition last_at (s : Script) (k : string) (i : nat) : Prop :=
  ∃ o, opcodes s !! i = Some o ∧ k = dec (op_pc o)
       ∧ ∀ j o', opcodes s !! j = Some o' → op_pc o' = op_pc o → j ≤ i.

(** Opcodes that differ by their assembly at most. *)
Definition same_opcode (o o' : Opcode) : Prop :=
  op_pc o' = op_pc o ∧ op_count o' = op_count o ∧ op_srcline o' = op_srcline o
  ∧ op_reachable o' = op_reachable o ∧ op_fallsthrough o' = op_fallsthrough o
  ∧ op_entrypoint o' = op_entrypoint o.

(** The address index of the Script is that of its opcodes. *)
Definition index_ok (s : Script) : Prop :=
  ∀ k i, pcToOpcodeIndex s !! k = Some i ↔ last_at s k i.

(** The mnemonic of the opcode is a linear one. *)
Definition linear_opcode (o : Opcode) : bool :=
  match first_word (op_assembly o) with
  | Some op => linear op
  | None => false
  end.

Definition falls_ok (o : Opcode) : Prop :=
  op_fallsthrough o = op_reachable o && linear_opcode o.

Definition entry_marked (o : Opcode) : Prop :=
  op_entrypoint o = true → op_reachable o = true.

(** The flags of an opcode agree: it falls through exactly when it is
    reachable and linear, and it is an entry point only when reachable. *)
Definition flags_agree (o : Opcode) : Prop :=
  falls_ok o ∧ entry_marked o.

(** A property of Scripts that entering a position and walking from it
    keeps. *)
Definition walk_keeps (P : Script → Prop) : Prop :=
  ∀ s i, P s → is_Some (opcodes s !! i) →
    let ops0 := alter set_entrypoint i (opcodes s) in
    match walk (length ops0 - i) ops0 i with
    | WalkReturn ops | WalkThrow ops | WalkBreak ops _ _ _ => P (with_opcodes ops s)
    end.

(** A Script as the analysis leaves it: the marked positions are those
    reachable from position 0, and the flags of every opcode agree. *)
Definition analysed (s : Script) : Prop :=
  (∀ j, marked s j = true ↔ rtc (code_successor s) 0 j)
  ∧ Forall flags_agree (opcodes s).

(** *** Lines and Files *)

(** The count [z] stands for an opcode of [ops]: it is -1 and an opcode
    is unreachable, or it is the count of a reachable opcode. *)
Definition count_from (ops : list Opcode) (z : Z) : Prop :=
  (z = (-1)%Z ∧ ∃ o, o ∈ ops ∧ op_reachable o = false)
  ∨ (∃ o, o ∈ ops ∧ op_reachable o = true ∧ op_count o = Int z).

(** Whether [coverageClass] gives line [n] the class [c]. *)
Definition class_is (f : File) (c : string) (n : N) : bool :=
  match coverageClass f n with
  | Val x => String.eqb x c
  | Exn => false
  end.

(** The number of lines of the file that have the class [c]. *)
Definition count_class (f : File) (c : string) : nat :=
  length (List.filter (class_is f c) (map fst (lines f))).

(** The updates of a Line that keep the keys of its opcodes. *)
Definition keeps_keys (g : Line → Line) : Prop :=
  ∀ l k, has_key k (line_opcodes l) = true → has_key k (line_opcodes (g l)) = true.

(** The file has, on line [n], an opcode under the key [k]. *)
Definition holds_key (f : File) (n : N) (k : string) : Prop :=
  ∃ line, lookup_line n (lines f) = Some line ∧ has_key k (line_opcodes line) = true.

(** A File with one Line per line number, each numbered as its key says and
    holding an opcode. *)
Definition tidy (f : File) : Prop :=
  NoDup (map fst (lines f))
  ∧ Forall (λ nl, number (snd nl) = fst nl ∧ line_opcodes (snd nl) ≠ []) (lines f).

(** *** The engine *)

(** The test of the reconciliation: the coverage or the counts of the new
    line differ from those of the stored line. *)
Definition changed (oldline newline : LineData) : bool :=
  negb (cov_eqb (coverage newline) (coverage oldline))
  || negb (equalArrays (counts newline) (counts oldline)).

(** The stored line after the reconciliation with [newline]. *)
Definition reconciled (oldline newline : LineData) : LineData :=
  if changed oldline newline then overwrite oldline newline else oldline.

(** The stored snapshot [old] has nothing to learn from the snapshot [new]:
    every line of [new] is stored with its coverage and counts, and the
    stored tallies are those of the stored lines. *)
Definition quiet (old new : FileData) : Prop :=
  (∀ i nl, array_get (fd_lines new) i = Some nl →
           ∃ ol, array_get (fd_lines old) i = Some ol ∧ changed ol nl = false)
  ∧ recount (fd_lines old) (0, 0, 0, 0) = tally_of old.

(** [a < b] on strings: [a] comes before [b] in the order of the code
    units. *)
Definition before (a b : string) : Prop := String.ltb a b = true.

(** The engine [self'] knows what [self] knew: the same listeners, the
    events of [self] and possibly more, and every stored line of every file
    of [self]. *)
Definition extends (self self' : Coverage) : Prop :=
  _listeners self' = _listeners self
  ∧ (∃ sent, triggered self' = triggered self ++ sent)
  ∧ ∀ n fd i, filenames self !! n = Some fd → is_Some (array_get (fd_lines fd) i) →
              ∃ fd', filenames self' !! n = Some fd'
                     ∧ is_Some (array_get (fd_lines fd') i).

(** *** Scripts without their counts *)






(** * Properties *)

(** ** Lines: counts and coverage *)

(** A line that holds one opcode, unreachable and other than a lone [stop]:
    no branch of [counts] assigns the result. *)
Lemma Line_counts_single_unreachable (l : Line) (key : string) (o : Opcode) :
  line_opcodes l = [(key, o)] →
  op_reachable o = false →
  op_assembly o ≠ "stop"%string →
  Line_counts l = None ∧ Line_coverage l = Exn.
Proof.
  intros Hops Hr Hs.
  assert (Hc : Line_counts l = None).
  { unfold Line_counts. rewrite Hops. simpl.
    unfold counts_step. rewrite Hr. simpl.
    destruct (String.eqb_spec (op_assembly o) "stop"); [contradiction | done]. }
  split; [done |]. unfold Line_coverage. by rewrite Hc.
Qed.

(** C3.  On a line whose only opcode is an unreachable [nop], [counts()]
    returns [undefined] instead of the array holding -1, and [coverage()]
    throws instead of returning "dead"; [parseData] on a trace with such
    a line throws and leaves the engine as it was. *)
Theorem single_dead_opcode_is_undefined :
  Line_counts dead_nop_line = None
  ∧ Line_coverage dead_nop_line = Exn
  ∧ parseData new_Coverage dead_nop_trace = TypeError new_Coverage.
Proof.
  split; [| split].
  - by apply (Line_counts_single_unreachable _ "a.js:1:1"%string (opcode_of 1 0 2 "nop"%string false false)).
  - by apply (Line_counts_single_unreachable _ "a.js:1:1"%string (opcode_of 1 0 2 "nop"%string false false)).
  - vm_compute. reflexivity.
Qed.

(** The claim of C6 fails on [dead_and_live_line]: the line holds one
    unreachable opcode and one reachable opcode of count 4, and [counts()]
    is the one-element array holding 4. *)
Lemma dead_and_live_counts_collapse :
  Line_counts dead_and_live_line = Some [Int 4]
  ∧ Line_counts dead_and_live_line ≠ Some [Int (-1); Int 4].
Proof. split; [reflexivity | discriminate]. Qed.

(** C6, amended.  A line that holds exactly one unreachable opcode and one
    reachable opcode of count 4, in either order, the reachable one not
    falling through from the unreachable one: [min] and [max] are taken over
    the reachable counts only, so [counts()] is the one-element array
    holding 4, and [coverage()] is "full". *)
Theorem dead_and_live_line_is_full (l : Line) (k1 k2 : string) (u r : Opcode) :
  op_reachable u = false →
  op_fallsthrough u = false →
  op_reachable r = true →
  op_count r = Int 4 →
  line_opcodes l = [(k1, u); (k2, r)] ∨ line_opcodes l = [(k1, r); (k2, u)] →
  Line_counts l = Some [Int 4] ∧ Line_coverage l = Val cov_full.
Proof.
  intros Hu Hf Hr Hc Hops.
  assert (H : Line_counts l = Some [Int 4]).
  { unfold Line_counts.
    destruct Hops as [Hops | Hops]; rewrite Hops; simpl; unfold counts_step; simpl;
      rewrite ?Hu, ?Hr, ?Hf, ?Hc; simpl; rewrite ?Hu, ?Hr, ?Hf, ?Hc; reflexivity. }
  split; [done |]. unfold Line_coverage. by rewrite H.
Qed.

Lemma dead_and_live_line_is_full_witness :
  Line_counts dead_and_live_line = Some [Int 4]
  ∧ Line_coverage dead_and_live_line = Val cov_full.
Proof.
  apply (dead_and_live_line_is_full dead_and_live_line "a.js:1:0"%string "a.js:1:1"%string
           (opcode_of 0 0 1 "nop"%string false false) (opcode_of 1 4 1 "nop"%string true true));
    solve [reflexivity | left; reflexivity].
Defined.

(** ** The instruction pattern *)

Lemma span_app p a b :
  all_chars p a = true → stops p b = true → span p (a ++ b)%string = (a, b).
Proof.
  intros Ha Hb. induction a as [|c a IH]; simpl in *.
  - destruct b as [|d b]; [done|]. simpl in *. by destruct (p d).
  - apply andb_true_iff in Ha as [Hc Ha]. change (String c a ++ b)%string with (String c (a ++ b)%string).
    simpl. rewrite Hc, (IH Ha). done.
Qed.

Lemma append_assoc (a b c : string) : ((a ++ b) ++ c = a ++ (b ++ c))%string.
Proof. induction a as [|x a IH]; [done|]. change (String x ((a ++ b) ++ c) = String x (a ++ (b ++ c)))%string. by rewrite IH. Qed.

Lemma all_chars_app p a b : all_chars p (a ++ b)%string = all_chars p a && all_chars p b.
Proof. induction a as [|x a IH]; [done|]. change (String x a ++ b)%string with (String x (a ++ b)%string). simpl. rewrite IH. by rewrite andb_assoc. Qed.

Lemma split_no_sep sep s :
  all_chars (λ c, negb (Ascii.eqb c sep)) s = true → split sep s = [s].
Proof.
  induction s as [|c s IH]; simpl; [done|]. intros [Hc Hs]%andb_true_iff.
  apply negb_true_iff in Hc. rewrite Hc, (IH Hs). done.
Qed.

Lemma split_app sep a b :
  all_chars (λ c, negb (Ascii.eqb c sep)) a = true →
  split sep (a ++ String sep b)%string = a :: split sep b.
Proof.
  induction a as [|c a IH]; simpl.
  - intros _. change (("" ++ String sep b)%string) with (String sep b). simpl. by rewrite Ascii.eqb_refl.
  - intros [Hc Ha]%andb_true_iff. apply negb_true_iff in Hc.
    change (String c a ++ String sep b)%string with (String c (a ++ String sep b)%string).
    simpl. rewrite Hc, (IH Ha). done.
Qed.

Lemma all_chars_impl (p q : ascii → bool) s :
  (∀ c, p c = true → q c = true) → all_chars p s = true → all_chars q s = true.
Proof.
  intros H. induction s as [|c s IH]; simpl; [done|].
  intros [Hc Hs]%andb_true_iff. by rewrite (H c Hc), (IH Hs).
Qed.

Lemma digit_not c d : is_digit d = false → is_digit c = true → Ascii.eqb c d = false.
Proof. intros Hd Hc. destruct (Ascii.eqb_spec c d); [congruence|done]. Qed.

Lemma space_not_digit c : is_space c = true → is_digit c = false.
Proof.
  unfold is_space, is_digit. destruct (48 <=? code c)%N eqn:H1, (code c <=? 57)%N eqn:H2; try done.
  apply N.leb_le in H1, H2. intros H.
  repeat (apply orb_true_iff in H as [H|H]); [apply andb_true_iff in H as [_ H]; apply N.leb_le in H|apply N.eqb_eq in H..]; lia.
Qed.

Lemma stops_head p q s :
  nonempty s = true → all_chars q s = true → (∀ c, q c = true → p c = false) →
  ∀ r, stops p (s ++ r)%string = true.
Proof.
  intros Hn Hq H r. destruct s as [|c s]; [done|]. simpl in *.
  apply andb_true_iff in Hq as [Hc _]. by rewrite (H c Hc).
Qed.

Lemma js_add_NaN x : js_add x NaN = NaN.
Proof. by destruct x. Qed.

Lemma strip_prefix_cons a p c r :
  strip_prefix (String a p) (String c r) =
    if Ascii.eqb a c then strip_prefix p r else None.
Proof. reflexivity. Qed.

Lemma starts_digit_not_header l c r :
  l = String c r → is_digit c = true →
  match_SCRIPT_START l = None ∧ test_SCRIPT_END l = false ∧ String.eqb l "main:" = false.
Proof.
  intros -> Hc.
  assert (H1 : Ascii.eqb "-" c = false) by (destruct (Ascii.eqb_spec "-" c); [by subst|done]).
  assert (H2 : Ascii.eqb c "m" = false) by (destruct (Ascii.eqb_spec c "m"); [by subst|done]).
  split; [|split].
  - unfold match_SCRIPT_START. by rewrite strip_prefix_cons, H1.
  - unfold test_SCRIPT_END, starts_with. by rewrite strip_prefix_cons, H1.
  - change (String.eqb (String c r) "main:") with
      (if Ascii.eqb c "m" then String.eqb r "ain:" else false). by rewrite H2.
Qed.

(** C10.  An instruction line whose count group holds exactly two fields
    is accepted by the instruction pattern, and the count of the opcode the
    constructor stores for it is [NaN]: the third addend is [parseInt] of a
    field that is missing.  Every such line has the shape below: the
    address, a colon, the two fields, spaces, an [x], spaces, the source
    line, spaces and the assembly. *)
Theorem two_field_counts_give_NaN (script : Script)
    (pc c1 c2 w1 w2 ln w3 asm : string) :
  digits pc = true → digits c1 = true → digits c2 = true → digits ln = true →
  spaces w1 = true → spaces w2 = true → spaces w3 = true →
  all_chars is_dot asm = true → stops is_space asm = true →
  let line := (pc ++ ":" ++ c1 ++ "/" ++ c2 ++ w1 ++ "x" ++ w2 ++ ln ++ w3 ++ asm)%string in
  match_SCRIPT_DATA line = Some (pc, (c1 ++ "/" ++ c2)%string, ln, asm)
  ∧ ∃ opcode, Script_line script line = Val (push_opcode opcode script)
              ∧ op_count opcode = NaN.
Proof.
  intros [Hpc0 Hpc]%andb_true_iff [Hc10 Hc1]%andb_true_iff [Hc20 Hc2]%andb_true_iff
    [Hln0 Hln]%andb_true_iff [Hw10 Hw1]%andb_true_iff [Hw20 Hw2]%andb_true_iff
    [Hw30 Hw3]%andb_true_iff Hasm Hstop line.
  set (ds := λ c : ascii, is_digit c || Ascii.eqb c "/").
  assert (Hslash : ∀ s, all_chars is_digit s = true →
                        all_chars (λ c, negb (Ascii.eqb c "/")) s = true).
  { intros s. apply all_chars_impl. intros c Hc. apply negb_true_iff. by apply digit_not. }
  assert (Hg : split "/" (c1 ++ "/" ++ c2)%string = [c1; c2]).
  { change ("/" ++ c2)%string with (String "/" c2).
    rewrite split_app by auto. by rewrite split_no_sep by auto. }
  assert (Hm : match_SCRIPT_DATA line = Some (pc, (c1 ++ "/" ++ c2)%string, ln, asm)).
  { unfold match_SCRIPT_DATA, line.
    rewrite (span_app is_digit pc) by done. rewrite Hpc0. cbn [negb].
    change (":" ++ ?r)%string with (String ":" r). cbn [strip_prefix].
    change (Ascii.eqb ":" ":") with true. cbv iota.
    fold ds.
    replace (c1 ++ "/" ++ c2 ++ w1 ++ "x" ++ w2 ++ ln ++ w3 ++ asm)%string
      with ((c1 ++ "/" ++ c2) ++ (w1 ++ "x" ++ w2 ++ ln ++ w3 ++ asm))%string
      by (by rewrite !append_assoc).
    rewrite (span_app ds).
    2: { rewrite !all_chars_app. simpl. unfold ds.
         rewrite (all_chars_impl is_digit _ c1), (all_chars_impl is_digit _ c2); try done;
           intros c ->; done. }
    2: { apply (stops_head ds is_space); [done..|]. intros c Hc. unfold ds.
         rewrite (space_not_digit c Hc). simpl.
         destruct (Ascii.eqb_spec c "/"); [by subst|done]. }
    rewrite Hg. cbn [length forallb Nat.leb]. rewrite Hc10, Hc20. cbn [andb negb].
    rewrite (span_app is_space w1) by done. rewrite Hw10. cbn [negb].
    change ("x" ++ ?r)%string with (String "x" r). cbn [strip_prefix].
    change (Ascii.eqb "x" "x") with true. cbv iota.
    rewrite (span_app is_space w2).
    2: done.
    2: { apply (stops_head is_space is_digit); [done..|]. intros c Hc.
         destruct (is_space c) eqn:Hs; [|done]. by rewrite (space_not_digit c Hs) in Hc. }
    rewrite Hw20. cbn [negb].
    rewrite (span_app is_digit ln).
    2: done.
    2: { apply (stops_head is_digit is_space); [done..|]. apply space_not_digit. }
    rewrite Hln0. cbn [negb].
    rewrite (span_app is_space w3) by done. rewrite Hw30. cbn [negb]. by rewrite Hasm. }
  split; [done|].
  exists (new_opcode pc (c1 ++ "/" ++ c2)%string ln asm). split.
  - destruct pc as [|c r]; [done|]. simpl in Hpc. apply andb_true_iff in Hpc as [Hc _].
    destruct (starts_digit_not_header line c _ eq_refl Hc) as (H1 & H2 & H3).
    unfold Script_line. by rewrite H1, H2, H3, Hm.
  - unfold new_opcode. simpl op_count. rewrite Hg. simpl. apply js_add_NaN.
Qed.

Lemma two_field_counts_give_NaN_witness :
  let line := "00000:3/0 x 1 nop"%string in
  match_SCRIPT_DATA line = Some ("00000", "3/0", "1", "nop")%string
  ∧ ∃ opcode, Script_line empty_Script line = Val (push_opcode opcode empty_Script)
              ∧ op_count opcode = NaN.
Proof.
  apply (two_field_counts_give_NaN empty_Script "00000" "3" "0" " " " " "1" " " "nop");
    reflexivity.
Defined.

(** ** Reachability *)

Lemma same_code_refl o : same_code o o.
Proof. by repeat split. Qed.

Lemma same_code_trans o1 o2 o3 : same_code o1 o2 → same_code o2 o3 → same_code o1 o3.
Proof. intros (?&?&?&?) (?&?&?&?). repeat split; congruence. Qed.

Lemma grows_refl ops : grows ops ops.
Proof. apply Forall2_same_length_lookup_2; [done|]. intros i x y ? ?. simplify_eq. split; [apply same_code_refl | done]. Qed.

Lemma grows_trans a b c : grows a b → grows b c → grows a c.
Proof.
  unfold grows. intros H1 H2. revert c H2.
  induction H1 as [|x y l l' [Hc Hr] _ IH]; intros c H2; inversion H2 as [|? z ? l'' [Hc' Hr'] H2']; subst; constructor.
  - split; [by eapply same_code_trans | auto].
  - by apply IH.
Qed.

Lemma grows_length a b : grows a b → length b = length a.
Proof. intros H. symmetry. by eapply Forall2_length. Qed.

Lemma grows_lookup a b i o : grows a b → a !! i = Some o →
  ∃ o', b !! i = Some o' ∧ same_code o o' ∧ (op_reachable o = true → op_reachable o' = true).
Proof. intros H Hi. destruct (Forall2_lookup_l _ _ _ _ _ H Hi) as (o' & ? & ?). eauto. Qed.

Lemma grows_lookup_r a b i o' : grows a b → b !! i = Some o' →
  ∃ o, a !! i = Some o ∧ same_code o o' ∧ (op_reachable o = true → op_reachable o' = true).
Proof. intros H Hi. destruct (Forall2_lookup_r _ _ _ _ _ H Hi) as (o & ? & ?). eauto. Qed.

Lemma grows_unmarked a b : grows a b → unmarked b ≤ unmarked a.
Proof.
  induction 1 as [|x y l l' [Hc Hr] _ IH]; simpl; [lia|].
  destruct (op_reachable x); [rewrite Hr by done; lia|]. destruct (op_reachable y); lia.
Qed.

Lemma grows_alter (f : Opcode → Opcode) i ops :
  (∀ o, same_code o (f o) ∧ (op_reachable o = true → op_reachable (f o) = true)) →
  grows ops (alter f i ops).
Proof.
  intros Hf. apply Forall2_same_length_lookup_2; [by rewrite length_alter|].
  intros j x y Hx Hy. destruct (decide (i = j)) as [->|Hne].
  - rewrite list_lookup_alter_eq, Hx in Hy. simpl in Hy. simplify_eq. apply Hf.
  - rewrite list_lookup_alter_ne, Hx in Hy by done. simplify_eq. split; [apply same_code_refl|done].
Qed.

Lemma grows_set_entrypoint i ops : grows ops (alter set_entrypoint i ops).
Proof. apply grows_alter. intros o. by repeat split. Qed.
Lemma grows_set_reachable i ops : grows ops (alter set_reachable i ops).
Proof. apply grows_alter. intros o. by repeat split. Qed.
Lemma grows_set_fallsthrough i ops : grows ops (alter set_fallsthrough i ops).
Proof. apply grows_alter. intros o. by repeat split. Qed.

Lemma unmarked_set_reachable i ops o :
  ops !! i = Some o → op_reachable o = false →
  S (unmarked (alter set_reachable i ops)) = unmarked ops.
Proof.
  revert i. induction ops as [|x ops IH]; intros [|i] Hi Hr; simplify_eq/=.
  - rewrite Hr. done.
  - rewrite <- (IH i) by done. lia.
Qed.

Lemma walked_refl ops i : i ≤ length ops → walked ops i i ops.
Proof. intros. split; [lia|]. split; [apply grows_refl|]. split; [intros; lia | done]. Qed.

Lemma marked_at_alter_ne f ops i t : i ≠ t → marked_at (alter f i ops) t = marked_at ops t.
Proof. intros. unfold marked_at. by rewrite list_lookup_alter_ne. Qed.

Lemma walked_step ops i e ops' o op :
  ops !! i = Some o → op_reachable o = false →
  first_word (op_assembly o) = Some op → linear op = true →
  walked (alter set_fallsthrough i (alter set_reachable i ops)) (S i) e ops' →
  walked ops i e ops'.
Proof.
  intros Hi Hr Hw Hl (Hle & Hg & Hin & Hout).
  rewrite !length_alter in Hle.
  assert (Hi' : ops' !! i = Some (set_fallsthrough (set_reachable o))).
  { rewrite Hout by lia. by rewrite list_lookup_alter_eq, list_lookup_alter_eq, Hi. }
  split; [lia|]. split.
  { eapply grows_trans; [apply grows_set_reachable|].
    eapply grows_trans; [apply grows_set_fallsthrough|]. exact Hg. }
  split.
  - intros t Ht. destruct (decide (t = i)) as [->|Hne].
    + split; [by exists o, op|]. unfold marked_at. by rewrite Hi, Hi'.
    + destruct (Hin t) as ((o' & op' & Ho' & ? & ?) & Hm & Hm'); [lia|].
      rewrite !list_lookup_alter_ne in Ho' by done.
      rewrite !marked_at_alter_ne in Hm by done.
      split; [by exists o', op'|done].
  - intros t Ht. destruct (decide (t = i)) as [->|Hne]; [lia|].
    rewrite Hout by lia. by rewrite !list_lookup_alter_ne.
Qed.

Lemma walk_spec k ops i :
  i ≤ length ops → length ops - i ≤ k →
  match walk k ops i with
  | WalkReturn ops' =>
      ∃ e, walked ops i e ops' ∧ (e = length ops ∨ marked_at ops e = true)
  | WalkThrow ops'' =>
      ∃ e ops' o, walked ops i e ops' ∧ ops !! e = Some o
                  ∧ first_word (op_assembly o) = None
  | WalkBreak ops'' j op o =>
      ∃ ops', walked ops i j ops' ∧ ops !! j = Some o ∧ op_reachable o = false
              ∧ first_word (op_assembly o) = Some op ∧ linear op = false
              ∧ ops'' = alter set_reachable j ops'
  end.
Proof.
  revert ops i. induction k as [|k IH]; intros ops i Hi Hk; simpl.
  { exists i. split; [by apply walked_refl | left; lia]. }
  destruct (ops !! i) as [o|] eqn:Ho.
  2: { apply lookup_ge_None in Ho. exists i. split; [by apply walked_refl | left; lia]. }
  destruct (op_reachable o) eqn:Hr.
  { exists i. split; [by apply walked_refl | right]. unfold marked_at. by rewrite Ho. }
  destruct (first_word (op_assembly o)) as [op|] eqn:Hw.
  2: { exists i, ops, o. split; [by apply walked_refl | done]. }
  destruct (linear op) eqn:Hl; simpl.
  2: { exists ops. split; [by apply walked_refl | done]. }
  apply lookup_lt_Some in Ho as Hlt.
  specialize (IH (alter set_fallsthrough i (alter set_reachable i ops)) (S i)).
  rewrite !length_alter in IH. specialize (IH ltac:(lia) ltac:(lia)).
  destruct (walk k _ (S i)) as [ops'|ops''|ops'' j op' o'].
  - destruct IH as (e & Hwk & He). exists e. split; [by eapply walked_step|].
    destruct He as [He|He]; [by left|right].
    destruct Hwk as (? & _). rewrite !marked_at_alter_ne in He by lia. done.
  - destruct IH as (e & ops' & o' & Hwk & He & Hn). exists e, ops', o'.
    split; [by eapply walked_step|].
    destruct Hwk as (? & _). rewrite !list_lookup_alter_ne in He by lia. done.
  - destruct IH as (ops' & Hwk & Hj & ?). exists ops'.
    split; [by eapply walked_step|].
    destruct Hwk as (? & _). rewrite !list_lookup_alter_ne in Hj by lia. done.
Qed.

(** ** Script-level facts *)

Lemma script_grows_refl s : script_grows s s.
Proof. repeat split. apply grows_refl. Qed.

Lemma script_grows_trans a b c : script_grows a b → script_grows b c → script_grows a c.
Proof.
  intros (?&?&?&?&?&?) (?&?&?&?&?&?). repeat split; try congruence.
  by eapply grows_trans.
Qed.

Lemma script_grows_with_opcodes s ops :
  grows (opcodes s) ops → script_grows s (with_opcodes ops s).
Proof. intros. by repeat split. Qed.

Lemma script_grows_length s s' : script_grows s s' → length (opcodes s') = length (opcodes s).
Proof. intros (_&_&_&_&_&H). by apply grows_length. Qed.

Lemma script_grows_marked s s' t : script_grows s s' → marked s t = true → marked s' t = true.
Proof.
  intros (_&_&_&_&_&H). unfold marked, marked_at. destruct (opcodes s !! t) as [o|] eqn:Ho; [|done].
  destruct (grows_lookup _ _ _ _ H Ho) as (o' & -> & _ & Hr). done.
Qed.

Lemma script_grows_unmarked s s' : script_grows s s' → unmarked (opcodes s') ≤ unmarked (opcodes s).
Proof. intros (_&_&_&_&_&H). by apply grows_unmarked. Qed.

Lemma branchIndex_grows s s' a : script_grows s s' → branchIndex s' a = branchIndex s a.
Proof. intros (Hi&_). unfold branchIndex. by rewrite Hi. Qed.

Lemma switch_target_grows s s' o o' off :
  script_grows s s' → same_code o o' → switch_target s' o' off = switch_target s o off.
Proof. intros (Hi&_) (Hpc&_). unfold switch_target. by rewrite Hi, Hpc. Qed.

Lemma successors_grows s s' i : script_grows s s' → successors_by js_in s' i = successors_by js_in s i.
Proof.
  intros Hg. unfold successors_by. rewrite (script_grows_length _ _ Hg).
  destruct Hg as (Hi&_&_&_&_&Hops).
  destruct (opcodes s !! i) as [o|] eqn:Ho.
  - destruct (grows_lookup _ _ _ _ Hops Ho) as (o' & -> & Hc & _).
    destruct Hc as (Hpc & _ & _ & Has). rewrite <- Has.
    unfold branchIndex, switch_target. rewrite Hi, Hpc. done.
  - destruct (opcodes s' !! i) as [o'|] eqn:Ho'; [|done].
    destruct (grows_lookup_r _ _ _ _ Hops Ho') as (o & ? & _). congruence.
Qed.

Lemma successor_grows s s' i j : script_grows s s' → code_successor s' i j ↔ code_successor s i j.
Proof. intros. unfold code_successor. by rewrite (successors_grows s s'). Qed.

Lemma rtc_successor_grows s s' i j :
  script_grows s s' → rtc (code_successor s') i j → rtc (code_successor s) i j.
Proof.
  intros Hg. induction 1; [constructor|]. econstructor; [|done]. by apply (successor_grows s s').
Qed.

(** *** Categories *)

Lemma mem_app s a b : mem s (a ++ b) = mem s a || mem s b.
Proof. unfold mem. apply existsb_app. Qed.

Lemma linear_category op : linear op = true → category_by js_in op = Linear.
Proof.
  unfold linear, category_by, js_in, nonlinear. rewrite !mem_app.
  destruct (mem op terminators), (mem op switches), (mem op conditionals),
    (mem op unconditionals), (inherited op); simpl; done.
Qed.

Lemma nonlinear_category op : linear op = false → category_by js_in op ≠ Linear.
Proof.
  unfold linear, category_by, js_in, nonlinear. rewrite !mem_app.
  destruct (mem op terminators), (mem op switches), (mem op conditionals),
    (mem op unconditionals), (inherited op); simpl; done.
Qed.

Lemma successors_linear s t :
  linear_at (opcodes s) t →
  successors_by js_in s t = if (S t <? length (opcodes s)) then [S t] else [].
Proof.
  intros (o & op & Ho & Hw & Hl). unfold successors_by.
  by rewrite Ho, Hw, (linear_category _ Hl).
Qed.

Lemma valid_position_grows s s' t :
  script_grows s s' → valid_position s' t = valid_position s t.
Proof. intros Hg. unfold valid_position. by rewrite (script_grows_length _ _ Hg). Qed.

Lemma targets_resolve_at_grows s s' o o' :
  script_grows s s' → same_code o o' →
  targets_resolve_at_by js_in s' o' = targets_resolve_at_by js_in s o.
Proof.
  intros Hg Hc. unfold targets_resolve_at_by.
  destruct Hc as (Hpc & ? & ? & Has). rewrite <- Has.
  rewrite (branchIndex_grows _ _ _ Hg), !(valid_position_grows _ _ _ Hg).
  destruct (first_word (op_assembly o)) as [op|]; [|done].
  destruct (category_by js_in op); try done.
  destruct (switch_offsets (op_assembly o)) as [l|]; [|done].
  induction l as [|off l IH]; [done|]. simpl. rewrite IH.
  rewrite (valid_position_grows _ _ _ Hg).
  by rewrite (switch_target_grows s s' o o') by (done || by repeat split).
Qed.

Lemma wf_code_grows s s' : script_grows s s' → wf_code s → wf_code s'.
Proof.
  intros Hg Hwf i o' Ho'.
  destruct Hg as (Hi&Hn&Hf&Hs&He&Hops).
  destruct (grows_lookup_r _ _ _ _ Hops Ho') as (o & Ho & Hc & _).
  destruct (Hwf i o Ho) as [H1 H2].
  assert (Hg : script_grows s s') by done.
  split.
  - by rewrite (targets_resolve_at_grows s s' o o').
  - unfold has_next_at_by in *. rewrite (script_grows_length _ _ Hg).
    destruct Hc as (_&_&_&Has). by rewrite <- Has.
Qed.

(** The [in] tests agree with the tables on every mnemonic that is not an
    inherited property name. *)
Lemma category_by_own op : inherited op = false → category_by js_in op = category_of op.
Proof. intros H. unfold category_of, category_by, js_in. rewrite H, !orb_false_r. done. Qed.

Lemma well_formed_wf_code s :
  well_formed s = true →
  wf_code s ∧ opcodes s ≠ [] ∧ ∀ i, successors_by js_in s i = successors s i.
Proof.
  unfold well_formed, targets_resolve. rewrite !andb_true_iff, !forallb_forall.
  intros [[[H1 H2] H3] H4].
  assert (Hown : ∀ i o op, opcodes s !! i = Some o →
            first_word (op_assembly o) = Some op → inherited op = false).
  { intros i o op Ho Hw. specialize (H4 o). unfold own_mnemonic in H4.
    rewrite Hw in H4. apply negb_true_iff, H4, list_elem_of_In.
    by eapply list_elem_of_lookup_2. }
  split; [|split].
  - intros i o Ho. split.
    + specialize (H1 o). unfold targets_resolve_at in H1.
      unfold targets_resolve_at_by in *.
      destruct (first_word (op_assembly o)) as [op|] eqn:Hw; [|done].
      rewrite (category_by_own op) by eauto. apply H1.
      apply list_elem_of_In. by eapply list_elem_of_lookup_2.
    + specialize (H3 (i, o)). unfold has_next_at in H3. simpl in H3.
      unfold has_next_at_by in *.
      destruct (first_word (op_assembly o)) as [op|] eqn:Hw.
      * rewrite (category_by_own op) by eauto. apply H3.
        apply list_elem_of_In, list_elem_of_lookup. exists i.
        by rewrite list_lookup_imap, Ho.
      * apply H3. apply list_elem_of_In, list_elem_of_lookup. exists i.
        by rewrite list_lookup_imap, Ho.
  - apply negb_true_iff, bool_decide_eq_false in H2. done.
  - intros i. unfold successors, successors_by.
    destruct (opcodes s !! i) as [o|] eqn:Ho; [|done]. cbv zeta.
    destruct (first_word (op_assembly o)) as [op|] eqn:Hw; [|done].
    rewrite (category_by_own op) by eauto. done.
Qed.

(** ** The marks after a call of [reachable] *)

Lemma succs_marked_grows s s' t :
  script_grows s s' → succs_marked s t → succs_marked s' t.
Proof.
  intros Hg H u Hu. apply (successor_grows s s') in Hu; [|done].
  eapply script_grows_marked; eauto.
Qed.

Lemma visit_post_nil s : visit_post s [] s.
Proof.
  split; [apply script_grows_refl|]. split; [intros u Hu; by apply elem_of_nil in Hu|].
  split; [intros t [? ?]; congruence | intros _ t [? ?]; congruence].
Qed.

Lemma visit_post_cons s u s1 ts s' :
  call_post s (Some u) s1 → visit_post s1 ts s' → visit_post s (u :: ts) s'.
Proof.
  intros (i & [= <-] & Hg1 & Hm1 & Hs1 & Hc1) (Hg2 & Hm2 & Hs2 & Hc2).
  split; [by eapply script_grows_trans|]. split; [|split].
  - intros v [->|Hv]%elem_of_cons; [by eapply script_grows_marked | auto].
  - intros t [Ht' Ht]. destruct (marked s1 t) eqn:Ht1.
    + exists u. split; [left|]. by apply Hs1.
    + destruct (Hs2 t) as (v & Hv & Hr); [done|]. exists v. split; [by right|].
      by eapply rtc_successor_grows.
  - intros H0 t [Ht' Ht]. destruct (marked s1 t) eqn:Ht1.
    + eapply succs_marked_grows; [done|]. apply Hc1; [by left|done].
    + apply Hc2; [by eapply script_grows_marked | done].
Qed.

Lemma marked_with_opcodes ops s t : marked (with_opcodes ops s) t = marked_at ops t.
Proof. done. Qed.

Lemma marked_at_set_entrypoint i ops t :
  marked_at (alter set_entrypoint i ops) t = marked_at ops t.
Proof.
  unfold marked_at. destruct (decide (i = t)) as [->|].
  - rewrite list_lookup_alter_eq. by destruct (ops !! t).
  - by rewrite list_lookup_alter_ne.
Qed.

(** The chain of linear steps through a walked range. *)
Lemma walked_chain s ops0 i e ops' :
  script_grows s (with_opcodes ops0 s) →
  walked ops0 i e ops' →
  ∀ t, i ≤ t → t ≤ e → t < length ops0 → rtc (code_successor s) i t.
Proof.
  intros Hg (Hle & _ & Hin & _) t. induction t as [|t IH]; intros H1 H2 H3.
  { assert (i = 0) as -> by lia. constructor. }
  destruct (decide (i = S t)) as [->|Hne]; [constructor|].
  eapply rtc_r; [apply IH; lia|].
  apply (successor_grows s (with_opcodes ops0 s)); [done|].
  unfold code_successor. destruct (Hin t) as (Hl & _); [lia|].
  rewrite successors_linear by done. simpl.
  destruct (Nat.ltb_spec (S t) (length ops0)); [|lia]. by left.
Qed.

Lemma walked_succs s ops0 i e ops' s' t :
  script_grows s (with_opcodes ops0 s) →
  script_grows (with_opcodes ops0 s) s' →
  walked ops0 i e ops' →
  (∀ u, i ≤ u < e → marked s' u = true) →
  (e < length ops0 → marked s' e = true) →
  i ≤ t < e → succs_marked s' t.
Proof.
  intros Hg Hg' (Hle & _ & Hin & _) Hm He Ht u Hu.
  apply (successor_grows (with_opcodes ops0 s) s') in Hu; [|done].
  unfold code_successor in Hu. destruct (Hin t) as (Hl & _); [lia|].
  rewrite successors_linear in Hu by done. simpl in Hu.
  destruct (Nat.ltb_spec (S t) (length ops0)); [|by apply elem_of_nil in Hu].
  apply list_elem_of_singleton in Hu as ->.
  destruct (decide (S t = e)) as [<-|]; [auto|apply Hm; lia].
Qed.

Lemma walked_outside ops0 i e ops' t :
  walked ops0 i e ops' → marked_at ops' t = true → marked_at ops0 t = false → i ≤ t < e.
Proof.
  intros (_ & _ & _ & Hout) H1 H2. destruct (decide (i ≤ t < e)) as [|Hn]; [done|].
  unfold marked_at in *. rewrite Hout in H1 by done. congruence.
Qed.

(** The loop returned: the call is over. *)
Lemma walk_return_post s i ops' e :
  let ops0 := alter set_entrypoint i (opcodes s) in
  i < length (opcodes s) →
  walked ops0 i e ops' →
  e = length ops0 ∨ marked_at ops0 e = true →
  call_post s (Some i) (with_opcodes ops' s).
Proof.
  intros ops0 Hi Hw He.
  assert (Hg0 : script_grows s (with_opcodes ops0 s)).
  { apply script_grows_with_opcodes, grows_set_entrypoint. }
  assert (Hg1 : script_grows (with_opcodes ops0 s) (with_opcodes ops' s)).
  { destruct Hw as (_ & Hg & _). by repeat split. }
  assert (Hlen : length ops0 = length (opcodes s)) by (unfold ops0; by rewrite length_alter).
  assert (Hin : ∀ u, i ≤ u < e → marked (with_opcodes ops' s) u = true).
  { intros u Hu. destruct Hw as (_ & _ & Hin & _). by apply Hin. }
  assert (Hnew : ∀ t, new s (with_opcodes ops' s) t → i ≤ t < e).
  { intros t [H1 H2]. eapply walked_outside; [done|done|].
    unfold ops0. by rewrite marked_at_set_entrypoint. }
  assert (Hend : e < length ops0 → marked (with_opcodes ops' s) e = true).
  { intros Hlt. destruct He as [->|He]; [lia|].
    by apply (script_grows_marked (with_opcodes ops0 s)). }
  exists i. split; [done|]. split; [by eapply script_grows_trans|]. split; [|split].
  - destruct (decide (i < e)); [apply Hin; lia|].
    destruct Hw as ([? ?] & _). assert (e = i) as -> by lia. apply Hend. lia.
  - intros t Ht. apply Hnew in Ht. destruct Hw as ([? ?] & ?).
    eapply walked_chain; [done|done|lia..].
  - intros _ t Ht. apply Hnew in Ht. by eapply walked_succs.
Qed.

(** The loop broke at the non-linear opcode of position [j]. *)
Lemma walk_break_facts s i ops' j o :
  let ops0 := alter set_entrypoint i (opcodes s) in
  let s1 := with_opcodes (alter set_reachable j ops') s in
  i < length (opcodes s) →
  walked ops0 i j ops' →
  ops0 !! j = Some o → op_reachable o = false →
  script_grows s s1
  ∧ S (unmarked (opcodes s1)) ≤ unmarked (opcodes s)
  ∧ marked s1 i = true ∧ marked s1 j = true
  ∧ (∃ o', opcodes s !! j = Some o' ∧ same_code o' o)
  ∧ rtc (code_successor s) i j
  ∧ (∀ t, new s s1 t → rtc (code_successor s) i t)
  ∧ (∀ t s', script_grows s1 s' → new s s1 t → t ≠ j → succs_marked s' t).
Proof.
  intros ops0 s1 Hi Hw Hj Hr.
  assert (Hg0 : script_grows s (with_opcodes ops0 s)).
  { apply script_grows_with_opcodes, grows_set_entrypoint. }
  assert (Hgw : grows ops0 ops') by (by destruct Hw as (_ & ? & _)).
  assert (Hg1 : script_grows (with_opcodes ops0 s) s1).
  { repeat split. simpl. eapply grows_trans; [done|apply grows_set_reachable]. }
  assert (Hlen : length ops0 = length (opcodes s)) by (unfold ops0; by rewrite length_alter).
  assert (Hj' : ops' !! j = Some o).
  { destruct Hw as (_ & _ & _ & Hout). rewrite Hout by lia. done. }
  assert (Hjlt : j < length ops0) by (by eapply lookup_lt_Some).
  assert (Hij : i ≤ j) by (destruct Hw as ([? ?] & _); lia).
  assert (Hmj : marked s1 j = true).
  { unfold s1, marked, marked_at. simpl. by rewrite list_lookup_alter_eq, Hj'. }
  assert (Hin : ∀ u, i ≤ u < j → marked s1 u = true).
  { intros u Hu. destruct Hw as (_ & _ & Hin & _). destruct (Hin u Hu) as (_ & _ & Hm).
    unfold s1, marked. simpl. by rewrite marked_at_alter_ne by lia. }
  assert (Hnew : ∀ t, new s s1 t → i ≤ t ≤ j).
  { intros t [H1 H2]. destruct (decide (t = j)) as [->|Hne]; [lia|].
    unfold s1, marked in H1. simpl in H1. rewrite marked_at_alter_ne in H1 by done.
    pose proof (walked_outside _ _ _ _ _ Hw H1) as H3.
    unfold ops0 in H3. rewrite marked_at_set_entrypoint in H3. specialize (H3 H2). lia. }
  split; [by eapply script_grows_trans|]. split; [|split; [|split; [done|split; [|split; [|split]]]]].
  - unfold s1. simpl.
    pose proof (unmarked_set_reachable j ops' o Hj' Hr) as H1.
    pose proof (grows_unmarked _ _ Hgw) as H2.
    pose proof (grows_unmarked _ _ (grows_set_entrypoint i (opcodes s))) as H3.
    fold ops0 in H3. lia.
  - destruct (decide (i = j)) as [->|]; [done|apply Hin; lia].
  - destruct Hg0 as (_&_&_&_&_&Hg0). simpl in Hg0.
    destruct (grows_lookup_r _ _ _ _ Hg0 Hj) as (o' & ? & ? & _). eauto.
  - eapply walked_chain; [done|done|lia..].
  - intros t Ht. apply Hnew in Ht. eapply walked_chain; [done|done|lia..].
  - intros t s' Hg' Ht Hne. apply Hnew in Ht.
    eapply (walked_succs s ops0 i j ops'); [done| |done| | |lia].
    + by eapply script_grows_trans.
    + intros u Hu. eapply script_grows_marked; [done|]. by apply Hin.
    + intros _. by eapply script_grows_marked.
Qed.

Lemma break_finish s i s1 j ts s' :
  script_grows s s1 →
  marked s1 i = true →
  rtc (code_successor s) i j →
  (∀ t, new s s1 t → rtc (code_successor s) i t) →
  (∀ t s', script_grows s1 s' → new s s1 t → t ≠ j → succs_marked s' t) →
  visit_post s1 ts s' →
  (∀ u, u ∈ ts → code_successor s j u) →
  (∀ u, code_successor s j u → u ∈ ts ∨ u = 0) →
  call_post s (Some i) s'.
Proof.
  intros Hg1 Hmi Hij Hs1 Hc1 (Hg2 & Hm2 & Hs2 & Hc2) Hts Hsucc.
  assert (Hg : script_grows s s') by (by eapply script_grows_trans).
  exists i. split; [done|]. split; [done|]. split; [|split].
  - by apply (script_grows_marked s1).
  - intros t [Ht' Ht]. destruct (marked s1 t) eqn:Ht1; [by apply Hs1|].
    destruct (Hs2 t) as (u & Hu & Hr); [done|].
    etrans; [exact Hij|]. eapply rtc_l; [by apply Hts|].
    by apply (rtc_successor_grows s s1).
  - intros Hroot.
    assert (H0 : marked s1 0 = true).
    { destruct Hroot as [H | ->]; [by apply (script_grows_marked s) | done]. }
    intros t [Ht' Ht]. destruct (marked s1 t) eqn:Ht1.
    + destruct (decide (t = j)) as [->|Hne]; [|by apply (Hc1 t s')].
      intros u Hu. apply (successor_grows s s') in Hu; [|done].
      destruct (Hsucc u Hu) as [Hin | ->]; [by apply Hm2|].
      by apply (script_grows_marked s1).
    + by apply Hc2.
Qed.

Lemma call_post_visit1 s idx s' :
  call_post s idx s' → ∃ u, idx = Some u ∧ visit_post s [u] s'.
Proof.
  intros (u & -> & H). exists u. split; [done|].
  eapply visit_post_cons; [by exists u | apply visit_post_nil].
Qed.

Lemma marked_lt s u : marked s u = true → u < length (opcodes s).
Proof.
  unfold marked, marked_at. destruct (opcodes s !! u) eqn:H; [|done].
  intros _. by eapply lookup_lt_Some.
Qed.

Lemma omap_Forall2 {A B} (f : A → option B) ds ts :
  Forall2 (λ d u, f d = Some u) ds ts → omap f ds = ts.
Proof.
  induction 1 as [|d u ds ts H _ IH]; [done|].
  change (omap f (d :: ds)) with (match f d with Some y => y :: omap f ds | None => omap f ds end).
  by rewrite H, IH.
Qed.

Lemma switch_cases_post rec n pc s cases :
  rec_ok rec n → unmarked (opcodes s) < n →
  match switch_cases rec pc s cases with
  | Ok s' =>
      ∃ ds ts, case_offsets cases = Some ds
               ∧ Forall2 (λ d u, pcToOpcodeIndex s !! dec (pc + d) = Some u) ds ts
               ∧ visit_post s ts s'
  | TypeError _ =>
      wf_code s → ∀ ds, case_offsets cases = Some ds →
      Forall (λ d, valid_position s (pcToOpcodeIndex s !! dec (pc + d)) = true) ds →
      False
  | OutOfFuel => False
  end.
Proof.
  intros Hrec. revert s. induction cases as [|c cases IH]; intros s Hn; simpl.
  { exists [], []. split; [done|]. split; [constructor | apply visit_post_nil]. }
  destruct (find_case_offset c) as [d|] eqn:Hd; [|by intros _ ds ?].
  pose proof (Hrec s (pcToOpcodeIndex s !! dec (pc + parse_digits d)) Hn) as H1.
  destruct (rec s _) as [s1| |]; [| |done].
  - destruct H1 as (u & Hu & H1). assert (H1' : call_post s (Some u) s1) by (by exists u).
    destruct H1 as (Hg & _).
    pose proof (script_grows_unmarked _ _ Hg) as Hun.
    specialize (IH s1 ltac:(lia)).
    assert (Hidx : pcToOpcodeIndex s1 = pcToOpcodeIndex s) by (by destruct Hg).
    destruct (switch_cases rec pc s1 cases) as [s'| |]; [| |done].
    + destruct IH as (ds & ts & Hds & Hts & Hv). exists (parse_digits d :: ds), (u :: ts).
      rewrite Hds. split; [done|]. split.
      * constructor; [done|]. by rewrite Hidx in Hts.
      * by eapply visit_post_cons.
    + intros Hwf ds'. destruct (case_offsets cases) as [ds|]; [|done].
      intros [= <-] Hall. apply Forall_cons in Hall as [_ Hall].
      eapply IH; [by eapply wf_code_grows | done |].
      eapply Forall_impl; [done|]. intros x Hx. simpl in Hx.
      by rewrite Hidx, (valid_position_grows s s1).
  - intros Hwf ds'. destruct (case_offsets cases) as [ds|]; [|done].
    intros [= <-] Hall. apply Forall_cons in Hall as [Hv _]. by apply H1.
Qed.

Lemma nonlinear_tables op :
  linear op = false →
  js_in op terminators = false → js_in op unconditionals = false →
  js_in op conditionals = false → js_in op switches = false → False.
Proof.
  unfold linear, js_in, nonlinear. rewrite !mem_app.
  destruct (mem op terminators), (mem op switches), (mem op conditionals),
    (mem op unconditionals), (inherited op); simpl; done.
Qed.

Lemma reachable_S fuel script opcodeIndex :
  reachable (S fuel) script opcodeIndex =
    match opcodeIndex with
    | None => TypeError script
    | Some i =>
        match opcodes script !! i with
        | None => TypeError script
        | Some _ =>
            let ops0 := alter set_entrypoint i (opcodes script) in
            match walk (length ops0 - i) ops0 i with
            | WalkReturn ops => Ok (with_opcodes ops script)
            | WalkThrow ops => TypeError (with_opcodes ops script)
            | WalkBreak ops j op opcode =>
                let script1 := with_opcodes ops script in
                if js_in op terminators then Ok script1
                else if js_in op unconditionals then
                  reachable fuel script1 (branchIndex script1 (op_assembly opcode))
                else if js_in op conditionals then
                  match reachable fuel script1 (Some (S j)) with
                  | Ok script2 =>
                      match branchIndex script2 (op_assembly opcode) with
                      | Some (S b) => reachable fuel script2 (Some (S b))
                      | _ => Ok script2
                      end
                  | r => r
                  end
                else if js_in op switches then
                  match split TAB (op_assembly opcode) with
                  | [] => TypeError script1
                  | c0 :: cases =>
                      match find_ffset c0 with
                      | None => TypeError script1
                      | Some d =>
                          let absolute := (op_pc opcode + parse_digits d)%N in
                          match reachable fuel script1
                                  (pcToOpcodeIndex script1 !! dec absolute) with
                          | Ok script2 =>
                              switch_cases (reachable fuel) (op_pc opcode) script2 cases
                          | r => r
                          end
                      end
                  end
                else Ok script1
            end
        end
    end.
Proof. reflexivity. Qed.

Lemma successors_at s j o' o op :
  opcodes s !! j = Some o' → same_code o' o →
  first_word (op_assembly o) = Some op →
  successors_by js_in s j =
    match category_by js_in op with
    | Terminator => []
    | Unconditional => option_list (branchIndex s (op_assembly o))
    | Conditional =>
        (if S j <? length (opcodes s) then [S j] else [])
          ++ option_list (branchIndex s (op_assembly o))
    | Switch =>
        match switch_offsets (op_assembly o) with
        | Some offs => omap (switch_target s o) offs
        | None => []
        end
    | Linear => if S j <? length (opcodes s) then [S j] else []
    end.
Proof.
  intros Ho (Hpc & _ & _ & Has) Hw. unfold successors_by.
  rewrite Ho, Has, Hw. unfold switch_target. by rewrite Hpc.
Qed.

Lemma wf_code_at s j o' o op :
  wf_code s → opcodes s !! j = Some o' → same_code o' o →
  first_word (op_assembly o) = Some op →
  match category_by js_in op with
  | Unconditional => valid_position s (branchIndex s (op_assembly o)) = true
  | Conditional =>
      S j < length (opcodes s)
      ∧ (is_Some (branchIndex s (op_assembly o)) →
         valid_position s (branchIndex s (op_assembly o)) = true)
  | Switch =>
      ∃ offs, switch_offsets (op_assembly o) = Some offs
              ∧ Forall (λ off, valid_position s (switch_target s o off) = true) offs
  | _ => True
  end.
Proof.
  intros Hwf Ho (Hpc & _ & _ & Has) Hw. destruct (Hwf j o' Ho) as [H1 H2].
  unfold targets_resolve_at_by in H1. unfold has_next_at_by in H2.
  rewrite Has, Hw in H1, H2. destruct (category_by js_in op); try done.
  - split; [by apply Nat.ltb_lt|]. intros [u Hu]. unfold branchIndex in *.
    destruct (branch_target (op_assembly o)); [done|discriminate].
  - destruct (switch_offsets (op_assembly o)) as [offs|]; [|done]. exists offs. split; [done|].
    apply Forall_forall. intros off Hin. rewrite forallb_forall in H1.
    unfold switch_target in *. rewrite <- Hpc. apply H1. by apply list_elem_of_In.
Qed.

Lemma reachable_ok fuel : rec_ok (reachable fuel) fuel.
Proof.
  induction fuel as [|fuel IH]; intros s idx Hn; [lia|].
  rewrite reachable_S.
  destruct idx as [i|]; [|by intros _ ?].
  destruct (opcodes s !! i) as [oi|] eqn:Hoi.
  2: { intros _ Hv. simpl in Hv. apply Nat.ltb_lt in Hv. apply lookup_ge_None in Hoi. lia. }
  apply lookup_lt_Some in Hoi as Hi.
  cbv zeta.
  pose proof (walk_spec (length (alter set_entrypoint i (opcodes s)) - i)
                (alter set_entrypoint i (opcodes s)) i) as Hwalk.
  rewrite length_alter in Hwalk. specialize (Hwalk ltac:(lia) ltac:(lia)).
  rewrite length_alter.
  destruct (walk _ _ i) as [ops'|ops''|ops'' j op o].
  - destruct Hwalk as (e & Hw & He). eapply walk_return_post; [done|done|].
    by rewrite length_alter.
  - destruct Hwalk as (e & ops' & o & Hw & He & Hnone). intros Hwf _.
    destruct (grows_lookup_r _ _ _ _ (grows_set_entrypoint i (opcodes s)) He)
      as (o' & Ho' & (_ & _ & _ & Has) & _).
    destruct (Hwf e o' Ho') as [_ H2]. unfold has_next_at_by in H2.
    by rewrite Has, Hnone in H2.
  - destruct Hwalk as (ops' & Hw & Hj & Hr & Hword & Hlin & ->).
    destruct (walk_break_facts s i ops' j o Hi Hw Hj Hr)
      as (Hg1 & Hun & Hmi & Hmj & (o' & Ho' & Hc) & Hij & Hs1 & Hc1).
    set (s1 := with_opcodes (alter set_reachable j ops') s) in *.
    assert (Hn1 : unmarked (opcodes s1) < fuel) by lia.
    pose proof (successors_at s j o' o op Ho' Hc Hword) as Hsucc.
    pose proof (λ Hwf, wf_code_at s j o' o op Hwf Ho' Hc Hword) as Hwfj.
    unfold category_by in Hsucc, Hwfj.
    destruct (js_in op terminators) eqn:Ht.
    { eapply break_finish; [done..|apply visit_post_nil| |].
      - intros u Hu. by apply elem_of_nil in Hu.
      - intros u Hu. unfold code_successor in Hu. rewrite Hsucc in Hu. by apply elem_of_nil in Hu. }
    destruct (js_in op unconditionals) eqn:Hu.
    { pose proof (IH s1 (branchIndex s1 (op_assembly o)) Hn1) as H1.
      rewrite (branchIndex_grows s s1) in * by done.
      destruct (reachable fuel s1 _) as [s'| |]; [| |done].
      - destruct (call_post_visit1 _ _ _ H1) as (u & Hu' & Hv).
        rewrite Hu' in Hsucc. simpl in Hsucc.
        eapply break_finish; [done..| |]; intros v Hv'; unfold code_successor in *;
          rewrite Hsucc in *; [done | by left].
      - intros Hwf _. apply H1; [by eapply wf_code_grows|].
        rewrite (valid_position_grows s s1) by done. by apply Hwfj. }
    destruct (js_in op conditionals) eqn:Hcd.
    { pose proof (IH s1 (Some (S j)) Hn1) as H1.
      destruct (reachable fuel s1 (Some (S j))) as [s2| |]; [| |done].
      2: { intros Hwf _. apply H1; [by eapply wf_code_grows|].
           rewrite (valid_position_grows s s1) by done.
           unfold valid_position. apply Nat.ltb_lt. by apply Hwfj. }
      destruct (call_post_visit1 _ _ _ H1) as (u & [= <-] & Hv).
      pose proof Hv as (Hg2 & Hm2 & _).
      assert (Hnext : S j < length (opcodes s)).
      { rewrite <- (script_grows_length s s1), <- (script_grows_length s1 s2) by done.
        apply marked_lt, Hm2. by left. }
      destruct (Nat.ltb_spec (S j) (length (opcodes s))); [|lia].
      rewrite (branchIndex_grows s1 s2), (branchIndex_grows s s1) by done.
      destruct (branchIndex s (op_assembly o)) as [[|b]|] eqn:Hb; simpl in Hsucc.
      - eapply break_finish; [done..| |]; intros v Hv'; unfold code_successor in *;
          rewrite Hsucc in *.
        + apply list_elem_of_singleton in Hv' as ->. by left.
        + apply elem_of_cons in Hv' as [->|Hv']; [left; by left|].
          apply list_elem_of_singleton in Hv' as ->. by right.
      - pose proof (script_grows_unmarked _ _ Hg2) as Hun2.
        pose proof (IH s2 (Some (S b)) ltac:(lia)) as H2.
        destruct (reachable fuel s2 (Some (S b))) as [s'| |]; [| |done].
        + assert (Hv2 : visit_post s1 [S j; S b] s').
          { destruct H1 as (? & [= <-] & H1). eapply visit_post_cons; [by eexists|].
            destruct (call_post_visit1 _ _ _ H2) as (? & [= <-] & ?). done. }
          eapply break_finish; [done..| |]; intros v Hv'; unfold code_successor in *;
            rewrite Hsucc in *; [done | by left].
        + intros Hwf _. apply H2.
          * eapply wf_code_grows; [|done]. by eapply script_grows_trans.
          * rewrite (valid_position_grows s1 s2), (valid_position_grows s s1) by done.
            by apply Hwfj.
      - eapply break_finish; [done..| |]; intros v Hv'; unfold code_successor in *;
          rewrite Hsucc in *; [done | by left]. }
    destruct (js_in op switches) eqn:Hsw.
    2: { exfalso. by eapply nonlinear_tables. }
    unfold switch_offsets in Hsucc, Hwfj.
    destruct (split TAB (op_assembly o)) as [|c0 cases].
    { intros Hwf _. by destruct (Hwfj Hwf) as (? & ? & _). }
    destruct (find_ffset c0) as [d|] eqn:Hd.
    2: { intros Hwf _. by destruct (Hwfj Hwf) as (? & ? & _). }
    cbv zeta.
    pose proof (IH s1 (pcToOpcodeIndex s1 !! dec (op_pc o + parse_digits d)) Hn1) as H1.
    assert (Hidx1 : pcToOpcodeIndex s1 = pcToOpcodeIndex s) by (by destruct Hg1).
    destruct (reachable fuel s1 _) as [s2| |]; [| |done].
    2: { intros Hwf _. destruct (Hwfj Hwf) as (offs & Hoffs & Hall).
         destruct (case_offsets cases); [|done]. simplify_eq.
         apply Forall_cons in Hall as [Hv _]. apply H1; [by eapply wf_code_grows|].
         rewrite (valid_position_grows s s1), Hidx1 by done. done. }
    destruct H1 as (u0 & Hu0 & H1).
    assert (H1' : call_post s1 (Some u0) s2) by (by exists u0).
    pose proof H1 as (Hg2 & _).
    assert (Hidx2 : pcToOpcodeIndex s2 = pcToOpcodeIndex s1) by (by destruct Hg2).
    pose proof (script_grows_unmarked _ _ Hg2) as Hun2.
    pose proof (switch_cases_post (reachable fuel) fuel (op_pc o) s2 cases IH ltac:(lia)) as H2.
    destruct (switch_cases (reachable fuel) (op_pc o) s2 cases) as [s'| |]; [| |done].
    + destruct H2 as (ds & ts & Hds & Hts & Hv). rewrite Hds in Hsucc.
      assert (Hom : omap (switch_target s o) (parse_digits d :: ds) = u0 :: ts).
      { apply omap_Forall2. constructor.
        - unfold switch_target. by rewrite <- Hidx1.
        - eapply Forall2_impl; [done|]. intros x y Hxy. simpl in Hxy.
          unfold switch_target. by rewrite <- Hidx1, <- Hidx2. }
      rewrite Hom in Hsucc.
      assert (Hv2 : visit_post s1 (u0 :: ts) s') by (by eapply visit_post_cons).
      eapply break_finish; [done..| |]; intros v Hv'; unfold code_successor in *;
        rewrite Hsucc in *; [done | by left].
    + intros Hwf _. destruct (Hwfj Hwf) as (offs & Hoffs & Hall).
      destruct (case_offsets cases) as [ds|] eqn:Hds; [|done]. simplify_eq.
      apply Forall_cons in Hall as [_ Hall].
      eapply H2; [|done|].
      * eapply wf_code_grows; [|done]. by eapply script_grows_trans.
      * eapply Forall_impl; [done|]. intros x Hx. simpl in Hx.
        rewrite (valid_position_grows s1 s2), (valid_position_grows s s1) by done.
        unfold switch_target in Hx. by rewrite Hidx2, Hidx1.
Qed.

(** ** Termination and correctness of [checkReachability] *)

Lemma unmarked_le_length ops : unmarked ops ≤ length ops.
Proof. induction ops as [|o ops IH]; simpl; [lia|]. destruct (op_reachable o); lia. Qed.

Lemma reachable_fuel fuel s idx :
  unmarked (opcodes s) < fuel → reachable fuel s idx ≠ OutOfFuel.
Proof.
  intros Hn H. pose proof (reachable_ok fuel s idx Hn) as Hok. by rewrite H in Hok.
Qed.

Lemma switch_cases_more (rec rec' : Script → option nat → result Script) pc s cases r :
  (∀ s idx r, rec s idx = r → r ≠ OutOfFuel → rec' s idx = r) →
  switch_cases rec pc s cases = r → r ≠ OutOfFuel →
  switch_cases rec' pc s cases = r.
Proof.
  intros Hrec. revert s. induction cases as [|c cases IH]; intros s; simpl; [done|].
  destruct (find_case_offset c) as [d|]; [|done].
  destruct (rec s _) as [s1| |] eqn:H1; intros <- Hr.
  - rewrite (Hrec _ _ _ H1) by done. by apply IH.
  - by rewrite (Hrec _ _ _ H1).
  - done.
Qed.

Lemma reachable_more_fuel fuel fuel' s idx r :
  reachable fuel s idx = r → r ≠ OutOfFuel → fuel ≤ fuel' →
  reachable fuel' s idx = r.
Proof.
  revert fuel' s idx r. induction fuel as [|fuel IH]; intros fuel' s idx r.
  { simpl. by intros <-. }
  intros H Hr Hle. destruct fuel' as [|fuel']; [lia|].
  assert (Hrec : ∀ s idx r, reachable fuel s idx = r → r ≠ OutOfFuel →
                            reachable fuel' s idx = r).
  { intros. eapply IH; [done..|lia]. }
  rewrite reachable_S in *. destruct idx as [i|]; [|done].
  destruct (opcodes s !! i) as [oi|]; [|done]. cbv zeta in *.
  destruct (walk _ _ i) as [ops'|ops''|ops'' j op o]; [done..|].
  destruct (js_in op terminators); [done|].
  destruct (js_in op unconditionals); [by apply Hrec|].
  destruct (js_in op conditionals).
  { destruct (reachable fuel _ (Some (S j))) as [s2| |] eqn:H1.
    - rewrite (Hrec _ _ _ H1) by done.
      destruct (branchIndex s2 _) as [[|b]|]; [done| |done]. by apply Hrec.
    - by rewrite (Hrec _ _ _ H1).
    - by subst. }
  destruct (js_in op switches); [|done].
  destruct (split TAB (op_assembly o)) as [|c0 cases]; [done|].
  destruct (find_ffset c0) as [d|]; [|done].
  destruct (reachable fuel _ (_ !! _)) as [s2| |] eqn:H1.
  - rewrite (Hrec _ _ _ H1) by done. by eapply switch_cases_more.
  - by rewrite (Hrec _ _ _ H1).
  - by subst.
Qed.

(** C9.  [checkReachability] terminates on every Script, cyclic or not,
    whether or not its targets resolve: each call that gets past the guard
    marks an opcode that was not marked, so the depth of the recursion never
    exceeds the number of opcodes.  The run ends by a return or by a
    TypeError, and any larger bound on the depth gives the same outcome. *)
Theorem checkReachability_terminates (script : Script) :
  ∃ r, r ≠ OutOfFuel
       ∧ checkReachability script = r
       ∧ ∀ fuel, length (opcodes script) < fuel →
                 reachable fuel script (Some 0) = r.
Proof.
  exists (checkReachability script).
  assert (H : checkReachability script ≠ OutOfFuel).
  { apply reachable_fuel. pose proof (unmarked_le_length (opcodes script)). lia. }
  split; [done|]. split; [done|]. intros fuel Hf.
  eapply reachable_more_fuel; [reflexivity|done|lia].
Qed.

Lemma unmarked_script_marked s j : unmarked_script s = true → marked s j = false.
Proof.
  unfold unmarked_script, marked, marked_at. rewrite forallb_forall. intros H.
  destruct (opcodes s !! j) as [o|] eqn:Ho; [|done].
  apply negb_true_iff, H, list_elem_of_In. by eapply list_elem_of_lookup_2.
Qed.

Lemma rtc_code_successor s i j :
  (∀ t, successors_by js_in s t = successors s t) →
  rtc (code_successor s) i j ↔ rtc (successor s) i j.
Proof.
  intros H. split; (induction 1; [constructor|]); (econstructor; [|done]).
  - unfold successor. rewrite <- H. done.
  - unfold code_successor. rewrite H. done.
Qed.

(** C1, amended.  On a Script as the constructor leaves it, whose targets
    resolve, that has an opcode, whose every assembly holds a mnemonic that
    is not the name of a property inherited from [Object.prototype], and in
    which no conditional branch is the last opcode, [checkReachability]
    returns, changes nothing but flags, and marks a position reachable
    exactly when the position is reachable from position 0 under the
    successor rules of the categories. *)
Theorem checkReachability_marks_reachable (script : Script) :
  well_formed script = true →
  unmarked_script script = true →
  ∃ script',
    checkReachability script = Ok script'
    ∧ Forall2 same_code (opcodes script) (opcodes script')
    ∧ ∀ j, marked script' j = true ↔ Reach script j.
Proof.
  intros Hwf Hfresh. apply well_formed_wf_code in Hwf as (Hwf & Hne & Hsame).
  pose proof (unmarked_le_length (opcodes script)) as Hle.
  pose proof (reachable_ok (S (length (opcodes script))) script (Some 0) ltac:(lia)) as H.
  unfold checkReachability.
  destruct (reachable _ script (Some 0)) as [s'| |]; [| |done].
  2: { exfalso. apply H; [done|]. simpl. apply Nat.ltb_lt.
       destruct (opcodes script); [done|simpl; lia]. }
  destruct H as (i & [= <-] & Hg & H0 & Hsound & Hclosed).
  exists s'. split; [done|]. split.
  { destruct Hg as (_&_&_&_&_&Hg). eapply Forall2_impl; [exact Hg|]. by intros ?? [? _]. }
  intros j. unfold Reach. rewrite <- (rtc_code_successor script 0 j Hsame). split.
  - intros Hj. apply Hsound. split; [done|]. by apply unmarked_script_marked.
  - intros Hr. apply rtc_nsteps in Hr as [n Hr]. revert j Hr.
    induction n as [|n IH]; intros j Hr.
    + by inversion Hr; subst.
    + apply nsteps_inv_r in Hr as (t & Ht & Hstep).
      apply (Hclosed (or_intror eq_refl) t).
      * split; [by apply IH|]. by apply unmarked_script_marked.
      * by apply (successor_grows script s').
Qed.

Lemma checkReachability_marks_reachable_witness :
  well_formed loop_script = true
  ∧ unmarked_script loop_script = true
  ∧ ∃ script',
      checkReachability loop_script = Ok script'
      ∧ Forall2 same_code (opcodes loop_script) (opcodes script')
      ∧ ∀ j, marked script' j = true ↔ Reach loop_script j.
Proof.
  split; [by vm_compute|]. split; [by vm_compute|].
  apply (checkReachability_marks_reachable loop_script); by vm_compute.
Defined.

(** The claim of C1 fails on [cond_last_script]: every decoded target
    resolves and position 1 is reachable from position 0 (by the [goto] and
    then the target of the [ifeq]), but the [ifeq] is the last opcode, so the
    call on the position after it throws before the target is visited, and
    position 1 is left unmarked. *)
Lemma conditional_last_not_marked :
  targets_resolve cond_last_script = true
  ∧ unmarked_script cond_last_script = true
  ∧ Reach cond_last_script 1
  ∧ ∃ e, checkReachability cond_last_script = TypeError e ∧ marked e 1 = false.
Proof.
  split; [by vm_compute|]. split; [by vm_compute|]. split.
  - unfold Reach. apply (rtc_l _ 0%nat 2%nat); [|apply rtc_once].
    + unfold successor. vm_compute. apply list_elem_of_singleton. reflexivity.
    + unfold successor. vm_compute. apply list_elem_of_singleton. reflexivity.
  - eexists. split; [vm_compute; reflexivity|]. reflexivity.
Qed.

(** A mnemonic that names a property inherited from [Object.prototype] is
    in no table, so the rules make it linear; the [in] tests of [reachable]
    find it in every table, the first of which is that of the terminators.
    On [inherited_script] the analysis returns and leaves the [stop] after
    the [constructor] unmarked. *)
Lemma inherited_mnemonic_ends_walk :
  targets_resolve inherited_script = true
  ∧ unmarked_script inherited_script = true
  ∧ category_of "constructor" = Linear
  ∧ Reach inherited_script 1
  ∧ ∃ s, checkReachability inherited_script = Ok s ∧ marked s 1 = false.
Proof.
  split; [by vm_compute|]. split; [by vm_compute|]. split; [by vm_compute|]. split.
  - unfold Reach. apply rtc_once.
    unfold successor. vm_compute. apply list_elem_of_singleton. reflexivity.
  - eexists. split; [vm_compute; reflexivity|]. reflexivity.
Qed.

(** ** The successors of a switch *)







(** The switch of [switch_script] has the positions of the addresses 110
    and 120 as successors, and no other. *)
Lemma switch_script_successors :
  successors switch_script 0 = [2; 3]
  ∧ map op_pc (opcodes switch_script) = [100; 105; 110; 120]%N.
Proof. split; reflexivity. Qed.

(** ** The Parser: a Script seen again *)

Lemma split_no_LF s : Forall (λ l, no_LF l = true) (split LF s).
Proof.
  induction s as [|c s IH]; simpl; [by repeat constructor|].
  destruct (Ascii.eqb c LF) eqn:Hc.
  - constructor; [done|done].
  - destruct (split LF s) as [|x xs].
    + constructor; [|constructor]. unfold no_LF. simpl. by rewrite Hc.
    + inversion IH; subst. constructor; [|done]. unfold no_LF in *. simpl. by rewrite Hc.
Qed.

Lemma no_LF_app a b : no_LF (a ++ b)%string = no_LF a && no_LF b.
Proof. apply all_chars_app. Qed.

Lemma dot_no_LF s : all_chars is_dot s = true → no_LF s = true.
Proof.
  apply all_chars_impl. intros c Hc. apply negb_true_iff.
  destruct (Ascii.eqb_spec c LF); [by subst|done].
Qed.

Lemma digit_no_LF s : all_chars is_digit s = true → no_LF s = true.
Proof.
  apply all_chars_impl. intros c Hc. apply negb_true_iff.
  destruct (Ascii.eqb_spec c LF); [by subst|done].
Qed.

Lemma string_of_uint_digits d : all_chars is_digit (NilEmpty.string_of_uint d) = true.
Proof. induction d; simpl; by rewrite ?IHd. Qed.

Lemma dec_no_LF n : no_LF (dec n) = true.
Proof. apply digit_no_LF, string_of_uint_digits. Qed.

Lemma match_SCRIPT_START_dot l file d :
  match_SCRIPT_START l = Some (file, d) → all_chars is_dot file = true.
Proof.
  unfold match_SCRIPT_START. destruct (strip_prefix _ l) as [r|]; [|done].
  destruct (strip_suffix _ r) as [mid|]; [|done].
  destruct (rsplit _ mid) as [[f d']|]; [|done].
  destruct (all_chars is_dot f) eqn:Hf; simpl; [|done].
  destruct (nonempty d' && all_chars is_digit d'); [|done]. by intros [= <- <-].
Qed.

Lemma match_SCRIPT_DATA_dot l pc g ln asm :
  match_SCRIPT_DATA l = Some (pc, g, ln, asm) → all_chars is_dot asm = true.
Proof.
  unfold match_SCRIPT_DATA. destruct (span is_digit l) as [pc' r1].
  destruct (negb (nonempty pc')); [done|].
  destruct (strip_prefix _ r1) as [r2|]; [|done].
  destruct (span _ r2) as [g' r3].
  destruct (negb _); [done|].
  destruct (span is_space r3) as [w1 r4]. destruct (negb (nonempty w1)); [done|].
  destruct (strip_prefix _ r4) as [r5|]; [|done].
  destruct (span is_space r5) as [w2 r6]. destruct (negb (nonempty w2)); [done|].
  destruct (span is_digit r6) as [ln' r7]. destruct (negb (nonempty ln')); [done|].
  destruct (span is_space r7) as [w3 r8]. destruct (negb (nonempty w3)); [done|].
  destruct (all_chars is_dot r8) eqn:H; [|done]. by intros [= <- <- <- <-].
Qed.

Lemma new_opcode_no_LF pc g ln asm :
  all_chars is_dot asm = true → no_LF (op_assembly (new_opcode pc g ln asm)) = true.
Proof.
  intros H. unfold new_opcode. simpl op_assembly.
  destruct (starts_with "lambda " asm).
  - by destruct (starts_with "deflocalfun " "lambda").
  - destruct (starts_with "deflocalfun " asm); [done|]. by apply dot_no_LF.
Qed.

Lemma Script_line_clean s l s' :
  clean s → no_LF l = true → Script_line s l = Val s' → clean s'.
Proof.
  intros [Hn Ho] Hl. unfold Script_line.
  destruct (match_SCRIPT_START l) as [[file d]|] eqn:Hs.
  { intros [= <-]. split; [|done]. simpl.
    rewrite !no_LF_app, dec_no_LF, (dot_no_LF file); [done|].
    by eapply match_SCRIPT_START_dot. }
  destruct (test_SCRIPT_END l); [by intros [= <-]|].
  destruct (String.eqb l "main:"); [by intros [= <-]|].
  destruct (match_SCRIPT_DATA l) as [[[[pc g] ln] asm]|] eqn:Hd.
  { intros [= <-]. split; [done|]. simpl. apply Forall_app. split; [done|].
    repeat constructor. apply new_opcode_no_LF. by eapply match_SCRIPT_DATA_dot. }
  destruct l as [|c r]; [by intros [= <-]|].
  destruct (Ascii.eqb c TAB); [|by intros [= <-]].
  destruct (last (opcodes s)) as [o|] eqn:Hlast; [|done].
  intros [= <-]. split; [done|]. simpl.
  apply Forall_insert; [done|]. simpl. rewrite no_LF_app, Hl, andb_true_r.
  rewrite Forall_forall in Ho. apply Ho. apply last_Some in Hlast as [l' ->].
  apply elem_of_app. right. by left.
Qed.

Lemma Script_lines_clean s ls s' :
  clean s → Forall (λ l, no_LF l = true) ls → Script_lines s ls = Val s' → clean s'.
Proof.
  intros Hs Hls. revert s Hs. induction Hls as [|l ls Hl _ IH]; intros s Hs; simpl.
  { by intros [= <-]. }
  destruct (Script_line s l) as [s1|] eqn:H1; [|done].
  apply IH. by eapply Script_line_clean.
Qed.

Lemma Script_new_clean ls s :
  Forall (λ l, no_LF l = true) ls → Script_new ls = Val s → clean s.
Proof. apply Script_lines_clean. split; [done|constructor]. Qed.

(** *** The signature determines the opcodes *)

Lemma append_cons c a b : (String c a ++ b)%string = String c (a ++ b)%string.
Proof. reflexivity. Qed.

Lemma no_LF_LF r : no_LF (String LF r) = false.
Proof. reflexivity. Qed.

Lemma no_LF_cons c r : no_LF (String c r) = negb (Ascii.eqb c LF) && no_LF r.
Proof. reflexivity. Qed.

Lemma LF_cut a b r1 r2 :
  no_LF a = true → no_LF b = true →
  (a ++ String LF r1)%string = (b ++ String LF r2)%string → a = b ∧ r1 = r2.
Proof.
  revert b. induction a as [|c a IH]; intros [|d b] Ha Hb; rewrite ?append_cons.
  - intros [= ->]. done.
  - intros [= <- _]. by rewrite no_LF_LF in Hb.
  - intros [= -> _]. by rewrite no_LF_LF in Ha.
  - intros [= <- H]. rewrite no_LF_cons in Ha, Hb.
    apply andb_true_iff in Ha as [_ Ha]. apply andb_true_iff in Hb as [_ Hb].
    destruct (IH b Ha Hb H) as [-> ->]. done.
Qed.

Lemma no_LF_cut b r : no_LF (b ++ String LF r)%string = false.
Proof. by rewrite no_LF_app, no_LF_LF, andb_false_r. Qed.

Lemma join_cons x y l :
  join (String LF EmptyString) (x :: y :: l) =
    (x ++ String LF (join (String LF EmptyString) (y :: l)))%string.
Proof. reflexivity. Qed.

Lemma join_LF_inj l1 l2 :
  Forall (λ x, no_LF x = true ∧ x ≠ EmptyString) l1 →
  Forall (λ x, no_LF x = true ∧ x ≠ EmptyString) l2 →
  join (String LF EmptyString) l1 = join (String LF EmptyString) l2 → l1 = l2.
Proof.
  intros H1. revert l2. induction H1 as [|x l1 [Hx Hx0] H1 IH]; intros l2 H2.
  - destruct H2 as [|y l2 [Hy Hy0] H2]; [done|]. destruct l2 as [|z l2].
    + simpl. intros <-. done.
    + rewrite join_cons. simpl. destruct y; [done|]. by rewrite append_cons.
  - destruct H2 as [|y l2 [Hy Hy0] H2].
    + destruct l1 as [|z l1]; simpl.
      * by intros ->.
      * destruct x; [done|]. by rewrite append_cons.
    + destruct l1 as [|x' l1], l2 as [|y' l2].
      * simpl. by intros ->.
      * rewrite join_cons. simpl. intros ->. by rewrite no_LF_cut in Hx.
      * rewrite join_cons. simpl. intros <-. by rewrite no_LF_cut in Hy.
      * rewrite !join_cons. intros H. apply LF_cut in H as [-> H]; [|done..].
        f_equal. by apply IH.
Qed.

Lemma opcode_toString_clean o :
  no_LF (op_assembly o) = true →
  no_LF (opcode_toString o) = true ∧ opcode_toString o ≠ EmptyString.
Proof.
  intros H. unfold opcode_toString. split.
  - rewrite !no_LF_app, !dec_no_LF, H. done.
  - destruct (dec (op_pc o)); [done|]. by rewrite append_cons.
Qed.

Lemma toString_cut s :
  toString s =
    ((str id (name s) ++ ":" ++ str (λ e, dec (N.of_nat e)) (entrypoint s))
       ++ String LF (join (String LF EmptyString) (map opcode_toString (opcodes s))))%string.
Proof. unfold toString. rewrite !append_assoc. reflexivity. Qed.

Lemma toString_opcodes s1 s2 :
  clean s1 → clean s2 → toString s1 = toString s2 →
  map opcode_toString (opcodes s1) = map opcode_toString (opcodes s2).
Proof.
  intros [Hn1 Ho1] [Hn2 Ho2]. rewrite !toString_cut. intros H.
  assert (He : ∀ e : option nat, no_LF (str (λ e, dec (N.of_nat e)) e) = true).
  { intros [e|]; [apply dec_no_LF|done]. }
  apply LF_cut in H as [_ H].
  - apply join_LF_inj in H; [done| |].
    + apply Forall_map. eapply Forall_impl; [exact Ho1|]. apply opcode_toString_clean.
    + apply Forall_map. eapply Forall_impl; [exact Ho2|]. apply opcode_toString_clean.
  - by rewrite !no_LF_app, Hn1, He.
  - by rewrite !no_LF_app, Hn2, He.
Qed.


Lemma merge_counts_toString this that :
  map opcode_toString (merge_counts this that) = map opcode_toString (take (length that) this).
Proof.
  revert that. induction this as [|o this IH]; intros [|o' that]; simpl; try done.
  by rewrite IH.
Qed.

(** *** The parser keeps its invariant *)

Lemma grows_opcode_toString a b :
  grows a b → map opcode_toString b = map opcode_toString a.
Proof.
  induction 1 as [|x y l l' [(Hpc & _ & Hs & Ha) _] _ IH]; simpl; [done|].
  rewrite IH. unfold opcode_toString. by rewrite Hpc, Hs, Ha.
Qed.

Lemma script_grows_toString s s' : script_grows s s' → toString s' = toString s.
Proof.
  intros (_ & Hn & _ & _ & He & Hg). unfold toString.
  by rewrite Hn, He, (grows_opcode_toString _ _ Hg).
Qed.

Lemma script_grows_clean s s' : script_grows s s' → clean s → clean s'.
Proof.
  intros (_ & Hn & _ & _ & _ & Hg) [H1 H2]. split; [by rewrite Hn|].
  apply Forall_forall. intros o' Ho'. apply list_elem_of_lookup in Ho' as [i Hi].
  destruct (grows_lookup_r _ _ _ _ Hg Hi) as (o & Ho & (_ & _ & _ & Ha) & _).
  rewrite <- Ha. rewrite Forall_forall in H2. apply H2. by eapply list_elem_of_lookup_2.
Qed.

Lemma checkReachability_grows s s' : checkReachability s = Ok s' → script_grows s s'.
Proof.
  unfold checkReachability. intros H.
  pose proof (unmarked_le_length (opcodes s)) as Hle.
  pose proof (reachable_ok (S (length (opcodes s))) s (Some 0) ltac:(lia)) as Hok.
  rewrite H in Hok. by destruct Hok as (? & _ & ? & _).
Qed.

Lemma addCounts_loop_code this that r :
  addCounts_loop this that = Val r →
  Forall2 (λ o o', op_pc o' = op_pc o ∧ op_srcline o' = op_srcline o
                   ∧ op_assembly o' = op_assembly o) this r.
Proof.
  revert that r. induction this as [|o this IH]; intros that r; simpl.
  { intros [= <-]. constructor. }
  destruct that as [|o' that]; [done|].
  destruct (addCounts_loop this that) as [r'|] eqn:H; [|done].
  intros [= <-]. constructor; [done|]. by eapply IH.
Qed.

Lemma same_text_toString (l r : list Opcode) :
  Forall2 (λ o o', op_pc o' = op_pc o ∧ op_srcline o' = op_srcline o
                   ∧ op_assembly o' = op_assembly o) l r →
  map opcode_toString r = map opcode_toString l
  ∧ (Forall (λ o, no_LF (op_assembly o) = true) l →
     Forall (λ o, no_LF (op_assembly o) = true) r).
Proof.
  induction 1 as [|o o' l r (Hpc & Hs & Ha) _ [IH1 IH2]]; [done|]. split.
  - simpl. rewrite IH1. unfold opcode_toString. by rewrite Hpc, Hs, Ha.
  - intros H2. inversion H2; subst. constructor; [by rewrite Ha | by apply IH2].
Qed.

Lemma addCounts_toString this that merged :
  addCounts this that = Val merged →
  toString merged = toString this ∧ (clean this → clean merged).
Proof.
  unfold addCounts. destruct (addCounts_loop _ _) as [r|] eqn:H; [|done].
  intros [= <-]. apply addCounts_loop_code, same_text_toString in H as [H1 H2]. split.
  - unfold toString. simpl. by rewrite H1.
  - intros [Hn Ho]. split; [done|]. by apply H2.
Qed.

Lemma new_Parser_inv : parser_inv new_Parser.
Proof.
  split; [|split; [|split]]; [| |constructor..].
  - intros sig idx H. simpl in H. by rewrite lookup_empty in H.
  - intros idx s H. simpl in H. by rewrite lookup_nil in H.
Qed.

Lemma processLine_inv p l p' :
  parser_inv p → no_LF l = true → processLine p l = Ok p' → parser_inv p'.
Proof.
  intros (Hmap & Hreg & Hclean & Hlines) Hl. unfold processLine.
  assert (Hlines' : Forall (λ l, no_LF l = true) (scriptlines p ++ [l])).
  { apply Forall_app. split; [done|by repeat constructor]. }
  destruct (inscript p).
  2: { destruct (match_SCRIPT_START l); intros [= <-]; [|done].
       split; [done|]. split; [done|]. split; [done|]. by repeat constructor. }
  destruct (test_SCRIPT_END l); [|by intros [= <-]].
  destruct (negb (is_dummy _)).
  2: { intros [= <-]. split; [done|]. split; [done|]. split; [done|constructor]. }
  destruct (Script_new _) as [script|] eqn:Hnew; [|done].
  apply Script_new_clean in Hnew as Hcs; [|done].
  destruct (scriptMap p !! toString script) as [idx|] eqn:Hsig.
  - destruct (scripts p !! idx) as [existing|] eqn:Hidx; [|done].
    destruct (addCounts existing script) as [merged|] eqn:Hadd; [|done].
    intros [= <-]. apply addCounts_toString in Hadd as [Hts Hcl].
    split; [|split; [|split]]; simpl; [| | |constructor].
    + intros sig i Hi. destruct (Hmap sig i Hi) as (s & Hs & Hsg).
      destruct (decide (i = idx)) as [->|Hne].
      * exists merged. rewrite list_lookup_insert_eq by (by eapply lookup_lt_Some).
        split; [done|]. congruence.
      * exists s. by rewrite list_lookup_insert_ne.
    + intros i s. destruct (decide (i = idx)) as [->|Hne].
      * rewrite list_lookup_insert_eq by (by eapply lookup_lt_Some).
        intros [= <-]. rewrite Hts. by apply Hreg.
      * rewrite list_lookup_insert_ne by done. apply Hreg.
    + apply Forall_insert; [done|]. apply Hcl. rewrite Forall_forall in Hclean.
      apply Hclean. by eapply list_elem_of_lookup_2.
  - destruct (checkReachability script) as [script'| |] eqn:Hcr; [|done..].
    intros [= <-]. apply checkReachability_grows in Hcr.
    split; [|split; [|split]]; simpl; [| | |constructor].
    + intros sig i. destruct (decide (sig = toString script)) as [->|Hne].
      * rewrite lookup_insert_eq. intros [= <-]. exists script'.
        rewrite lookup_app_r, Nat.sub_diag by done. split; [done|].
        by apply script_grows_toString.
      * rewrite lookup_insert_ne by done. intros Hi.
        destruct (Hmap sig i Hi) as (s & Hs & Hsg). exists s. split; [|done].
        by apply lookup_app_l_Some.
    + intros i s Hi. apply lookup_app_Some in Hi as [Hi|[Hge Hi]].
      * rewrite lookup_insert_ne; [by apply Hreg|].
        intros Heq. apply Hreg in Hi. congruence.
      * apply list_lookup_singleton_Some in Hi as [Hi <-].
        rewrite (script_grows_toString _ _ Hcr), lookup_insert_eq. f_equal. lia.
    + apply Forall_app. split; [done|]. constructor; [|constructor].
      by eapply script_grows_clean.
Qed.

Lemma processLines_inv p ls p' :
  parser_inv p → Forall (λ l, no_LF l = true) ls →
  processLines p ls = Ok p' → parser_inv p'.
Proof.
  intros Hp Hls. revert p Hp. induction Hls as [|l ls Hl _ IH]; intros p Hp; simpl.
  { by intros [= <-]. }
  destruct (processLine p l) as [p1| |] eqn:H1; [|done..].
  apply IH. by eapply processLine_inv.
Qed.


Lemma signature_toString a b : signature a = signature b → toString a = toString b.
Proof.
  unfold signature, toString. intros [= Hn He Ho]. rewrite Hn, He. f_equal.
  f_equal. revert Ho. generalize (opcodes b).
  induction (opcodes a) as [|x l IH]; intros [|y l']; simpl; try done.
  intros [= Hpc Hs Ha Hl]. rewrite (IH l' Hl). unfold opcode_toString.
  by rewrite Hpc, Hs, Ha.
Qed.







(** The two dumps of [twice_trace] leave one Script, with the counts 5, 5
    and the marks of the first analysis. *)
Lemma twice_trace_merged :
  ∃ p, processLines new_Parser (split LF twice_trace) = Ok p
       ∧ map (λ s, map op_count (opcodes s)) (scripts p) = [[Int 5; Int 5]]
       ∧ map (λ s, map op_reachable (opcodes s)) (scripts p) = [[true; true]].
Proof. eexists. split; [by vm_compute|]. split; by vm_compute. Qed.

(** ** The engine *)

Lemma reconcile_lines_missing filename i newline rest old evs :
  array_get old i = None →
  reconcile_lines filename i (Some newline :: rest) (old, evs) =
    TypeError (array_set i newline old, evs ++ [onLineUpdate filename (S i) newline]).
Proof. intros H. simpl. by rewrite H. Qed.

(** C4.  The stored file has the lines 1 and 3; the new dump changes the
    counts of both and brings a line 2.  The second [parseData] overwrites
    line 1 and sends [onLineUpdate] with the index 0, adopts the new line 2
    and sends [onLineUpdate] with the line number 2, and then throws on
    [oldline.coverage]: line 3 keeps its old count, the tallies are not
    recomputed (they still tell two covered lines, where three lines are
    now stored as covered) and [onScriptUpdate] is not sent. *)
Theorem new_line_in_known_file_throws :
  ∃ c1 c2 : Coverage,
    parseData new_Coverage known_file_trace = Ok c1
    ∧ fd_lines <$> filenames c1 !! "a.js" =
        Some [Some (line_data_of cov_full 3 true false); None;
              Some (line_data_of cov_full 3 false true)]
    ∧ parseData c1 new_line_trace = TypeError c2
    ∧ triggered c2 =
        triggered c1
          ++ [onLineUpdate "a.js" 0 (line_data_of cov_full 4 true false);
              onLineUpdate "a.js" 2 (line_data_of cov_full 1 true true)]
    ∧ fd_lines <$> filenames c2 !! "a.js" =
        Some [Some (line_data_of cov_full 4 true false);
              Some (line_data_of cov_full 1 true true);
              Some (line_data_of cov_full 3 false true)]
    ∧ tally_of <$> filenames c2 !! "a.js" = Some (2, 0, 0, 0).
Proof.
  eexists. eexists. split; [by vm_compute|]. split; [by vm_compute|].
  split; [by vm_compute|]. split; [by vm_compute|]. split; by vm_compute.
Qed.

(** ** Parsing the same text again *)

(** *** Counts without NaN *)

Lemma is_number_self_equal x : is_number x = true → self_equal x = true.
Proof. destruct x; try done. intros _. unfold self_equal. simpl. apply Z.eqb_refl. Qed.

Lemma Math_min_number a b : is_number a = true → is_number b = true → is_number (Math_min a b) = true.
Proof. by destruct a, b. Qed.
Lemma Math_max_number a b : is_number a = true → is_number b = true → is_number (Math_max a b) = true.
Proof. by destruct a, b. Qed.

Lemma counted_number o : counted o = true → is_number (op_count o) = true.
Proof. unfold counted. by destruct (op_count o). Qed.

Lemma counts_step_number st o :
  counted o = true →
  is_number (cs_min st) = true → is_number (cs_max st) = true →
  Forall (λ x, is_number x = true) (rawcounts st) →
  is_number (cs_min (counts_step st o)) = true
  ∧ is_number (cs_max (counts_step st o)) = true
  ∧ Forall (λ x, is_number x = true) (rawcounts (counts_step st o)).
Proof.
  intros Ho%counted_number H1 H2 H3. unfold counts_step.
  destruct (op_reachable o); [destruct (skip_count _ _)|]; simpl.
  - done.
  - split; [by apply Math_min_number|]. split; [by apply Math_max_number|].
    apply Forall_app. split; [done|by repeat constructor].
  - split; [done|]. split; [done|]. apply Forall_app. split; [done|by repeat constructor].
Qed.

Lemma counts_fold_number ops st :
  Forall (λ o, counted o = true) ops →
  is_number (cs_min st) = true → is_number (cs_max st) = true →
  Forall (λ x, is_number x = true) (rawcounts st) →
  let st' := fold_left counts_step ops st in
  is_number (cs_min st') = true ∧ is_number (cs_max st') = true
  ∧ Forall (λ x, is_number x = true) (rawcounts st').
Proof.
  intros H. revert st. induction H as [|o ops Ho _ IH]; intros st H1 H2 H3; simpl; [done|].
  destruct (counts_step_number st o Ho H1 H2 H3) as (?&?&?). by apply IH.
Qed.

Lemma sort_insert_number x l :
  is_number x = true → Forall (λ x, is_number x = true) l →
  Forall (λ x, is_number x = true) (sort_insert x l).
Proof.
  intros Hx. induction 1 as [|y l Hy Hl IH]; simpl.
  { constructor; [done|constructor]. }
  destruct (goes_after y x).
  - constructor; [done|]. by constructor.
  - by constructor.
Qed.

Lemma sort_counts_number l :
  Forall (λ x, is_number x = true) l → Forall (λ x, is_number x = true) (sort_counts l).
Proof.
  unfold sort_counts. intros Hl.
  assert (H : ∀ acc, Forall (λ x, is_number x = true) acc →
                     Forall (λ x, is_number x = true)
                       (fold_left (λ acc x, sort_insert x acc) l acc)).
  { induction Hl as [|x l Hx _ IH]; intros acc Hacc; simpl; [done|].
    apply IH. by apply sort_insert_number. }
  apply H. constructor.
Qed.

Lemma dedup_self_equal l :
  Forall (λ x, is_number x = true) l → Forall (λ x, self_equal x = true) (dedup l).
Proof.
  destruct 1 as [|x l Hx Hl]; simpl; [by repeat constructor|].
  constructor; [by apply is_number_self_equal|].
  revert x Hx. induction Hl as [|y l Hy Hl IH]; intros x Hx; simpl; [constructor|].
  destruct (strict_eq y x); [by apply IH|].
  constructor; [by apply is_number_self_equal|by apply IH].
Qed.

Lemma Line_counts_self_equal line c :
  Forall (λ ko, counted (snd ko) = true) (line_opcodes line) →
  Line_counts line = Some c → Forall (λ x, self_equal x = true) c.
Proof.
  intros H. unfold Line_counts.
  destruct (counts_fold_number (map snd (line_opcodes line)) counts_init)
    as (H1 & H2 & H3); [by apply Forall_map|done..|constructor|].
  destruct (strict_eq _ _ && _).
  { intros [= <-]. repeat constructor. by apply is_number_self_equal. }
  destruct (single_dead _).
  - destruct (line_opcodes line) as [|[k first] ?]; [done|].
    destruct (String.eqb _ _); [|done]. intros [= <-]. constructor.
  - intros [= <-]. by apply dedup_self_equal, sort_counts_number.
Qed.

Lemma equalArrays_refl c : Forall (λ x, self_equal x = true) c → equalArrays c c = true.
Proof. induction 1 as [|x c Hx _ IH]; simpl; [done|]. unfold self_equal in Hx. by rewrite Hx, IH. Qed.

Lemma cov_eqb_refl c : cov_eqb c c = true.
Proof. by destruct c. Qed.

(** *** Arrays *)

Lemma array_get_nil {A} i : array_get (@nil (option A)) i = None.
Proof. by destruct i. Qed.

Lemma array_get_cons {A} (y : option A) a i :
  array_get (y :: a) (S i) = array_get a i.
Proof. done. Qed.

Lemma array_get_set {A} (a : array A) i j (x : A) :
  array_get (array_set j x a) i = if decide (i = j) then Some x else array_get a i.
Proof.
  revert a i. induction j as [|j IH]; intros [|y a] [|i]; simpl;
    rewrite ?array_get_cons, ?IH, ?array_get_nil;
    repeat case_decide; try done; try lia.
Qed.

Lemma tally_add_comm c1 c2 t : tally_add c1 (tally_add c2 t) = tally_add c2 (tally_add c1 t).
Proof. destruct t as [[[a b] c] d]. by destruct c1, c2. Qed.

Lemma recount_tally_add a c t : recount a (tally_add c t) = tally_add c (recount a t).
Proof.
  revert t. induction a as [|[l|] a IH]; intros t; simpl; [done| |done].
  by rewrite tally_add_comm, IH.
Qed.

Lemma recount_array_set a i l t :
  array_get a i = None →
  recount (array_set i l a) t = tally_add (coverage l) (recount a t).
Proof.
  revert a t. induction i as [|i IH]; intros [|y a] t H; simpl.
  - done.
  - unfold array_get in H. simpl in H. destruct y; [done|]. by rewrite recount_tally_add.
  - by rewrite (IH [] t).
  - unfold array_get in *. simpl in H. destruct y; by rewrite IH.
Qed.

Lemma Forall_array_set {A} (P : option A → Prop) i x (a : array A) :
  P None → P (Some x) → Forall P a → Forall P (array_set i x a).
Proof.
  intros Hn Hx. revert a. induction i as [|i IH]; intros a Ha.
  - destruct Ha; simpl; by constructor.
  - destruct Ha; simpl; constructor; try done; apply IH; [constructor | done].
Qed.

(** *** The snapshot of a file reconciles with itself *)

Lemma reconcile_lines_same filename pre rest evs :
  Forall entry_ok rest →
  reconcile_lines filename (length pre) rest (pre ++ rest, evs) = Ok (pre ++ rest, evs).
Proof.
  intros H. revert pre. induction H as [|ol rest Hol _ IH]; intros pre; simpl; [done|].
  specialize (IH (pre ++ [ol])). rewrite length_app, Nat.add_1_r, <- app_assoc in IH.
  simpl in IH. destruct ol as [l|]; [|done].
  unfold array_get. rewrite lookup_app_r, Nat.sub_diag by done. simpl.
  simpl in Hol. by rewrite cov_eqb_refl, Hol.
Qed.

Lemma line_data_coverage line l :
  line_data line = Val l → Line_coverage line = Val (coverage l).
Proof.
  unfold line_data, Line_coverage. destruct (Line_counts line); [|done]. by intros [= <-].
Qed.

Lemma line_data_entry_ok n line l :
  line_ok n line → line_data line = Val l → entry_ok (Some l).
Proof.
  intros [_ Hc]. unfold line_data. destruct (Line_counts line) as [c|] eqn:H; [|done].
  intros [= <-]. simpl. by apply equalArrays_refl, (Line_counts_self_equal line).
Qed.

Lemma array_store_in_range n l (a : array LineData) :
  line_in_range n = true →
  array_store (Z.of_N n - 1) l a = array_set (N.to_nat n - 1) l a.
Proof.
  unfold line_in_range, array_store. intros [H1 H2]%andb_true_iff.
  apply N.leb_le in H1. apply N.ltb_lt in H2.
  assert (H3 : (0 <=? Z.of_N n - 1)%Z = true) by (apply Z.leb_le; lia).
  assert (H4 : (Z.of_N n - 1 <? 2 ^ 32 - 1)%Z = true).
  { apply Z.ltb_lt. change (2 ^ 32)%Z with (Z.of_N (2 ^ 32)). lia. }
  rewrite H3, H4. simpl. f_equal. lia.
Qed.

Lemma fill_lines_settled ls a a' t t' :
  NoDup (map fst ls) →
  Forall (λ nl, line_ok (fst nl) (snd nl)) ls →
  (∀ n, n ∈ map fst ls → array_get a (N.to_nat n - 1) = None) →
  Forall entry_ok a →
  fill_lines ls a = Val a' →
  File_coverage_loop ls t = Val t' →
  Forall entry_ok a'
  ∧ ∀ t0, recount a t0 = t → recount a' t0 = t'.
Proof.
  intros Hnd Hok. revert a t Hnd.
  induction Hok as [|[n line] ls Hl Hls IH]; intros a t Hnd Hfresh Ha; simpl.
  { intros [= <-] [= <-]. done. }
  destruct (line_data line) as [l|] eqn:Hld; [|done].
  rewrite (line_data_coverage _ _ Hld).
  simpl in Hl. pose proof Hl as [Hr _]. rewrite array_store_in_range by done.
  inversion Hnd as [|? ? Hnotin Hnd']; subst.
  intros Hfill Hcov.
  destruct (IH (array_set (N.to_nat n - 1) l a) (tally_add (coverage l) t) Hnd')
    as [H1 H2]; [| |done|done|].
  - intros m Hm. rewrite array_get_set.
    destruct (decide (N.to_nat m - 1 = N.to_nat n - 1)) as [Heq|Hne].
    + exfalso. apply Hnotin.
      assert (Hmr : line_in_range m = true).
      { apply list_elem_of_fmap in Hm as [[m' line'] [-> Hin]].
        rewrite Forall_forall in Hls. by destruct (Hls _ Hin). }
      unfold line_in_range in *.
      apply andb_true_iff in Hr as [Hr _]. apply andb_true_iff in Hmr as [Hmr _].
      apply N.leb_le in Hr, Hmr. assert (m = n) as <- by lia. done.
    + apply Hfresh. by right.
  - apply Forall_array_set; [done| |done]. by eapply line_data_entry_ok.
  - split; [done|]. intros t0 <-. apply H2.
    apply recount_array_set. apply Hfresh. by left.
Qed.

Lemma make_filedata_settled filename file fd :
  file_ok file → make_filedata filename file = Val fd →
  fd_filename fd = filename ∧ settled fd.
Proof.
  intros [Hnd Hok]. unfold make_filedata, File_coverage.
  destruct (File_coverage_loop _ _) as [[[[c0 c1] c2] c3]|] eqn:Hcov; [|done].
  destruct (fill_lines _ _) as [a|] eqn:Hfill; [|done].
  intros [= <-]. split; [done|].
  destruct (fill_lines_settled _ _ _ _ _ Hnd Hok (λ n _, array_get_nil _)
              (Forall_nil_2 _) Hfill Hcov) as [H1 H2].
  split; simpl.
  - intros evs. apply (reconcile_lines_same filename [] a evs H1).
  - by apply H2.
Qed.

(** *** The files built from the Scripts *)

Lemma alter_line_keys g n ls k :
  k ∈ map fst (alter_line g n ls) → k = n ∨ k ∈ map fst ls.
Proof.
  induction ls as [|[m l] ls IH]; simpl.
  - intros ->%list_elem_of_singleton. by left.
  - destruct (m =? n)%N; simpl.
    + intros H. by right.
    + intros [->|H]%elem_of_cons; [right; by left|].
      destruct (IH H) as [->|?]; [by left|right; by right].
Qed.

Lemma alter_line_ok g n ls :
  line_in_range n = true →
  (∀ l, opcodes_ok l → opcodes_ok (g l)) →
  NoDup (map fst ls) → Forall (λ nl, line_ok (fst nl) (snd nl)) ls →
  NoDup (map fst (alter_line g n ls))
  ∧ Forall (λ nl, line_ok (fst nl) (snd nl)) (alter_line g n ls).
Proof.
  intros Hn Hg. induction ls as [|[m l] ls IH]; simpl; intros Hnd Hok.
  - split; [apply NoDup_singleton|]. constructor; [|constructor].
    split; [done|]. apply Hg. constructor.
  - inversion Hnd as [|? ? Hnotin Hnd']; subst. inversion Hok as [|? ? [Hr Hl] Hok']; subst.
    destruct (N.eqb_spec m n) as [->|Hne]; simpl.
    + split; [done|]. constructor; [|done]. split; [done|by apply Hg].
    + destruct (IH Hnd' Hok') as [H1 H2]. split.
      * constructor; [|done]. intros Hin. apply alter_line_keys in Hin as [->|?]; done.
      * constructor; [by split|done].
Qed.

Lemma File_line_ok n g f :
  line_in_range n = true → (∀ l, opcodes_ok l → opcodes_ok (g l)) →
  file_ok f → file_ok (File_line n g f).
Proof. intros Hn Hg [H1 H2]. by apply alter_line_ok. Qed.

Lemma addOpcode_ok key o l : counted o = true → opcodes_ok l → opcodes_ok (addOpcode key o l).
Proof.
  intros Ho Hl. unfold addOpcode. destruct (has_key _ _); [done|].
  unfold opcodes_ok. simpl. apply Forall_app. split; [done|by repeat constructor].
Qed.

Lemma assoc_Forall {A} (P : A → Prop) k (l : list (string * A)) v :
  Forall (λ kv, P (snd kv)) l → assoc k l = Some v → P v.
Proof.
  induction 1 as [|[k' v'] l Hv _ IH]; simpl; [done|].
  destruct (String.eqb k k'); [by intros [= <-]|done].
Qed.

Lemma assoc_set_Forall {A} (P : A → Prop) k v (l : list (string * A)) :
  P v → Forall (λ kv, P (snd kv)) l → Forall (λ kv, P (snd kv)) (assoc_set k v l).
Proof.
  intros Hv. induction 1 as [|[k' v'] l Hv' Hl IH]; simpl; [by repeat constructor|].
  destruct (String.eqb k k'); by constructor.
Qed.

Lemma add_script_ok files script files' :
  Forall (λ kv, file_ok (snd kv)) files →
  Forall opcode_ok (opcodes script) →
  add_script files script = Val files' →
  Forall (λ kv, file_ok (snd kv)) files'.
Proof.
  intros Hfiles Hops. unfold add_script.
  set (fname := str id (filename script)).
  set (files1 := if negb (has_key fname files || inherited fname)
                 then files ++ [(fname, new_File fname)] else files).
  assert (H1 : Forall (λ kv, file_ok (snd kv)) files1).
  { unfold files1. destruct (negb _); [|done]. apply Forall_app. split; [done|].
    constructor; [|constructor]. split; simpl; constructor. }
  destruct (assoc fname files1) as [file|] eqn:Hfile; [|done].
  pose proof (assoc_Forall file_ok _ _ _ H1 Hfile) as Hf.
  destruct (head (opcodes script)) as [first|] eqn:Hfirst; [|done].
  destruct (last (opcodes script)) as [final|] eqn:Hfinal; [|done].
  intros [= <-]. apply assoc_set_Forall; [|done].
  rewrite Forall_forall in Hops.
  apply File_line_ok; [| done |].
  { apply Hops. apply last_Some in Hfinal as [l' ->]. apply elem_of_app. right. by left. }
  apply File_line_ok; [| done |].
  { apply Hops. destruct (opcodes script); simplify_eq/=. by left. }
  assert (Hall : Forall opcode_ok (opcodes script)) by (by apply Forall_forall).
  clear -Hall Hf. revert file Hf.
  induction Hall as [|o ops [Ho Hr] _ IH]; intros file Hf; simpl; [done|].
  apply IH. apply File_line_ok; [done| |done]. intros l. by apply addOpcode_ok.
Qed.

Lemma add_scripts_ok files l files' :
  Forall (λ kv, file_ok (snd kv)) files →
  Forall (λ s, Forall opcode_ok (opcodes s)) l →
  add_scripts files l = Val files' →
  Forall (λ kv, file_ok (snd kv)) files'.
Proof.
  intros Hfiles Hl. revert files Hfiles.
  induction Hl as [|s l Hs _ IH]; intros files Hfiles; simpl; [by intros [= <-]|].
  destruct (add_script files s) as [files1|] eqn:H1; [|done].
  apply IH. by eapply add_script_ok.
Qed.

(** *** The second parse *)

Lemma tally_eqb_refl t : tally_eqb t t = true.
Proof. destruct t as [[[a b] c] d]. simpl. by rewrite !Nat.eqb_refl. Qed.

Lemma process_file_stored files self name file fd :
  assoc name files = Some file → make_filedata name file = Val fd →
  file_ok file → filenames self !! name = Some fd →
  process_file files self name = Ok self.
Proof.
  intros Hfile Hfd Hok Hst. unfold process_file. rewrite Hfile, Hfd, Hst.
  rewrite bool_decide_true by eauto. simpl.
  destruct (make_filedata_settled _ _ _ Hok Hfd) as [Hname [Hrec Hcount]].
  unfold update_file. rewrite <- Hname at 1. rewrite Hrec.
  assert (Hfd' : with_lines (fd_lines fd) fd = fd) by (by destruct fd).
  rewrite Hfd'. rewrite Hcount, tally_eqb_refl. simpl.
  f_equal. unfold add_events, set_file. simpl. rewrite insert_id by done. by destruct self.
Qed.

(** ** More on the trace grammar *)

Lemma strip_prefix_Some p s r : strip_prefix p s = Some r ↔ s = (p ++ r)%string.
Proof.
  revert s. induction p as [|c p IH]; intros s; simpl.
  - split; [by intros [= ->]|by intros ->].
  - destruct s as [|d s].
    + split; [done|]. rewrite append_cons. done.
    + rewrite append_cons. destruct (Ascii.eqb_spec c d) as [->|Hne].
      * rewrite IH. split; [by intros ->|by intros [= ->]].
      * split; [done|]. intros [= -> _]. done.
Qed.

Lemma append_nil_l (s : string) : ("" ++ s)%string = s.
Proof. reflexivity. Qed.

Lemma substring_0_app m suf : substring 0 (String.length m) (m ++ suf)%string = m.
Proof.
  induction m as [|c m IH]; [rewrite append_nil_l; by destruct suf|].
  rewrite append_cons. simpl. by rewrite IH.
Qed.

Lemma substring_all s : substring 0 (String.length s) s = s.
Proof. induction s as [|d s IH]; simpl; [done|]. by rewrite IH. Qed.

Lemma substring_skip_app m suf :
  substring (String.length m) (String.length suf) (m ++ suf)%string = suf.
Proof.
  induction m as [|c m IH]; [rewrite append_nil_l; apply substring_all|].
  rewrite append_cons. simpl. done.
Qed.

Lemma length_append a b : String.length (a ++ b)%string = String.length a + String.length b.
Proof.
  induction a as [|c a IH]; [done|]. rewrite append_cons. simpl. by rewrite IH.
Qed.

Lemma substring_cut s n k :
  n + k = String.length s → s = (substring 0 n s ++ substring n k s)%string.
Proof.
  revert n. induction s as [|c s IH]; intros n Hl; simpl in *.
  - assert (n = 0) as -> by lia. assert (k = 0) as -> by lia. done.
  - destruct n as [|n].
    + rewrite append_nil_l. simpl in Hl. subst k. simpl. by rewrite substring_all.
    + rewrite append_cons. f_equal. apply IH. lia.
Qed.

Lemma strip_suffix_Some suf s m : strip_suffix suf s = Some m ↔ s = (m ++ suf)%string.
Proof.
  unfold strip_suffix. split.
  - destruct (String.length suf <=? String.length s) eqn:Hl; [|done]. simpl.
    apply Nat.leb_le in Hl.
    destruct (String.eqb_spec (substring (String.length s - String.length suf)
                                 (String.length suf) s) suf) as [He|]; [|done].
    intros [= <-].
    pose proof (substring_cut s (String.length s - String.length suf) (String.length suf)
                  ltac:(lia)) as Hc.
    by rewrite He in Hc.
  - intros ->. rewrite length_append.
    replace (String.length m + String.length suf - String.length suf) with (String.length m) by lia.
    rewrite substring_skip_app, String.eqb_refl, substring_0_app.
    replace (String.length suf <=? String.length m + String.length suf) with true; [done|].
    symmetry. apply Nat.leb_le. lia.
Qed.

Lemma rsplit_None sep s :
  rsplit sep s = None ↔ all_chars (λ c, negb (Ascii.eqb c sep)) s = true.
Proof.
  induction s as [|c s IH]; simpl; [done|].
  destruct (rsplit sep s) as [[a b]|].
  - split; [done|]. intros [_ H]%andb_true_iff. by apply IH in H.
  - destruct (Ascii.eqb c sep); simpl; [done|]. split; [intros _; by apply IH|done].
Qed.

Lemma rsplit_Some sep s a b :
  rsplit sep s = Some (a, b) ↔
  s = (a ++ String sep b)%string ∧ all_chars (λ c, negb (Ascii.eqb c sep)) b = true.
Proof.
  split.
  - revert a b. induction s as [|c s IH]; intros a b; simpl; [done|].
    destruct (rsplit sep s) as [[a' b']|] eqn:Hr.
    + intros [= <- <-]. destruct (IH a' b' eq_refl) as [-> Hb]. by rewrite append_cons.
    + destruct (Ascii.eqb_spec c sep) as [->|]; [|done].
      intros [= <- <-]. split; [done|]. by apply rsplit_None.
  - intros [-> Hb]. induction a as [|c a IH].
    + rewrite append_nil_l. simpl. apply rsplit_None in Hb. rewrite Hb.
      by rewrite Ascii.eqb_refl.
    + rewrite append_cons. simpl. by rewrite IH.
Qed.

(** X1.  A line matches the start pattern exactly when it is the marker [---
    SCRIPT file:digits ---] for a [file] without line terminator, and the
    captures are [file] whole, colons included, and the digits. *)
Theorem SCRIPT_START_captures (l file d : string) :
  match_SCRIPT_START l = Some (file, d) ↔
  l = ("--- SCRIPT " ++ file ++ ":" ++ d ++ " ---")%string
  ∧ all_chars is_dot file = true ∧ digits d = true.
Proof.
  unfold match_SCRIPT_START, digits. split.
  - destruct (strip_prefix _ l) as [r|] eqn:H1; [|done].
    destruct (strip_suffix _ r) as [mid|] eqn:H2; [|done].
    destruct (rsplit _ mid) as [[f d']|] eqn:H3; [|done].
    destruct (all_chars is_dot f && nonempty d' && all_chars is_digit d') eqn:H4; [|done].
    intros [= <- <-].
    apply strip_prefix_Some in H1 as ->. apply strip_suffix_Some in H2 as ->.
    apply rsplit_Some in H3 as [-> _].
    apply andb_true_iff in H4 as [[Ha Hb]%andb_true_iff Hc].
    rewrite Ha, Hb, Hc. split; [|done].
    by rewrite !append_assoc.
  - intros (-> & Hf & [Hn Hd]%andb_true_iff).
    rewrite (proj2 (strip_prefix_Some _ _ (file ++ ":" ++ d ++ " ---")%string)) by done.
    rewrite (proj2 (strip_suffix_Some " ---" _ (file ++ ":" ++ d)%string))
      by (by rewrite !append_assoc).
    rewrite (proj2 (rsplit_Some ":" _ file d)).
    + by rewrite Hf, Hn, Hd.
    + split; [done|]. revert Hd. apply all_chars_impl.
      intros c Hc. apply negb_true_iff. by apply digit_not.
Qed.

(** *** Instruction lines *)

Lemma join_cons2 sep x y l : join sep (x :: y :: l) = (x ++ sep ++ join sep (y :: l))%string.
Proof. reflexivity. Qed.

(** The class of the count group: digits and slashes. *)
Lemma count_group_class fields :
  Forall (λ f, digits f = true) fields →
  all_chars (λ c, is_digit c || Ascii.eqb c "/") (join "/" fields) = true.
Proof.
  induction 1 as [|f fields Hf _ IH]; [done|].
  apply andb_true_iff in Hf as [_ Hf].
  assert (H : all_chars (λ c, is_digit c || Ascii.eqb c "/") f = true).
  { revert Hf. apply all_chars_impl. by intros c ->. }
  destruct fields as [|f' fields]; [done|].
  rewrite join_cons2, !all_chars_app, H, IH. done.
Qed.

Lemma split_join fields :
  fields ≠ [] → Forall (λ f, digits f = true) fields →
  split "/" (join "/" fields) = fields.
Proof.
  intros Hne H. induction H as [|f fields Hf Hfs IH]; [done|].
  apply andb_true_iff in Hf as [_ Hf].
  assert (H : all_chars (λ c, negb (Ascii.eqb c "/")) f = true).
  { revert Hf. apply all_chars_impl. intros c Hc. apply negb_true_iff. by apply digit_not. }
  destruct fields as [|f' fields]; [by apply split_no_sep|].
  rewrite join_cons2. change ("/" ++ ?r)%string with (String "/" r).
  rewrite split_app by done. by rewrite IH.
Qed.

Lemma match_SCRIPT_DATA_fields (pc : string) (fields : list string)
    (w1 w2 ln w3 asm : string) :
  digits pc = true → 2 ≤ length fields → Forall (λ f, digits f = true) fields →
  spaces w1 = true → spaces w2 = true → digits ln = true → spaces w3 = true →
  all_chars is_dot asm = true → stops is_space asm = true →
  match_SCRIPT_DATA
    (pc ++ ":" ++ join "/" fields ++ w1 ++ "x" ++ w2 ++ ln ++ w3 ++ asm)%string
  = Some (pc, join "/" fields, ln, asm).
Proof.
  intros [Hpc0 Hpc]%andb_true_iff Hlen Hfields [Hw10 Hw1]%andb_true_iff
    [Hw20 Hw2]%andb_true_iff [Hln0 Hln]%andb_true_iff [Hw30 Hw3]%andb_true_iff Hasm Hstop.
  set (ds := λ c : ascii, is_digit c || Ascii.eqb c "/").
  unfold match_SCRIPT_DATA.
  rewrite (span_app is_digit pc) by done. rewrite Hpc0. cbn [negb].
  change (":" ++ ?r)%string with (String ":" r). cbn [strip_prefix].
  change (Ascii.eqb ":" ":") with true. cbv iota.
  fold ds.
  rewrite (span_app ds).
  2: { subst ds. apply count_group_class. exact Hfields. }
  2: { apply (stops_head ds is_space); [done..|]. intros c Hc. unfold ds.
       rewrite (space_not_digit c Hc). simpl.
       destruct (Ascii.eqb_spec c "/"); [by subst|done]. }
  rewrite split_join; [|intros ->; simpl in Hlen; lia|done].
  replace (2 <=? length fields) with true by (symmetry; by apply Nat.leb_le).
  replace (forallb nonempty fields) with true.
  2: { symmetry. apply forallb_forall. intros f Hf. rewrite Forall_forall in Hfields.
       apply list_elem_of_In, Hfields in Hf. by apply andb_true_iff in Hf as [? _]. }
  cbn [andb negb].
  rewrite (span_app is_space w1) by done. rewrite Hw10. cbn [negb].
  change ("x" ++ ?r)%string with (String "x" r). cbn [strip_prefix].
  change (Ascii.eqb "x" "x") with true. cbv iota.
  rewrite (span_app is_space w2).
  2: done.
  2: { apply (stops_head is_space is_digit); [done..|]. intros c Hc.
       destruct (is_space c) eqn:Hs; [|done]. by rewrite (space_not_digit c Hs) in Hc. }
  rewrite Hw20. cbn [negb].
  rewrite (span_app is_digit ln).
  2: done.
  2: { apply (stops_head is_digit is_space); [done..|]. apply space_not_digit. }
  rewrite Hln0. cbn [negb].
  rewrite (span_app is_space w3) by done. rewrite Hw30. cbn [negb]. by rewrite Hasm.
Qed.

Lemma span_all p s : all_chars p s = true → span p s = (s, EmptyString).
Proof.
  induction s as [|c s IH]; simpl; [done|]. intros [Hc Hs]%andb_true_iff.
  by rewrite Hc, (IH Hs).
Qed.

Lemma parseInt_digits f :
  digits f = true → parseInt (Some f) = Int (Z.of_N (parse_digits f)).
Proof.
  intros [Hn Hf]%andb_true_iff. unfold parseInt. by rewrite (span_all _ _ Hf), Hn.
Qed.

(** X2.  An instruction line whose count group holds three fields or more
    yields an opcode whose count is the sum of the first three fields; the
    further fields are not read. The address and the source line are the
    values of their digits, the text after [lambda] or [deflocalfun] is
    dropped from the assembly, and none of the three flags is set. The
    address, the source line and the sum are taken below 2^53, where the
    numbers of the code are exact. *)
Theorem instruction_line_sums_three_fields (script : Script)
    (pc f1 f2 f3 : string) (more : list string) (w1 w2 ln w3 asm : string) :
  digits pc = true → digits f1 = true → digits f2 = true → digits f3 = true →
  Forall (λ f, digits f = true) more →
  spaces w1 = true → spaces w2 = true → digits ln = true → spaces w3 = true →
  all_chars is_dot asm = true → stops is_space asm = true →
  (parse_digits pc < 2 ^ 53)%N → (parse_digits ln < 2 ^ 53)%N →
  (parse_digits f1 + parse_digits f2 + parse_digits f3 < 2 ^ 53)%N →
  let line := (pc ++ ":" ++ join "/" (f1 :: f2 :: f3 :: more)
                 ++ w1 ++ "x" ++ w2 ++ ln ++ w3 ++ asm)%string in
  ∃ opcode,
    Script_line script line = Val (push_opcode opcode script)
    ∧ op_pc opcode = parse_digits pc
    ∧ op_count opcode
      = Int (Z.of_N (parse_digits f1 + parse_digits f2 + parse_digits f3))
    ∧ op_srcline opcode = parse_digits ln
    ∧ op_assembly opcode
      = (if starts_with "lambda " asm then "lambda"
         else if starts_with "deflocalfun " asm then "deflocalfun" else asm)%string
    ∧ op_reachable opcode = false
    ∧ op_fallsthrough opcode = false
    ∧ op_entrypoint opcode = false.
Proof.
  intros Hpc H1 H2 H3 Hmore Hw1 Hw2 Hln Hw3 Hasm Hstop _ _ _ line.
  assert (Hfields : Forall (λ f, digits f = true) (f1 :: f2 :: f3 :: more))
    by (repeat constructor; done).
  assert (Hm : match_SCRIPT_DATA line
               = Some (pc, join "/" (f1 :: f2 :: f3 :: more), ln, asm)).
  { apply match_SCRIPT_DATA_fields; try done. simpl. lia. }
  exists (new_opcode pc (join "/" (f1 :: f2 :: f3 :: more)) ln asm).
  split; [|split; [|split; [|split; [|split; [|split; [|split]]]]]]; try done.
  - pose proof Hpc as [_ Hd]%andb_true_iff.
    destruct pc as [|c r]; [done|]. simpl in Hd. apply andb_true_iff in Hd as [Hc _].
    destruct (starts_digit_not_header line c _ eq_refl Hc) as (E1 & E2 & E3).
    unfold Script_line. by rewrite E1, E2, E3, Hm.
  - unfold new_opcode. cbn [op_count]. rewrite split_join by done.
    change ((f1 :: f2 :: f3 :: more) !! 0) with (Some f1).
    change ((f1 :: f2 :: f3 :: more) !! 1) with (Some f2).
    change ((f1 :: f2 :: f3 :: more) !! 2) with (Some f3).
    rewrite !parseInt_digits by done. simpl. f_equal. lia.
  - unfold new_opcode. cbn [op_assembly].
    destruct (starts_with "lambda " asm); [done|].
    by destruct (starts_with "deflocalfun " asm).
Qed.

Lemma instruction_line_sums_three_fields_witness :
  ∃ opcode,
    Script_line empty_Script "00012:3/1/2/9/9/9 x 7 lambda function() {}"
    = Val (push_opcode opcode empty_Script)
    ∧ op_pc opcode = 12%N
    ∧ op_count opcode = Int 6
    ∧ op_srcline opcode = 7%N
    ∧ op_assembly opcode = "lambda"%string
    ∧ op_reachable opcode = false
    ∧ op_fallsthrough opcode = false
    ∧ op_entrypoint opcode = false.
Proof.
  apply (instruction_line_sums_three_fields empty_Script "00012" "3" "1" "2"
           ["9"; "9"; "9"]%string " " " " "7" " " "lambda function() {}");
    try reflexivity.
  repeat constructor.
Defined.

(** ** The Script constructor *)

Lemma match_SCRIPT_DATA_digit l x :
  match_SCRIPT_DATA l = Some x → ∃ c r, l = String c r ∧ is_digit c = true.
Proof.
  unfold match_SCRIPT_DATA. destruct l as [|c r]; [done|]. simpl.
  destruct (is_digit c) eqn:Hc; [eauto|done].
Qed.

Lemma match_SCRIPT_DATA_not_header l x :
  match_SCRIPT_DATA l = Some x →
  match_SCRIPT_START l = None ∧ test_SCRIPT_END l = false ∧ String.eqb l "main:" = false.
Proof.
  intros (c & r & -> & Hc)%match_SCRIPT_DATA_digit.
  by eapply starts_digit_not_header.
Qed.

Lemma dash_not_tab l :
  starts_with "-" l = true → starts_with (String TAB EmptyString) l = false.
Proof.
  unfold starts_with. destruct l as [|c r]; [done|]. rewrite !strip_prefix_cons.
  destruct (Ascii.eqb_spec "-" c) as [<-|]; [done|]. done.
Qed.

Lemma SCRIPT_START_tab l x :
  match_SCRIPT_START l = Some x → starts_with (String TAB EmptyString) l = false.
Proof.
  intros H. apply dash_not_tab. unfold match_SCRIPT_START in H. unfold starts_with.
  destruct l as [|c r]; [done|]. rewrite strip_prefix_cons in *.
  by destruct (Ascii.eqb "-" c).
Qed.

Lemma SCRIPT_END_tab l :
  test_SCRIPT_END l = true → starts_with (String TAB EmptyString) l = false.
Proof.
  intros H. apply dash_not_tab. unfold test_SCRIPT_END in H. unfold starts_with in *.
  destruct l as [|c r]; [done|]. rewrite strip_prefix_cons in *.
  by destruct (Ascii.eqb "-" c).
Qed.

Lemma Script_line_cases s l :
  match match_SCRIPT_DATA l with
  | Some (pc, g, ln, asm) =>
      Script_line s l = Val (push_opcode (new_opcode pc g ln asm) s)
  | None =>
      (Script_line s l = Exn ∧ starts_with (String TAB EmptyString) l = true
       ∧ opcodes s = [])
      ∨ (∃ s', Script_line s l = Val s'
               ∧ Forall2 same_opcode (opcodes s) (opcodes s')
               ∧ pcToOpcodeIndex s' = pcToOpcodeIndex s
               ∧ (starts_with (String TAB EmptyString) l = true → opcodes s ≠ []))
  end.
Proof.
  assert (Hrefl : ∀ ops, Forall2 same_opcode ops ops).
  { intros ops. apply Forall_Forall2_diag, Forall_forall. by intros. }
  destruct (match_SCRIPT_DATA l) as [[[[pc g] ln] asm]|] eqn:Hm.
  - destruct (match_SCRIPT_DATA_not_header _ _ Hm) as (H1 & H2 & H3).
    unfold Script_line. by rewrite H1, H2, H3, Hm.
  - unfold Script_line. rewrite Hm.
    destruct (match_SCRIPT_START l) as [[file d]|] eqn:H1.
    { right. eexists. split; [done|]. split; [apply Hrefl|]. split; [done|].
      apply SCRIPT_START_tab in H1. congruence. }
    destruct (test_SCRIPT_END l) eqn:H2.
    { right. eexists. split; [done|]. split; [apply Hrefl|]. split; [done|].
      apply SCRIPT_END_tab in H2. congruence. }
    destruct (String.eqb_spec l "main:") as [->|H3].
    { right. eexists. split; [done|]. split; [apply Hrefl|]. split; [done|]. done. }
    destruct l as [|c r].
    { right. eexists. split; [done|]. split; [apply Hrefl|]. split; [done|]. done. }
    unfold starts_with. rewrite strip_prefix_cons. rewrite (Ascii.eqb_sym TAB c).
    destruct (Ascii.eqb c TAB).
    + destruct (last (opcodes s)) as [o|] eqn:Hlast.
      * right. eexists. split; [done|]. split; [|split; [done|]].
        -- simpl. apply last_Some in Hlast as [ops Hops]. rewrite Hops.
           rewrite length_app. simpl.
           replace (length ops + 1 - 1) with (length ops + 0) by lia.
           rewrite insert_app_r. simpl. apply Forall2_app; [apply Hrefl|].
           constructor; [|constructor]. by repeat split.
        -- intros _ Hnil. by rewrite Hnil in Hlast.
      * left. split; [done|]. split; [done|]. by apply last_None.
    + right. eexists. split; [done|]. split; [apply Hrefl|]. split; [done|]. done.
Qed.

Lemma same_opcode_fresh ops ops' :
  Forall2 same_opcode ops ops' →
  map (λ o, (op_pc o, op_count o, op_srcline o)) ops'
  = map (λ o, (op_pc o, op_count o, op_srcline o)) ops
  ∧ (Forall fresh ops → Forall fresh ops').
Proof.
  induction 1 as [|o o' ops ops' (H1 & H2 & H3 & H4 & H5 & H6) _ [IH1 IH2]]; [done|].
  split.
  - simpl. by rewrite IH1, H1, H2, H3.
  - intros H. inversion H as [|? ? (F1 & F2 & F3) Hf]; subst.
    constructor; [|by apply IH2]. unfold fresh. by rewrite H4, H5, H6.
Qed.

Lemma Script_lines_opcodes s0 lines s :
  Script_lines s0 lines = Val s →
  map (λ o, (op_pc o, op_count o, op_srcline o)) (opcodes s)
  = map (λ o, (op_pc o, op_count o, op_srcline o)) (opcodes s0) ++ omap instruction lines
  ∧ (Forall fresh (opcodes s0) → Forall fresh (opcodes s)).
Proof.
  revert s0. induction lines as [|l lines IH]; intros s0; simpl.
  { intros [= <-]. by rewrite app_nil_r. }
  pose proof (Script_line_cases s0 l) as Hc. unfold instruction at 1.
  destruct (match_SCRIPT_DATA l) as [[[[pc g] ln] asm]|] eqn:Hm.
  - rewrite Hc. intros [H1 H2]%IH. split.
    + rewrite H1. simpl. rewrite map_app. simpl. by rewrite <- app_assoc.
    + intros Hf. apply H2. simpl. apply Forall_app. split; [done|].
      constructor; [|constructor]. done.
  - destruct Hc as [(Hc & _)|(s' & Hc & Hops & _)]; rewrite Hc; [done|].
    intros [H1 H2]%IH. apply same_opcode_fresh in Hops as [E1 E2]. split.
    + by rewrite H1, E1.
    + intros Hf. by apply H2, E2.
Qed.

(** X3.  The opcodes of a Script the constructor returns are those of the
    instruction lines of the record, in the order of the lines, and none of
    them carries a flag of the analysis. *)
Theorem constructor_opcodes (lines : list string) (s : Script) :
  Script_new lines = Val s →
  map (λ o, (op_pc o, op_count o, op_srcline o)) (opcodes s) = omap instruction lines
  ∧ Forall fresh (opcodes s)
  ∧ unmarked_script s = true.
Proof.
  intros [H1 H2]%Script_lines_opcodes. split; [done|].
  assert (Hf : Forall fresh (opcodes s)) by (apply H2; constructor).
  split; [done|]. unfold unmarked_script. apply forallb_forall.
  intros o Ho. rewrite Forall_forall in Hf. apply list_elem_of_In, Hf in Ho as [-> _]. done.
Qed.

Lemma constructor_opcodes_witness :
  ∃ s, Script_new loop_lines = Val s
       ∧ map (λ o, (op_pc o, op_count o, op_srcline o)) (opcodes s)
         = omap instruction loop_lines
       ∧ Forall fresh (opcodes s)
       ∧ unmarked_script s = true.
Proof.
  eexists. split; [vm_compute; reflexivity|].
  apply (constructor_opcodes loop_lines). vm_compute. reflexivity.
Defined.

Lemma tab_not_instruction l :
  starts_with (String TAB EmptyString) l = true → match_SCRIPT_DATA l = None.
Proof.
  intros H. destruct (match_SCRIPT_DATA l) as [x|] eqn:Hm; [|done].
  apply match_SCRIPT_DATA_digit in Hm as (c & r & -> & Hc).
  unfold starts_with in H. rewrite strip_prefix_cons in H.
  destruct (Ascii.eqb_spec TAB c) as [<-|]; done.
Qed.

Lemma Script_lines_throws s0 lines :
  Script_lines s0 lines = Exn ↔
  opcodes s0 = []
  ∧ ∃ pre l post, lines = pre ++ l :: post
                  ∧ starts_with (String TAB EmptyString) l = true
                  ∧ Forall (λ x, match_SCRIPT_DATA x = None) pre.
Proof.
  split.
  - revert s0. induction lines as [|l lines IH]; intros s0; simpl; [done|].
    pose proof (Script_line_cases s0 l) as Hc.
    destruct (match_SCRIPT_DATA l) as [[[[pc g] ln] asm]|] eqn:Hm.
    + rewrite Hc. intros [H _]%IH. simpl in H. by destruct (opcodes s0).
    + destruct Hc as [(Hc & Ht & Hn)|(s' & Hc & Hops & _)]; rewrite Hc.
      * intros _. split; [done|]. exists [], l, lines. by repeat split.
      * intros (Hn & pre & l' & post & -> & Ht & Hpre)%IH. split.
        -- rewrite Hn in Hops. by inversion Hops.
        -- exists (l :: pre), l', post. repeat split; [done|]. by constructor.
  - intros (Hn & pre & l & post & -> & Ht & Hpre). revert s0 Hn.
    induction Hpre as [|x pre Hx _ IH]; intros s0 Hn; simpl.
    + pose proof (Script_line_cases s0 l) as Hc.
      rewrite (tab_not_instruction _ Ht) in Hc.
      destruct Hc as [(Hc & _)|(s' & _ & _ & _ & Hc)]; [by rewrite Hc|].
      by destruct (Hc Ht).
    + pose proof (Script_line_cases s0 x) as Hc. rewrite Hx in Hc.
      destruct Hc as [(Hc & _)|(s' & Hc & Hops & _)]; rewrite Hc; [done|].
      apply IH. rewrite Hn in Hops. by inversion Hops.
Qed.

(** X4.  The constructor throws exactly when a line that begins with a tab
    comes before every instruction line of the record: the continuation has
    no opcode to extend. *)
Theorem constructor_throws_iff (lines : list string) :
  Script_new lines = Exn ↔
  ∃ pre l post, lines = pre ++ l :: post
                ∧ starts_with (String TAB EmptyString) l = true
                ∧ Forall (λ x, match_SCRIPT_DATA x = None) pre.
Proof.
  unfold Script_new. rewrite Script_lines_throws. split; [by intros [_ H]|done].
Qed.

(** *** The address index *)

Lemma dec_inj n m : dec n = dec m → n = m.
Proof.
  unfold dec. intros H.
  assert (H' : NilEmpty.uint_of_string (NilEmpty.string_of_uint (N.to_uint n))
               = NilEmpty.uint_of_string (NilEmpty.string_of_uint (N.to_uint m)))
    by (by rewrite H).
  rewrite !NilEmpty.usu in H'. injection H' as H'.
  by apply DecimalN.Unsigned.to_uint_inj.
Qed.

Lemma last_at_same s s' k i :
  Forall2 same_opcode (opcodes s) (opcodes s') → last_at s k i → last_at s' k i.
Proof.
  intros Hops (o & Ho & -> & Hmax).
  destruct (Forall2_lookup_l _ _ _ _ _ Hops Ho) as (o' & Ho' & (Hpc & _)).
  exists o'. split; [done|]. split; [by rewrite Hpc|].
  intros j o1' Hj Hpc1.
  destruct (Forall2_lookup_r _ _ _ _ _ Hops Hj) as (o1 & Ho1 & (Hpc1' & _)).
  apply (Hmax j o1 Ho1). congruence.
Qed.

Lemma same_opcode_sym ops ops' :
  Forall2 same_opcode ops ops' → Forall2 same_opcode ops' ops.
Proof.
  intros H. apply Forall2_flip. eapply Forall2_impl; [exact H|].
  intros o o' (?&?&?&?&?&?). by repeat split.
Qed.

Lemma index_ok_push o s : index_ok s → index_ok (push_opcode o s).
Proof.
  intros Hs k i. simpl. split.
  - destruct (decide (dec (op_pc o) = k)) as [<-|Hne].
    + rewrite lookup_insert. case_decide; [|done]. intros [= <-].
      exists o. split; [|split; [done|]].
      * unfold push_opcode. simpl. rewrite lookup_app_r by done.
        by rewrite Nat.sub_diag.
      * intros j o' Hj _. apply lookup_lt_Some in Hj. simpl in Hj.
        rewrite length_app in Hj. simpl in Hj. lia.
    + rewrite lookup_insert_ne by done. intros (o1 & Ho1 & -> & Hmax)%Hs.
      exists o1. split; [|split; [done|]].
      * simpl. by apply lookup_app_l_Some.
      * intros j o' Hj Hpc. simpl in Hj.
        apply lookup_app_Some in Hj as [Hj|[Hge Hj]]; [by eapply Hmax|].
        apply list_lookup_singleton_Some in Hj as [_ <-]. congruence.
  - intros (o1 & Ho1 & -> & Hmax). simpl in Ho1.
    apply lookup_app_Some in Ho1 as [Ho1|[Hge Ho1]].
    + assert (Hne : op_pc o ≠ op_pc o1).
      { intros Heq. apply lookup_lt_Some in Ho1 as Hlt.
        assert (length (opcodes s) ≤ i); [|lia].
        apply (Hmax _ o); [|done]. simpl. rewrite lookup_app_r by done.
        by rewrite Nat.sub_diag. }
      rewrite lookup_insert_ne by (intros H; by apply dec_inj in H).
      apply Hs. exists o1. split; [done|]. split; [done|].
      intros j o' Hj Hpc. apply (Hmax j o'); [|done]. simpl. by apply lookup_app_l_Some.
    + apply list_lookup_singleton_Some in Ho1 as [Hi <-].
      assert (i = length (opcodes s)) as -> by lia.
      rewrite lookup_insert. by case_decide.
Qed.

Lemma Script_lines_index s0 lines s :
  Script_lines s0 lines = Val s → index_ok s0 → index_ok s.
Proof.
  revert s0. induction lines as [|l lines IH]; intros s0; simpl.
  { by intros [= <-]. }
  pose proof (Script_line_cases s0 l) as Hc.
  destruct (match_SCRIPT_DATA l) as [[[[pc g] ln] asm]|] eqn:Hm.
  - rewrite Hc. intros H Hs. apply (IH _ H). by apply index_ok_push.
  - destruct Hc as [(Hc & _)|(s' & Hc & Hops & Hidx & _)]; rewrite Hc; [done|].
    intros H Hs. apply (IH _ H). intros k i. rewrite Hidx, (Hs k i). split.
    + by apply last_at_same.
    + apply last_at_same. by apply same_opcode_sym.
Qed.

(** X5.  In a Script the constructor returns, the address index maps the
    decimal notation [k] of an address to the position [i] exactly when [i]
    holds the last opcode with that address: every address of an opcode is
    in the index, and of two opcodes with one address the later is found. *)
Theorem constructor_index (lines : list string) (s : Script) (k : string) (i : nat) :
  Script_new lines = Val s →
  (pcToOpcodeIndex s !! k = Some i ↔ last_at s k i).
Proof.
  intros H. apply (Script_lines_index _ _ _ H).
  intros k' i'. simpl. rewrite lookup_empty. split; [done|].
  intros (o & Ho & _). simpl in Ho. by rewrite lookup_nil in Ho.
Qed.

Lemma constructor_index_witness :
  pcToOpcodeIndex loop_script !! "4"%string = Some 4 ↔ last_at loop_script "4" 4.
Proof.
  apply (constructor_index loop_lines). vm_compute. reflexivity.
Defined.

(** ** The signature of a Script *)

Lemma dec_digits n : all_chars is_digit (dec n) = true.
Proof. apply string_of_uint_digits. Qed.

Lemma digits_no_colon s :
  all_chars is_digit s = true → all_chars (λ c, negb (Ascii.eqb c ":")) s = true.
Proof. apply all_chars_impl. intros c Hc. apply negb_true_iff. by apply digit_not. Qed.

(** Two texts that begin with a run of digits and a colon are equal only
    when the runs and the rests are. *)
Lemma colon_cut a b x y :
  all_chars is_digit a = true → all_chars is_digit b = true →
  (a ++ String ":" x)%string = (b ++ String ":" y)%string → a = b ∧ x = y.
Proof.
  revert b. induction a as [|c a IH]; intros [|d b] Ha Hb; rewrite ?append_cons, ?append_nil_l.
  - by intros [= ->].
  - intros [= <- _]. simpl in Hb. done.
  - intros [= -> _]. simpl in Ha. done.
  - intros [= <- H]. simpl in Ha, Hb.
    apply andb_true_iff in Ha as [_ Ha]. apply andb_true_iff in Hb as [_ Hb].
    destruct (IH b Ha Hb H) as [-> ->]. done.
Qed.

Lemma opcode_toString_inj o1 o2 :
  opcode_toString o1 = opcode_toString o2 →
  (op_pc o1, op_srcline o1, op_assembly o1) = (op_pc o2, op_srcline o2, op_assembly o2).
Proof.
  unfold opcode_toString. change (":" ++ ?r)%string with (String ":" r).
  intros H. apply colon_cut in H as [H1 H]; [|apply dec_digits..].
  apply colon_cut in H as [H2 H]; [|apply dec_digits..].
  apply dec_inj in H1, H2. congruence.
Qed.

Lemma entry_string_inj (e1 e2 : option nat) :
  str (λ e, dec (N.of_nat e)) e1 = str (λ e, dec (N.of_nat e)) e2 → e1 = e2.
Proof.
  assert (Hu : ∀ n, dec n ≠ "undefined"%string).
  { intros n H. pose proof (dec_digits n) as Hd. rewrite H in Hd. done. }
  destruct e1 as [a|], e2 as [b|]; simpl; intros H; try done.
  - apply dec_inj in H. f_equal. lia.
  - by apply Hu in H.
  - symmetry in H. by apply Hu in H.
Qed.

Lemma entry_string_no_colon (e : option nat) :
  all_chars (λ c, negb (Ascii.eqb c ":")) (str (λ e, dec (N.of_nat e)) e) = true.
Proof. destruct e; [|done]. apply digits_no_colon, dec_digits. Qed.

Lemma entry_string_no_LF (e : option nat) :
  no_LF (str (λ e, dec (N.of_nat e)) e) = true.
Proof. destruct e; [apply dec_no_LF|done]. Qed.

Lemma toString_signature s1 s2 :
  clean s1 → clean s2 → is_Some (name s1) → is_Some (name s2) →
  toString s1 = toString s2 → signature s1 = signature s2.
Proof.
  intros Hc1 Hc2 [n1 Hn1] [n2 Hn2] H.
  pose proof (toString_opcodes _ _ Hc1 Hc2 H) as Hops.
  destruct Hc1 as [Hl1 _], Hc2 as [Hl2 _].
  rewrite !toString_cut in H. apply LF_cut in H as [H _].
  2: by rewrite !no_LF_app, Hl1, entry_string_no_LF.
  2: by rewrite !no_LF_app, Hl2, entry_string_no_LF.
  change (":" ++ ?r)%string with (String ":" r) in H.
  assert (Hr : rsplit ":" (str id (name s1) ++ String ":" (str (λ e, dec (N.of_nat e)) (entrypoint s1)))
               = rsplit ":" (str id (name s2) ++ String ":" (str (λ e, dec (N.of_nat e)) (entrypoint s2))))
    by (by rewrite H).
  rewrite (proj2 (rsplit_Some ":" _ _ _) (conj eq_refl (entry_string_no_colon (entrypoint s1)))) in Hr.
  rewrite (proj2 (rsplit_Some ":" _ _ _) (conj eq_refl (entry_string_no_colon (entrypoint s2)))) in Hr.
  injection Hr as Hname Hentry. apply entry_string_inj in Hentry.
  rewrite Hn1, Hn2 in Hname. simpl in Hname. subst n2.
  unfold signature. rewrite Hn1, Hn2, Hentry. f_equal.
  clear -Hops. revert Hops. generalize (opcodes s2). 
  induction (opcodes s1) as [|o1 l1 IH]; intros [|o2 l2]; simpl; try done.
  intros [= Ho Hl]. apply opcode_toString_inj in Ho. rewrite Ho. f_equal. by apply IH.
Qed.

(** X6.  Distinct Scripts have distinct strings: two named Scripts whose
    name and assembly texts hold no line feed have the same string exactly
    when they have the same name, the same entry index and, position by
    position, opcodes with the same address, source line and assembly.
    Counts and flags are not part of the string. *)
Theorem toString_distinguishes_scripts (s1 s2 : Script) :
  clean s1 → clean s2 → is_Some (name s1) → is_Some (name s2) →
  (toString s1 = toString s2 ↔ signature s1 = signature s2).
Proof.
  intros Hc1 Hc2 Hn1 Hn2. split; [by apply toString_signature|apply signature_toString].
Qed.

Lemma toString_distinguishes_scripts_witness :
  toString twice_existing = toString twice_script
  ↔ signature twice_existing = signature twice_script.
Proof.
  apply toString_distinguishes_scripts.
  - split; [reflexivity|]. vm_compute. repeat constructor.
  - split; [reflexivity|]. vm_compute. repeat constructor.
  - by eexists.
  - by eexists.
Defined.

(** ** Every outcome of the analysis *)

Lemma switch_cases_keeps (P : Script → Prop) rec pc s cases s' :
  (∀ s idx s', P s → ends_in (rec s idx) s' → P s') →
  P s → ends_in (switch_cases rec pc s cases) s' → P s'.
Proof.
  intros Hrec. revert s. induction cases as [|c cases IH]; intros s Hs; simpl.
  { by intros [[= <-]|[=]]. }
  destruct (find_case_offset c) as [d|]; [|by intros [[=]|[= <-]]].
  destruct (rec s _) as [s1|s1|] eqn:Hr.
  - apply IH. eapply Hrec; [done|]. by left.
  - intros [[=]|[= <-]]. eapply Hrec; [done|]. by right.
  - by intros [[=]|[=]].
Qed.

Lemma reachable_keeps (P : Script → Prop) :
  walk_keeps P →
  ∀ fuel s idx s', P s → ends_in (reachable fuel s idx) s' → P s'.
Proof.
  intros Hwalk. induction fuel as [|fuel IH]; intros s idx s' Hs.
  { by intros [[=]|[=]]. }
  rewrite reachable_S. destruct idx as [i|]; [|by intros [[=]|[= <-]]].
  destruct (opcodes s !! i) as [oi|] eqn:Hoi; [|by intros [[=]|[= <-]]].
  cbv zeta. pose proof (Hwalk s i Hs ltac:(by rewrite Hoi)) as Hw. cbv zeta in Hw.
  destruct (walk _ _ i) as [ops|ops|ops j op o].
  - by intros [[= <-]|[=]].
  - by intros [[=]|[= <-]].
  - destruct (js_in op terminators); [by intros [[= <-]|[=]]|].
    destruct (js_in op unconditionals); [by apply IH|].
    destruct (js_in op conditionals).
    { destruct (reachable fuel _ (Some (S j))) as [s2|s2|] eqn:H2.
      - assert (P s2) by (eapply IH; [exact Hw|by left]).
        destruct (branchIndex s2 _) as [[|b]|]; [by intros [[= <-]|[=]]| |by intros [[= <-]|[=]]].
        by apply IH.
      - intros [[=]|[= <-]]. eapply IH; [exact Hw|by right].
      - by intros [[=]|[=]]. }
    destruct (js_in op switches); [|by intros [[= <-]|[=]]].
    destruct (split TAB _) as [|c0 cases]; [by intros [[=]|[= <-]]|].
    destruct (find_ffset c0) as [d|]; [|by intros [[=]|[= <-]]].
    destruct (reachable fuel _ (_ !! _)) as [s2|s2|] eqn:H2.
    + apply (switch_cases_keeps P); [apply IH|]. eapply IH; [exact Hw|by left].
    + intros [[=]|[= <-]]. eapply IH; [exact Hw|by right].
    + by intros [[=]|[=]].
Qed.

Lemma walk_grows k ops i :
  match walk k ops i with
  | WalkReturn ops' | WalkThrow ops' | WalkBreak ops' _ _ _ => grows ops ops'
  end.
Proof.
  revert ops i. induction k as [|k IH]; intros ops i; simpl; [apply grows_refl|].
  destruct (ops !! i) as [o|]; [|apply grows_refl].
  destruct (op_reachable o); [apply grows_refl|].
  destruct (first_word _) as [op|]; [|apply grows_set_reachable].
  destruct (linear op); simpl; [|apply grows_set_reachable].
  specialize (IH (alter set_fallsthrough i (alter set_reachable i ops)) (S i)).
  assert (Hg : grows ops (alter set_fallsthrough i (alter set_reachable i ops))).
  { eapply grows_trans; [apply grows_set_reachable|apply grows_set_fallsthrough]. }
  destruct (walk k _ (S i)); by eapply grows_trans.
Qed.

Lemma reachable_grows_all fuel s idx s' :
  ends_in (reachable fuel s idx) s' → script_grows s s'.
Proof.
  apply (reachable_keeps (script_grows s)); [|apply script_grows_refl].
  intros s1 i Hs1 _. cbv zeta.
  pose proof (walk_grows (length (alter set_entrypoint i (opcodes s1)) - i)
                (alter set_entrypoint i (opcodes s1)) i) as Hw.
  assert (Hg : ∀ ops, grows (alter set_entrypoint i (opcodes s1)) ops →
                      script_grows s (with_opcodes ops s1)).
  { intros ops Hops. eapply script_grows_trans; [exact Hs1|].
    apply script_grows_with_opcodes. eapply grows_trans; [apply grows_set_entrypoint|done]. }
  destruct (walk _ _ i); by apply Hg.
Qed.

(** X7.  Whatever its outcome, a return or an exception, [checkReachability]
    changes nothing of a Script but flags of its opcodes, and it clears no
    reachable flag: the name, the entry index, the address index and the
    address, count, source line and assembly of every opcode are as before,
    and so is the string of the Script. *)
Theorem checkReachability_changes_flags_only (s s' : Script) :
  ends_in (checkReachability s) s' →
  script_grows s s' ∧ toString s' = toString s.
Proof.
  intros H%reachable_grows_all. split; [done|]. by apply script_grows_toString.
Qed.

Lemma checkReachability_changes_flags_only_witness :
  ∃ e, checkReachability cond_last_script = TypeError e
       ∧ script_grows cond_last_script e
       ∧ toString e = toString cond_last_script.
Proof.
  eexists. split; [vm_compute; reflexivity|].
  apply checkReachability_changes_flags_only. right. vm_compute. reflexivity.
Defined.

(** *** The flags agree *)

Lemma walk_flags k ops i :
  Forall falls_ok ops →
  (∀ t o, ops !! t = Some o → t ≠ i → entry_marked o) →
  (k = 0 ∨ length ops ≤ i → Forall entry_marked ops) →
  match walk k ops i with
  | WalkReturn ops' | WalkThrow ops' | WalkBreak ops' _ _ _ => Forall flags_agree ops'
  end.
Proof.
  assert (Hall : ∀ ops, Forall falls_ok ops → Forall entry_marked ops → Forall flags_agree ops).
  { intros l H1 H2. apply Forall_lookup. intros t o Ho. split.
    - by eapply (Forall_lookup_1 _ _ _ _ H1).
    - by eapply (Forall_lookup_1 _ _ _ _ H2). }
  revert ops i. induction k as [|k IH]; intros ops i HJ HK H0; simpl.
  { apply Hall; [done|]. apply H0. by left. }
  destruct (ops !! i) as [o|] eqn:Ho.
  2: { apply Hall; [done|]. apply H0. right. by apply lookup_ge_None. }
  assert (HKall : op_reachable o = true → Forall entry_marked ops).
  { intros Hr. apply Forall_lookup. intros t o' Ho'.
    destruct (decide (t = i)) as [->|Hne]; [|by eapply HK].
    rewrite Ho in Ho'. injection Ho' as <-. by intros _. }
  destruct (op_reachable o) eqn:Hr; [by apply Hall, HKall|].
  pose proof (Forall_lookup_1 _ _ _ _ HJ Ho) as HJo. unfold falls_ok in HJo.
  rewrite Hr in HJo. simpl in HJo.
  assert (HK1 : ∀ f, (∀ x, op_reachable (f x) = true) →
                     (∀ x, op_entrypoint (f x) = op_entrypoint x) →
                     Forall entry_marked (alter f i ops)).
  { intros f Hf1 Hf2. apply Forall_lookup. intros t o' Ho'.
    destruct (decide (t = i)) as [->|Hne].
    - rewrite list_lookup_alter_eq, Ho in Ho'. injection Ho' as <-. by intros _.
    - rewrite list_lookup_alter_ne in Ho' by done. by eapply HK. }
  assert (HJ1 : ∀ f, (op_fallsthrough (f o) = op_reachable (f o) && linear_opcode (f o)) →
                     Forall falls_ok (alter f i ops)).
  { intros f Hf. apply Forall_lookup. intros t o' Ho'.
    destruct (decide (t = i)) as [->|Hne].
    - rewrite list_lookup_alter_eq, Ho in Ho'. by injection Ho' as <-.
    - rewrite list_lookup_alter_ne in Ho' by done. by eapply (Forall_lookup_1 _ _ _ _ HJ). }
  destruct (first_word (op_assembly o)) as [op|] eqn:Hw.
  2: { apply Hall; [|by apply HK1]. apply HJ1. unfold linear_opcode. simpl. by rewrite Hw. }
  destruct (linear op) eqn:Hl; simpl.
  2: { apply Hall; [|by apply HK1]. apply HJ1. unfold linear_opcode. simpl. by rewrite Hw, Hl. }
  rewrite list_alter_alter_eq.
  apply IH.
  - apply (HJ1 (set_fallsthrough ∘ set_reachable)). unfold linear_opcode. simpl. by rewrite Hw, Hl.
  - intros t o' Ho' _. revert t o' Ho'. apply Forall_lookup. by apply HK1.
  - intros _. by apply HK1.
Qed.

Lemma walk_keeps_flags : walk_keeps (λ s, Forall flags_agree (opcodes s)).
Proof.
  intros s i Hs [oi Hoi]. cbv zeta.
  pose proof (walk_flags (length (alter set_entrypoint i (opcodes s)) - i)
                (alter set_entrypoint i (opcodes s)) i) as Hw.
  assert (Hlt : i < length (opcodes s)) by (by eapply lookup_lt_Some).
  assert (H : Forall flags_agree (opcodes s) → True) by done.
  destruct (walk _ _ i); simpl; apply Hw.
  all: try (apply Forall_lookup; intros t o Ho;
    destruct (decide (t = i)) as [->|Hne];
    [rewrite list_lookup_alter_eq, Hoi in Ho; injection Ho as <-;
     by destruct (Forall_lookup_1 _ _ _ _ Hs Hoi)
    |rewrite list_lookup_alter_ne in Ho by done;
     by destruct (Forall_lookup_1 _ _ _ _ Hs Ho)]).
  all: try (intros t o Ho Hne; rewrite list_lookup_alter_ne in Ho by done;
            by destruct (Forall_lookup_1 _ _ _ _ Hs Ho)).
  all: rewrite length_alter; lia.
Qed.

(** X8.  After the analysis of a Script whose opcodes carried no flag,
    whatever the outcome, an opcode is marked as falling through exactly
    when it is marked reachable and its mnemonic is linear, and every opcode
    marked as an entry point is marked reachable. *)
Theorem analysis_flags_agree (s s' : Script) :
  Forall fresh (opcodes s) →
  ends_in (checkReachability s) s' →
  Forall flags_agree (opcodes s').
Proof.
  intros Hf. apply (reachable_keeps _ walk_keeps_flags).
  eapply Forall_impl; [exact Hf|]. intros o (H1 & H2 & H3).
  split; [unfold falls_ok; by rewrite H1, H2|]. unfold entry_marked. by rewrite H3.
Qed.

Lemma analysis_flags_agree_witness :
  ∃ s', checkReachability loop_script = Ok s' ∧ Forall flags_agree (opcodes s').
Proof.
  eexists. split; [vm_compute; reflexivity|].
  apply (analysis_flags_agree loop_script).
  - vm_compute. repeat constructor.
  - left. vm_compute. reflexivity.
Defined.

(** *** The marks of a run that returns *)

(** X9.  When [checkReachability] returns on a Script without marks, the
    positions it has marked are exactly those reachable from position 0 by
    the successors the code follows, whether or not the Script is well
    formed. *)
Theorem marks_of_a_returning_run (s s' : Script) (j : nat) :
  unmarked_script s = true →
  checkReachability s = Ok s' →
  (marked s' j = true ↔ rtc (code_successor s) 0 j).
Proof.
  intros Hfresh Hrun.
  pose proof (unmarked_le_length (opcodes s)) as Hle.
  pose proof (reachable_ok (S (length (opcodes s))) s (Some 0) ltac:(lia)) as H.
  unfold checkReachability in Hrun. rewrite Hrun in H.
  destruct H as (i & [= <-] & Hg & H0 & Hsound & Hclosed). split.
  - intros Hj. apply Hsound. split; [done|]. by apply unmarked_script_marked.
  - intros Hr. apply rtc_nsteps in Hr as [n Hr]. revert j Hr.
    induction n as [|n IH]; intros j Hr.
    + by inversion Hr; subst.
    + apply nsteps_inv_r in Hr as (t & Ht & Hstep).
      apply (Hclosed (or_intror eq_refl) t).
      * split; [by apply IH|]. by apply unmarked_script_marked.
      * by apply (successor_grows s s').
Qed.

Lemma marks_of_a_returning_run_witness :
  ∃ s', checkReachability inherited_script = Ok s'
        ∧ (marked s' 1 = true ↔ rtc (code_successor inherited_script) 0 1).
Proof.
  eexists. split; [vm_compute; reflexivity|].
  apply marks_of_a_returning_run; vm_compute; reflexivity.
Defined.

(** ** More on the Parser *)

(** X10.  The Scripts a text parses to have pairwise distinct strings: a
    record whose string is already known is merged into the Script that has
    it, never stored beside it. *)
Theorem parsed_scripts_have_distinct_strings (rawdata : string) (p : Parser)
    (i j : nat) (s s' : Script) :
  processLines new_Parser (split LF rawdata) = Ok p →
  scripts p !! i = Some s → scripts p !! j = Some s' →
  i ≠ j → toString s ≠ toString s'.
Proof.
  intros Hp Hi Hj Hne Heq.
  pose proof (processLines_inv _ _ _ new_Parser_inv (split_no_LF rawdata) Hp)
    as (_ & Hreg & _).
  apply Hreg in Hi, Hj. congruence.
Qed.

Lemma parsed_scripts_have_distinct_strings_witness :
  ∃ p s s',
    processLines new_Parser (split LF two_files_trace) = Ok p
    ∧ scripts p !! 0 = Some s ∧ scripts p !! 1 = Some s'
    ∧ toString s ≠ toString s'.
Proof.
  eexists _, _, _. split; [vm_compute; reflexivity|].
  split; [reflexivity|]. split; [reflexivity|].
  eapply (parsed_scripts_have_distinct_strings two_files_trace _ 0 1).
  - vm_compute. reflexivity.
  - reflexivity.
  - reflexivity.
  - lia.
Defined.

Lemma processLines_no_end p ls :
  Forall (λ l, test_SCRIPT_END l = false) ls →
  ∃ p', processLines p ls = Ok p' ∧ scripts p' = scripts p
        ∧ scriptMap p' = scriptMap p.
Proof.
  intros H. revert p. induction H as [|l ls Hl _ IH]; intros p; simpl; [eauto|].
  unfold processLine. rewrite Hl. destruct (inscript p).
  - destruct (IH {| inscript := true; scriptlines := scriptlines p ++ [l];
                    scripts := scripts p; scriptMap := scriptMap p |})
      as (p' & -> & H1 & H2). eauto.
  - destruct (match_SCRIPT_START l).
    + destruct (IH {| inscript := true; scriptlines := [l];
                      scripts := scripts p; scriptMap := scriptMap p |})
        as (p' & -> & H1 & H2). eauto.
    + apply IH.
Qed.

(** X11.  A record that is not closed is dropped: on a text without any end
    marker [parseData] returns with the engine unchanged, whatever the lines
    after the start marker are. *)
Theorem unterminated_records_are_dropped (self : Coverage) (rawdata : string) :
  Forall (λ l, test_SCRIPT_END l = false) (split LF rawdata) →
  parseData self rawdata = Ok self.
Proof.
  intros H. unfold parseData.
  destruct (processLines_no_end new_Parser _ H) as (p' & -> & -> & _). done.
Qed.

Lemma unterminated_records_are_dropped_witness :
  parseData listening unterminated_trace = Ok listening.
Proof.
  apply unterminated_records_are_dropped. vm_compute. repeat constructor.
Defined.

Lemma processLines_body p ls :
  inscript p = true →
  Forall (λ l, test_SCRIPT_END l = false) ls →
  processLines p ls
  = Ok {| inscript := true; scriptlines := scriptlines p ++ ls;
          scripts := scripts p; scriptMap := scriptMap p |}.
Proof.
  intros Hp H. revert p Hp. induction H as [|l ls Hl _ IH]; intros p Hp; simpl.
  - rewrite app_nil_r. destruct p. simpl in Hp. by subst.
  - unfold processLine. rewrite Hp, Hl. rewrite IH by done. simpl.
    by rewrite <- app_assoc.
Qed.

Lemma processLines_app p a b :
  processLines p (a ++ b)
  = match processLines p a with
    | Ok p' => processLines p' b
    | r => r
    end.
Proof.
  revert p. induction a as [|l a IH]; intros p; simpl.
  - by destruct (processLines p b).
  - destruct (processLine p l); [apply IH|done..].
Qed.

(** X12.  The records of the dummy script and of the [-e] scripts are
    skipped: whatever stands between one of their three start markers and
    the end marker, no Script is built, nothing throws, and the Parser is
    back outside a record with the Scripts it had. *)
Theorem dummy_records_are_skipped (p : Parser) (header final : string)
    (body : list string) :
  inscript p = false →
  In header dummy_scripts →
  Forall (λ l, test_SCRIPT_END l = false) body →
  test_SCRIPT_END final = true →
  processLines p (header :: body ++ [final])
  = Ok {| inscript := false; scriptlines := [];
          scripts := scripts p; scriptMap := scriptMap p |}.
Proof.
  intros Hp Hh Hbody Hfinal.
  assert (Hstart : ∃ x, match_SCRIPT_START header = Some x).
  { simpl in Hh. destruct Hh as [<-|[<-|[<-|[]]]]; vm_compute; eauto. }
  destruct Hstart as [x Hstart].
  cbn [processLines]. unfold processLine at 1. rewrite Hp, Hstart.
  rewrite processLines_app, processLines_body by done.
  cbn [processLines scriptlines inscript scripts scriptMap]. unfold processLine.
  cbn [inscript scriptlines scripts scriptMap]. rewrite Hfinal.
  replace (is_dummy (([header] ++ body) ++ [final])) with true; [done|].
  symmetry. cbn [app is_dummy]. apply existsb_exists. exists header. split; [done|].
  apply String.eqb_refl.
Qed.

Lemma dummy_records_are_skipped_witness :
  processLines new_Parser
    ("--- SCRIPT -e:1 ---"%string
     :: [String TAB "0: 20"; "junk"; "--- SCRIPT a.js:1 ---"]%string
     ++ ["--- END SCRIPT -e:1 ---"%string])
  = Ok {| inscript := false; scriptlines := [];
          scripts := scripts new_Parser; scriptMap := scriptMap new_Parser |}.
Proof.
  apply (dummy_records_are_skipped new_Parser).
  - reflexivity.
  - simpl. tauto.
  - repeat constructor.
  - reflexivity.
Defined.

(** ** Adding counts *)

Lemma addCounts_loop_result this that :
  match addCounts_loop this that with
  | Val r => length this ≤ length that ∧ r = merge_counts this that
  | Exn => length that < length this
  end.
Proof.
  revert that. induction this as [|o this IH]; intros that; simpl.
  { split; [lia|]. by destruct that. }
  destruct that as [|o' that]; simpl; [lia|].
  specialize (IH that). destruct (addCounts_loop this that) as [r|].
  - destruct IH as [Hl ->]. split; [lia|done].
  - lia.
Qed.



(** ** The Scripts of a parsed text *)

Lemma successors_same_text test s s' i :
  pcToOpcodeIndex s' = pcToOpcodeIndex s →
  Forall2 (λ o o', op_pc o' = op_pc o ∧ op_assembly o' = op_assembly o)
    (opcodes s) (opcodes s') →
  successors_by test s' i = successors_by test s i.
Proof.
  intros Hidx Hops. unfold successors_by.
  rewrite <- (Forall2_length _ _ _ Hops).
  destruct (opcodes s !! i) as [o|] eqn:Ho.
  - destruct (Forall2_lookup_l _ _ _ _ _ Hops Ho) as (o' & -> & Hpc & Has).
    rewrite Has. unfold branchIndex, switch_target. by rewrite Hidx, Hpc.
  - destruct (opcodes s' !! i) as [o'|] eqn:Ho'; [|done].
    destruct (Forall2_lookup_r _ _ _ _ _ Hops Ho') as (o & ? & _). congruence.
Qed.

Lemma rtc_code_successor_same s s' i j :
  (∀ t, successors_by js_in s' t = successors_by js_in s t) →
  rtc (code_successor s') i j ↔ rtc (code_successor s) i j.
Proof.
  intros H. split; (induction 1; [constructor|]); (econstructor; [|done]);
    unfold code_successor in *; by rewrite ?H in *.
Qed.

Lemma returning_run_analysed s s' :
  Forall fresh (opcodes s) → checkReachability s = Ok s' → analysed s'.
Proof.
  intros Hfresh Hrun. split.
  - assert (Hun : unmarked_script s = true).
    { apply forallb_forall. intros o Ho. rewrite Forall_forall in Hfresh.
      apply list_elem_of_In, Hfresh in Ho as [-> _]. done. }
    intros j.
    pose proof (checkReachability_grows _ _ Hrun) as Hg.
    rewrite (rtc_code_successor_same s s') by (intros t; by apply successors_grows).
    pose proof (unmarked_le_length (opcodes s)) as Hle.
    pose proof (reachable_ok (S (length (opcodes s))) s (Some 0) ltac:(lia)) as H.
    unfold checkReachability in Hrun. rewrite Hrun in H.
    destruct H as (i & [= <-] & _ & H0 & Hsound & Hclosed). split.
    + intros Hj. apply Hsound. split; [done|]. by apply unmarked_script_marked.
    + intros Hr. apply rtc_nsteps in Hr as [n Hr]. revert j Hr.
      induction n as [|n IH]; intros j Hr.
      * by inversion Hr; subst.
      * apply nsteps_inv_r in Hr as (t & Ht & Hstep).
        apply (Hclosed (or_intror eq_refl) t).
        -- split; [by apply IH|]. by apply unmarked_script_marked.
        -- by apply (successor_grows s s').
  - apply (reachable_keeps _ walk_keeps_flags (S (length (opcodes s))) s (Some 0)).
    + eapply Forall_impl; [exact Hfresh|]. intros o (H1 & H2 & H3).
      split; [unfold falls_ok; by rewrite H1, H2|]. unfold entry_marked. by rewrite H3.
    + by left.
Qed.

Lemma merge_counts_flags this that :
  length this ≤ length that →
  Forall2 (λ o o', op_pc o' = op_pc o ∧ op_assembly o' = op_assembly o
                   ∧ op_reachable o' = op_reachable o
                   ∧ op_fallsthrough o' = op_fallsthrough o
                   ∧ op_entrypoint o' = op_entrypoint o)
    this (merge_counts this that).
Proof.
  revert that. induction this as [|o this IH]; intros [|o' that] Hl; simpl in *;
    try lia; constructor; [done|]. apply IH. lia.
Qed.

Lemma addCounts_analysed this that merged :
  addCounts this that = Val merged → analysed this → analysed merged.
Proof.
  intros H [Hm Hf]. unfold addCounts in H.
  pose proof (addCounts_loop_result (opcodes this) (opcodes that)) as Hr.
  destruct (addCounts_loop _ _) as [r|]; [|done].
  destruct Hr as [Hl ->]. injection H as <-.
  pose proof (merge_counts_flags _ _ Hl) as Hflags. split.
  - intros j.
    rewrite (rtc_code_successor_same this (with_opcodes _ this)).
    2: { intros t. apply successors_same_text; [done|].
         eapply Forall2_impl; [exact Hflags|]. by intros ?? (?&?&_). }
    rewrite <- Hm. unfold marked, marked_at. simpl.
    destruct (opcodes this !! j) as [o|] eqn:Ho.
    + destruct (Forall2_lookup_l _ _ _ _ _ Hflags Ho) as (o' & -> & _ & _ & -> & _). done.
    + destruct (merge_counts _ _ !! j) as [o'|] eqn:Ho'; [|done].
      destruct (Forall2_lookup_r _ _ _ _ _ Hflags Ho') as (o & ? & _). congruence.
  - simpl. apply Forall_lookup. intros i o' Ho'.
    destruct (Forall2_lookup_r _ _ _ _ _ Hflags Ho') as (o & Ho & Hpc & Has & H1 & H2 & H3).
    pose proof (Forall_lookup_1 _ _ _ _ Hf Ho) as [F1 F2].
    split; unfold falls_ok, entry_marked, linear_opcode in *;
      [by rewrite H1, H2, Has|by rewrite H1, H3].
Qed.

Lemma processLine_analysed p l p' :
  processLine p l = Ok p' → Forall analysed (scripts p) → Forall analysed (scripts p').
Proof.
  unfold processLine. intros H Hp. destruct (inscript p).
  2: { by destruct (match_SCRIPT_START l); injection H as <-. }
  destruct (test_SCRIPT_END l); [|by injection H as <-].
  destruct (negb (is_dummy _)); [|by injection H as <-].
  destruct (Script_new _) as [script|] eqn:Hnew; [|done].
  destruct (scriptMap p !! toString script) as [idx|].
  - destruct (scripts p !! idx) as [existing|] eqn:Hidx; [|done].
    destruct (addCounts existing script) as [merged|] eqn:Hadd; [|done].
    injection H as <-. simpl. apply Forall_insert; [done|].
    eapply addCounts_analysed; [exact Hadd|].
    by eapply (Forall_lookup_1 _ _ _ _ Hp).
  - destruct (checkReachability script) as [script'| |] eqn:Hrun; [|done..].
    injection H as <-. simpl. apply Forall_app. split; [done|].
    constructor; [|constructor]. eapply returning_run_analysed; [|exact Hrun].
    apply Script_lines_opcodes in Hnew as [_ Hf]. apply Hf. constructor.
Qed.

(** X14.  Every Script the Parser stores has been analysed, and merging
    later records into it does not disturb the analysis: in each Script of a
    parsed text an opcode is marked reachable exactly when its position is
    reachable from position 0 by the successors the code follows, and the
    flags of every opcode agree. *)
Theorem parsed_scripts_are_analysed (rawdata : string) (p : Parser) :
  processLines new_Parser (split LF rawdata) = Ok p →
  Forall analysed (scripts p).
Proof.
  assert (H : ∀ ls q, Forall analysed (scripts q) → processLines q ls = Ok p →
                      Forall analysed (scripts p)).
  { induction ls as [|l ls IH]; intros q Hq; simpl; [by intros [= <-]|].
    destruct (processLine q l) as [q'| |] eqn:Hl; [|done..].
    apply IH. by eapply processLine_analysed. }
  apply H. constructor.
Qed.

Lemma parsed_scripts_are_analysed_witness :
  ∃ p, processLines new_Parser (split LF twice_trace) = Ok p
       ∧ Forall analysed (scripts p).
Proof.
  eexists. split; [vm_compute; reflexivity|].
  apply (parsed_scripts_are_analysed twice_trace). vm_compute. reflexivity.
Defined.

(** ** More on the counts of a line *)

Local Ltac in_snoc :=
  apply elem_of_app; first [by left | right; by apply list_elem_of_singleton].

Lemma sort_insert_Int z zs :
  StronglySorted Z.le zs →
  ∃ zs', sort_insert (Int z) (map Int zs) = map Int zs'
         ∧ StronglySorted Z.le zs' ∧ ∀ x, x ∈ zs' ↔ x = z ∨ x ∈ zs.
Proof.
  induction 1 as [|y zs Hs IH Hy]; simpl.
  { exists [z]. split; [done|]. split; [repeat constructor|].
    intros x. rewrite list_elem_of_singleton, elem_of_nil. tauto. }
  destruct (0 <? y - z)%Z eqn:Hlt.
  - apply Z.ltb_lt in Hlt. exists (z :: y :: zs). split; [done|]. split.
    + constructor; [by constructor|]. constructor; [lia|].
      eapply Forall_impl; [exact Hy|]. simpl. lia.
    + intros x. by rewrite elem_of_cons.
  - apply Z.ltb_ge in Hlt. destruct IH as (zs' & -> & Hs' & Hin).
    exists (y :: zs'). split; [done|]. split.
    + constructor; [done|]. apply Forall_forall. intros x [-> | Hx]%Hin; [lia|].
      rewrite Forall_forall in Hy. by apply Hy.
    + intros x. rewrite !elem_of_cons, Hin. tauto.
Qed.

Lemma sort_counts_Int zs :
  ∃ zs', sort_counts (map Int zs) = map Int zs'
         ∧ StronglySorted Z.le zs' ∧ ∀ x, x ∈ zs' ↔ x ∈ zs.
Proof.
  unfold sort_counts.
  assert (H : ∀ acc, StronglySorted Z.le acc →
            ∃ zs', fold_left (λ acc x, sort_insert x acc) (map Int zs) (map Int acc)
                   = map Int zs'
                   ∧ StronglySorted Z.le zs' ∧ ∀ x, x ∈ zs' ↔ x ∈ acc ∨ x ∈ zs).
  { induction zs as [|z zs IH]; intros acc Hacc; simpl.
    - exists acc. split; [done|]. split; [done|]. intros x. rewrite elem_of_nil. tauto.
    - destruct (sort_insert_Int z acc Hacc) as (acc' & -> & Hs & Hin).
      destruct (IH acc' Hs) as (zs' & -> & Hs' & Hin').
      exists zs'. split; [done|]. split; [done|]. intros x.
      rewrite Hin', Hin, elem_of_cons. tauto. }
  destruct (H [] (SSorted_nil _)) as (zs' & Heq & Hs & Hin).
  exists zs'. split; [done|]. split; [done|]. intros x. rewrite Hin, elem_of_nil. tauto.
Qed.

Lemma dedup_from_Int p zs :
  StronglySorted Z.le zs → Forall (λ z, (p ≤ z)%Z) zs →
  ∃ zs', dedup_from (Int p) (map Int zs) = map Int zs'
         ∧ StronglySorted Z.lt zs' ∧ Forall (λ z, (p < z)%Z) zs'
         ∧ ∀ x, x ∈ zs' → x ∈ zs.
Proof.
  intros Hs. revert p. induction Hs as [|y zs Hs IH Hy]; intros p Hp; simpl.
  { exists []. split; [done|]. split; [constructor|]. split; [constructor|done]. }
  inversion Hp as [|? ? Hpy Hp']; subst.
  destruct (y =? p)%Z eqn:Heq.
  - apply Z.eqb_eq in Heq as ->. destruct (IH p Hp') as (zs' & -> & H1 & H2 & H3).
    exists zs'. repeat split; try done. intros x Hx. right. by apply H3.
  - apply Z.eqb_neq in Heq. destruct (IH y Hy) as (zs' & -> & H1 & H2 & H3).
    exists (y :: zs'). split; [done|]. split; [by constructor|]. split.
    + constructor; [lia|]. eapply Forall_impl; [exact H2|]. simpl. lia.
    + intros x [-> | Hx]%elem_of_cons; [by left|]. right. by apply H3.
Qed.

Lemma dedup_Int zs :
  zs ≠ [] → StronglySorted Z.le zs →
  ∃ zs', dedup (map Int zs) = map Int zs' ∧ StronglySorted Z.lt zs'
         ∧ ∀ x, x ∈ zs' → x ∈ zs.
Proof.
  intros Hne Hs. destruct Hs as [|y zs Hs Hy]; [done|]. simpl.
  destruct (dedup_from_Int y zs Hs Hy) as (zs' & -> & H1 & H2 & H3).
  exists (y :: zs'). split; [done|]. split; [by constructor|].
  intros x [-> | Hx]%elem_of_cons; [by left|]. right. by apply H3.
Qed.

(** What holds of the state of the loop of [counts] after the opcodes
    [ops], all with an integer count. *)
Lemma counts_fold_Int ops :
  Forall (λ o, counted o = true) ops →
  let st := fold_left counts_step ops counts_init in
  (∃ zs, rawcounts st = map Int zs ∧ (ops ≠ [] → zs ≠ [])
         ∧ ∀ z, z ∈ zs → count_from ops z)
  ∧ (cs_min st = Infinity
     ∨ ∃ z, cs_min st = Int z ∧ ∃ o, o ∈ ops ∧ op_reachable o = true ∧ op_count o = Int z)
  ∧ (∃ m, cs_max st = Int m)
  ∧ (ops = [] → lastopcode st = None).
Proof.
  induction ops as [|o ops IH] using rev_ind; intros Hops; simpl.
  { split; [exists []; split; [done|]; split; [done|]; intros z Hz; by apply elem_of_nil in Hz|].
    split; [by left|]. split; [by eexists|done]. }
  apply Forall_app in Hops as [Hops Ho]. inversion Ho as [|? ? Hc _]; subst.
  specialize (IH Hops). cbv zeta in IH.
  rewrite fold_left_app. simpl.
  destruct IH as ((zs & Hraw & Hne & Hsrc) & Hmin & (m & Hmax) & Hlast).
  assert (Hmono : ∀ z, count_from ops z → count_from (ops ++ [o]) z).
  { intros z [[-> (o' & Ho' & Hr)]|(o' & Ho' & Hr)]; [left|right].
    - split; [done|]. exists o'. split; [in_snoc|done].
    - exists o'. split; [in_snoc|done]. }
  unfold counted in Hc. destruct (op_count o) as [c| | |] eqn:Hco; try done.
  remember (fold_left counts_step ops counts_init) as st eqn:Hst.
  unfold counts_step. rewrite Hco.
  destruct (op_reachable o) eqn:Hr.
  - destruct (skip_count _ _) eqn:Hskip; simpl.
    + split; [exists zs; split; [done|]; split|].
      * intros _. apply Hne. intros ->. simpl in Hst. by subst st.
      * intros z Hz. by apply Hmono, Hsrc.
      * split; [|split; [by eexists|by destruct ops]].
        destruct Hmin as [Hmin|(z & Hz & o' & Ho' & Hr')]; [by left|right].
        exists z. split; [done|]. exists o'. split; [in_snoc|done].
    + split; [exists (zs ++ [c]); split; [by rewrite Hraw, map_app|]; split|].
      * intros _. by destruct zs.
      * intros z [Hz | ->%list_elem_of_singleton]%elem_of_app; [by apply Hmono, Hsrc|].
        right. exists o. split; [in_snoc|done].
      * split; [|split; [rewrite Hmax; by eexists|by destruct ops]].
        right. destruct Hmin as [->|(z & -> & o' & Ho' & Hr' & Hc')]; simpl.
        -- exists c. split; [done|]. exists o. split; [in_snoc|done].
        -- exists (Z.min z c). split; [done|].
           destruct (Z.min_spec z c) as [[_ ->]|[_ ->]].
           ++ exists o'. split; [in_snoc|done].
           ++ exists o. split; [in_snoc|done].
  - simpl. split; [exists (zs ++ [(-1)%Z]); split; [by rewrite Hraw, map_app|]; split|].
    + intros _. by destruct zs.
    + intros z [Hz | ->%list_elem_of_singleton]%elem_of_app; [by apply Hmono, Hsrc|].
      left. split; [done|]. exists o. split; [in_snoc|done].
    + split; [|split; [by eexists|by destruct ops]].
      destruct Hmin as [Hmin|(z & Hz & o' & Ho' & Hr')]; [by left|right].
      exists z. split; [done|]. exists o'. split; [in_snoc|done].
Qed.

(** X15.  On a line that holds an opcode, all of whose opcodes have an
    integer count, the array [counts()] returns holds integers in strictly
    increasing order, hence without duplicates, and each of them is the
    count of a reachable opcode of the line, or is -1 and stands for an
    unreachable opcode of the line. *)
Theorem Line_counts_are_sorted (l : Line) (cs : list jsnum) :
  line_opcodes l ≠ [] →
  Forall (λ ko, counted (snd ko) = true) (line_opcodes l) →
  Line_counts l = Some cs →
  ∃ zs, cs = map Int zs ∧ StronglySorted Z.lt zs
        ∧ ∀ z, z ∈ zs → count_from (map snd (line_opcodes l)) z.
Proof.
  intros Hne Hc. unfold Line_counts.
  destruct (counts_fold_Int (map snd (line_opcodes l)))
    as ((zs & Hraw & Hzs & Hsrc) & Hmin & (m & Hmax) & _); [by apply Forall_map|].
  destruct (strict_eq _ _ && _) eqn:Hsame.
  { intros [= <-]. destruct Hmin as [Hmin|(z & Hz & Ho)].
    - by rewrite Hmin, Hmax in Hsame.
    - exists [z]. rewrite Hz. split; [done|]. split; [repeat constructor|].
      intros x ->%list_elem_of_singleton. by right. }
  destruct (single_dead _).
  - destruct (line_opcodes l) as [|[k first] ?]; [done|].
    destruct (String.eqb _ _); [|done]. intros [= <-]. exists [].
    split; [done|]. split; [constructor|]. intros z Hz. by apply elem_of_nil in Hz.
  - intros [= <-]. rewrite Hraw.
    destruct (sort_counts_Int zs) as (zs1 & -> & Hs1 & Hin1).
    destruct (dedup_Int zs1) as (zs2 & -> & Hs2 & Hin2); [|done|].
    + intros ->. destruct zs as [|z zs'].
      * apply Hzs; [|done]. by destruct (line_opcodes l).
      * assert (z ∈ []) by (apply Hin1; by left). by apply elem_of_nil in H.
    + exists zs2. split; [done|]. split; [done|]. intros z Hz. by apply Hsrc, Hin1, Hin2.
Qed.

Lemma Line_counts_are_sorted_witness :
  ∃ zs, [Int 0; Int 3] = map Int zs ∧ StronglySorted Z.lt zs
        ∧ ∀ z, z ∈ zs → count_from (map snd (line_opcodes branch_line)) z.
Proof.
  apply (Line_counts_are_sorted branch_line).
  - done.
  - vm_compute. repeat constructor.
  - vm_compute. reflexivity.
Defined.

(** ** The coverage of sorted counts *)

(** X16.  On counts in strictly increasing order, none below -1,
    [coverage()] never runs off its end, and its value says: no count at all
    (the empty string), the single count -1 (dead), the single count 0
    (none), a count of 0 beside another count (some), and otherwise full,
    that is no count of 0 and a positive one, a count of -1 beside it
    notwithstanding. *)
Theorem coverage_of_sorted_counts (zs : list Z) :
  StronglySorted Z.lt zs → Forall (λ z, (-1 ≤ z)%Z) zs →
  let c := coverage_of (map Int zs) in
  (c = cov_empty ↔ zs = [])
  ∧ (c = cov_dead ↔ zs = [(-1)%Z])
  ∧ (c = cov_none ↔ zs = [0%Z])
  ∧ (c = cov_some ↔ 0%Z ∈ zs ∧ 2 ≤ length zs)
  ∧ (c = cov_full ↔ (0%Z ∉ zs) ∧ ∃ z, z ∈ zs ∧ (0 < z)%Z)
  ∧ c ≠ cov_undefined.
Proof.
  intros Hs Hlow c. subst c.
  destruct zs as [|z0 [|z1 rest]].
  - simpl. repeat split; try done.
    + intros [H _]. by apply elem_of_nil in H.
    + intros [_ (z & Hz & _)]. by apply elem_of_nil in Hz.
  - inversion Hlow as [|? ? H0 _]; subst. simpl.
    destruct (0 <? z0)%Z eqn:Hpos; [apply Z.ltb_lt in Hpos|apply Z.ltb_ge in Hpos].
    { split; [split; done|]. split; [split; [done|intros [= ->]; lia]|].
      split; [split; [done|intros [= ->]; lia]|].
      split; [split; [done|intros [_ Hl]; simpl in Hl; lia]|].
      split; [|done]. split; [|done]. intros _. split.
      - intros Hin%list_elem_of_singleton. lia.
      - exists z0. split; [by left|done]. }
    destruct (z0 =? 0)%Z eqn:Hz; [apply Z.eqb_eq in Hz as ->|apply Z.eqb_neq in Hz].
    { split; [split; done|]. split; [split; done|]. split; [split; done|].
      split; [split; [done|intros [_ Hl]; simpl in Hl; lia]|].
      split; [|done]. split; [done|]. intros [Hn _]. exfalso. apply Hn. by left. }
    assert (z0 = (-1)%Z) as -> by lia. simpl.
    split; [split; done|]. split; [split; done|]. split; [split; done|].
    split; [split; [done|intros [_ Hl]; simpl in Hl; lia]|].
    split; [|done]. split; [done|].
    intros [_ (z & Hz' & Hpos')]. apply list_elem_of_singleton in Hz'. lia.
  - inversion Hlow as [|? ? H0 Hlow']; subst. inversion Hlow' as [|? ? H1 _]; subst.
    inversion Hs as [|? ? Hs' Hall]; subst. inversion Hall as [|? ? H01 Hrest]; subst.
    inversion Hs' as [|? ? _ Hall1]; subst.
    assert (Hbig : ∀ z, z ∈ z0 :: z1 :: rest → z = z0 ∨ (z1 ≤ z)%Z).
    { intros z Hz. apply elem_of_cons in Hz as [Hz|Hz]; [by left|right].
      apply elem_of_cons in Hz as [Hz|Hz]; [lia|].
      rewrite Forall_forall in Hall1. apply Hall1 in Hz. lia. }
    cbn [map coverage_of js_gt strict_eq].
    destruct (0 <? z0)%Z eqn:Hpos; [apply Z.ltb_lt in Hpos|apply Z.ltb_ge in Hpos].
    { split; [split; done|]. split; [split; done|]. split; [split; done|].
      split; [split; [done|]|].
      - intros [Hin _]. apply Hbig in Hin. lia.
      - split; [|done]. split; [|done]. intros _. split.
        + intros Hin. apply Hbig in Hin. lia.
        + exists z0. split; [by left|done]. }
    destruct (z0 =? -1)%Z eqn:Hm; cbn [andb];
      [apply Z.eqb_eq in Hm as ->|apply Z.eqb_neq in Hm].
    + destruct (0 <? z1)%Z eqn:Hp1; [apply Z.ltb_lt in Hp1|apply Z.ltb_ge in Hp1].
      * split; [split; done|]. split; [split; done|]. split; [split; done|].
        split; [split; [done|]|].
        -- intros [Hin _]. apply Hbig in Hin. lia.
        -- split; [|done]. split; [|done]. intros _. split.
           ++ intros Hin. apply Hbig in Hin. lia.
           ++ exists z1. split; [right; by left|done].
      * assert (z1 = 0%Z) as -> by lia.
        split; [split; done|]. split; [split; done|]. split; [split; done|].
        split; [split; [|done]|].
        -- intros _. split; [right; by left|simpl; lia].
        -- split; [|done]. split; [done|]. intros [Hn _]. exfalso. apply Hn. right. by left.
    + assert (z0 = 0%Z) as -> by lia.
      split; [split; done|]. split; [split; done|]. split; [split; done|].
      split; [split; [|done]|].
      * intros _. split; [by left|simpl; lia].
      * split; [|done]. split; [done|]. intros [Hn _]. exfalso. apply Hn. by left.
Qed.

Lemma coverage_of_sorted_counts_witness :
  let c := coverage_of (map Int [(-1)%Z; 0%Z; 7%Z]) in
  (c = cov_empty ↔ [(-1)%Z; 0%Z; 7%Z] = [])
  ∧ (c = cov_dead ↔ [(-1)%Z; 0%Z; 7%Z] = [(-1)%Z])
  ∧ (c = cov_none ↔ [(-1)%Z; 0%Z; 7%Z] = [0%Z])
  ∧ (c = cov_some ↔ 0%Z ∈ [(-1)%Z; 0%Z; 7%Z] ∧ 2 ≤ length [(-1)%Z; 0%Z; 7%Z])
  ∧ (c = cov_full ↔ (0%Z ∉ [(-1)%Z; 0%Z; 7%Z]) ∧ ∃ z, z ∈ [(-1)%Z; 0%Z; 7%Z] ∧ (0 < z)%Z)
  ∧ c ≠ cov_undefined.
Proof.
  apply coverage_of_sorted_counts.
  - repeat constructor.
  - repeat constructor; lia.
Defined.

(** ** Files and their lines *)

Lemma lookup_alter_line g n m ls :
  lookup_line m (alter_line g n ls)
  = if (n =? m)%N then Some (g (default (new_Line n) (lookup_line n ls)))
    else lookup_line m ls.
Proof.
  induction ls as [|[k l] ls IH]; simpl.
  - by destruct (n =? m)%N.
  - destruct (k =? n)%N eqn:Hkn; simpl.
    + apply N.eqb_eq in Hkn as ->. by destruct (n =? m)%N.
    + rewrite IH. destruct (n =? m)%N eqn:Hnm; [|done].
      apply N.eqb_eq in Hnm as <-. by rewrite Hkn.
Qed.

(** X17.  [file.line(n)] creates the Line of number [n] when the file has
    none and returns the one it has otherwise; an update made through it is
    seen by the next lookup of [n], and the other lines are untouched. *)
Theorem File_line_lookup (f : File) (g : Line → Line) (n m : N) :
  lookup_line m (lines (File_line n g f))
  = if (n =? m)%N then Some (g (default (new_Line n) (lookup_line n (lines f))))
    else lookup_line m (lines f).
Proof.
  unfold File_line. simpl. induction (lines f) as [|[k l] ls IH]; simpl.
  - by destruct (n =? m)%N.
  - destruct (k =? n)%N eqn:Hkn; simpl.
    + apply N.eqb_eq in Hkn as ->. by destruct (n =? m)%N.
    + rewrite IH. destruct (n =? m)%N eqn:Hnm; [|done].
      apply N.eqb_eq in Hnm as <-. by rewrite Hkn.
Qed.

Lemma lookup_line_NoDup ls n line :
  NoDup (map fst ls) → (n, line) ∈ ls → lookup_line n ls = Some line.
Proof.
  induction ls as [|[k l] ls IH]; simpl; intros Hnd Hin.
  { by apply elem_of_nil in Hin. }
  inversion Hnd as [|? ? Hk Hnd']; subst.
  apply elem_of_cons in Hin as [[= <- <-]|Hin]; [by rewrite N.eqb_refl|].
  destruct (k =? n)%N eqn:Hkn; [|by apply IH].
  apply N.eqb_eq in Hkn as ->. exfalso. apply Hk.
  apply list_elem_of_fmap. by exists (n, line).
Qed.

Lemma class_of_cov c :
  (String.eqb (" " ++ cov_string c) " full" = cov_eqb c cov_full)
  ∧ (String.eqb (" " ++ cov_string c) " some" = cov_eqb c cov_some)
  ∧ (String.eqb (" " ++ cov_string c) " none" = cov_eqb c cov_none)
  ∧ (String.eqb (" " ++ cov_string c) " dead" = cov_eqb c cov_dead).
Proof. by destruct c. Qed.

Lemma File_coverage_loop_classes f ls a b c d t :
  (∀ n line, (n, line) ∈ ls → lookup_line n (lines f) = Some line) →
  File_coverage_loop ls (a, b, c, d) = Val t →
  t = (a + length (List.filter (class_is f " full") (map fst ls)),
       b + length (List.filter (class_is f " some") (map fst ls)),
       c + length (List.filter (class_is f " none") (map fst ls)),
       d + length (List.filter (class_is f " dead") (map fst ls))).
Proof.
  revert a b c d. induction ls as [|[n line] ls IH]; intros a b c d Hls; simpl.
  { intros [= <-]. by rewrite !Nat.add_0_r. }
  destruct (Line_coverage line) as [cv|] eqn:Hcv; [|done].
  assert (Hcls : ∀ x, class_is f x n = String.eqb (" " ++ cov_string cv) x).
  { intros x. unfold class_is, coverageClass.
    rewrite (Hls n line) by (by left). by rewrite Hcv. }
  rewrite !Hcls. destruct (class_of_cov cv) as (-> & -> & -> & ->).
  assert (Hls' : ∀ n' line', (n', line') ∈ ls → lookup_line n' (lines f) = Some line').
  { intros n' line' Hin. apply Hls. by right. }
  destruct cv; simpl; intros H; apply (IH _ _ _ _ Hls') in H; rewrite H;
    repeat (f_equal; try lia).
Qed.

(** X18.  The four numbers of [File.prototype.coverage] are the numbers of
    lines to which [coverageClass] gives the classes full, some, none and
    dead, on a file with one Line per line number. *)
Theorem File_coverage_counts_the_classes (f : File) (t : tally) :
  NoDup (map fst (lines f)) →
  File_coverage f = Val t →
  t = (count_class f " full", count_class f " some",
       count_class f " none", count_class f " dead").
Proof.
  intros Hnd H. unfold File_coverage in H.
  apply (File_coverage_loop_classes f) in H; [done|].
  intros n line. by apply lookup_line_NoDup.
Qed.

Lemma File_coverage_counts_the_classes_witness :
  File_coverage (file_of two_files_trace "a.js") = Val (4, 0, 0, 0)
  ∧ (4, 0, 0, 0) = (count_class (file_of two_files_trace "a.js") " full",
                    count_class (file_of two_files_trace "a.js") " some",
                    count_class (file_of two_files_trace "a.js") " none",
                    count_class (file_of two_files_trace "a.js") " dead").
Proof.
  split; [vm_compute; reflexivity|].
  apply File_coverage_counts_the_classes.
  - apply (bool_decide_unpack _). vm_compute. reflexivity.
  - vm_compute. reflexivity.
Defined.

(** ** Lines without a reachable opcode *)

(** X19.  The classes of a line that holds one opcode, an unreachable one:
    when the opcode is a lone [stop] the line is insignificant, its coverage
    class is a single space and its profile class [pNaN]; otherwise
    [counts()] is [undefined] and both methods throw. A line the file does
    not have gets the empty class from both. *)
Theorem classes_of_a_lone_unreachable_opcode (floor_log10 : Z → Z) (f : File)
    (n : N) :
  (lookup_line n (lines f) = None →
   coverageClass f n = Val ""%string
   ∧ profileClass floor_log10 f n = Val ""%string)
  ∧ (∀ (line : Line) (key : string) (o : Opcode),
       lookup_line n (lines f) = Some line →
       line_opcodes line = [(key, o)] →
       op_reachable o = false →
       if String.eqb (op_assembly o) "stop"
       then coverageClass f n = Val " "%string
            ∧ profileClass floor_log10 f n = Val " pNaN"%string
       else coverageClass f n = Exn ∧ profileClass floor_log10 f n = Exn).
Proof.
  split.
  - intros H. unfold coverageClass, profileClass. by rewrite H.
  - intros line key o Hl Hops Hr. unfold coverageClass, profileClass. rewrite Hl.
    destruct (String.eqb_spec (op_assembly o) "stop") as [Hs|Hs].
    + assert (Hc : Line_counts line = Some []).
      { unfold Line_counts. rewrite Hops. simpl. unfold counts_step. rewrite Hr. simpl.
        by rewrite Hs. }
      unfold Line_coverage. rewrite Hc. done.
    + destruct (Line_counts_single_unreachable line key o Hops Hr Hs) as [-> ->]. done.
Qed.

Lemma classes_of_a_lone_unreachable_opcode_witness :
  (coverageClass stop_file 5 = Val " "%string
   ∧ profileClass (λ _, 0%Z) stop_file 5 = Val " pNaN"%string)
  ∧ (coverageClass stop_file 2 = Exn ∧ profileClass (λ _, 0%Z) stop_file 2 = Exn).
Proof.
  pose proof (classes_of_a_lone_unreachable_opcode (λ _, 0%Z) stop_file 5) as [_ H5].
  pose proof (classes_of_a_lone_unreachable_opcode (λ _, 0%Z) stop_file 2) as [_ H2].
  split.
  - apply (H5 stop_line "a.js:1:6"%string (opcode_of 6 0 5 "stop" false false)); reflexivity.
  - apply (H2 dead_nop_line "a.js:1:1"%string (opcode_of 1 0 2 "nop" false false)); reflexivity.
Defined.

Lemma sort_insert_dead k :
  sort_insert (Int (-1)) (replicate k (Int (-1))) = replicate (S k) (Int (-1)).
Proof. induction k as [|k IH]; simpl; [done|]. by rewrite IH. Qed.

Lemma sort_counts_dead k : sort_counts (replicate k (Int (-1))) = replicate k (Int (-1)).
Proof.
  unfold sort_counts.
  assert (H : ∀ j, fold_left (λ acc x, sort_insert x acc) (replicate k (Int (-1)))
                     (replicate j (Int (-1))) = replicate (j + k) (Int (-1))).
  { induction k as [|k IH]; intros j.
    - by rewrite Nat.add_0_r.
    - cbn [replicate fold_left]. rewrite sort_insert_dead, IH.
      by rewrite Nat.add_succ_r. }
  apply (H 0).
Qed.

Lemma dedup_from_dead k : dedup_from (Int (-1)) (replicate k (Int (-1))) = [].
Proof. induction k as [|k IH]; simpl; done. Qed.

Lemma counts_fold_dead ops st :
  Forall (λ o, op_reachable o = false) ops →
  let st' := fold_left counts_step ops st in
  cs_min st' = cs_min st ∧ cs_max st' = cs_max st
  ∧ rawcounts st' = rawcounts st ++ replicate (length ops) (Int (-1)).
Proof.
  intros H. revert st. induction H as [|o ops Ho _ IH]; intros st; simpl.
  { by rewrite app_nil_r. }
  destruct (IH (counts_step st o)) as (H1 & H2 & H3).
  rewrite H1, H2, H3. unfold counts_step. rewrite Ho. simpl.
  by rewrite <- app_assoc.
Qed.

(** X20.  A line with two opcodes or more, none of them reachable, is dead:
    [counts()] is the array that holds -1 alone and [coverage()] is "dead".
    With a single opcode the line is not reported dead. *)
Theorem dead_lines_have_two_opcodes (l : Line) :
  2 ≤ length (line_opcodes l) →
  Forall (λ ko, op_reachable (snd ko) = false) (line_opcodes l) →
  Line_counts l = Some [Int (-1)] ∧ Line_coverage l = Val cov_dead.
Proof.
  intros Hlen Hdead.
  assert (Hc : Line_counts l = Some [Int (-1)]).
  { unfold Line_counts.
    destruct (counts_fold_dead (map snd (line_opcodes l)) counts_init)
      as (H1 & H2 & H3); [by apply Forall_map|].
    rewrite H1, H2, H3, length_map. simpl.
    destruct (length (line_opcodes l)) as [|[|k]] eqn:Hk; [lia..|].
    cbn [replicate single_dead]. rewrite <- !replicate_S, sort_counts_dead.
    cbn [replicate dedup]. by rewrite <- replicate_S, dedup_from_dead. }
  split; [done|]. unfold Line_coverage. by rewrite Hc.
Qed.

Lemma dead_lines_have_two_opcodes_witness :
  Line_counts dead_line = Some [Int (-1)] ∧ Line_coverage dead_line = Val cov_dead.
Proof.
  apply dead_lines_have_two_opcodes.
  - simpl. lia.
  - repeat constructor.
Defined.

(** ** From Scripts to Files *)

Lemma has_key_app {A} k (l1 l2 : list (string * A)) :
  has_key k (l1 ++ l2) = has_key k l1 || has_key k l2.
Proof. unfold has_key. apply existsb_app. Qed.

Lemma addOpcode_keeps_keys k o : keeps_keys (addOpcode k o).
Proof.
  intros l k' H. unfold addOpcode. destruct (has_key k (line_opcodes l)); [done|].
  simpl. by rewrite has_key_app, H.
Qed.

Lemma addOpcode_has_key k o l : has_key k (line_opcodes (addOpcode k o l)) = true.
Proof.
  unfold addOpcode. destruct (has_key k (line_opcodes l)) eqn:H; [done|].
  simpl. rewrite has_key_app. simpl. by rewrite String.eqb_refl, orb_true_r.
Qed.

Lemma File_line_holds g n f m k :
  keeps_keys g → holds_key f m k → holds_key (File_line n g f) m k.
Proof.
  intros Hg (line & Hl & Hk). unfold holds_key, File_line. simpl.
  rewrite lookup_alter_line.
  destruct (n =? m)%N eqn:Hnm.
  - apply N.eqb_eq in Hnm as ->. rewrite Hl. simpl. eauto.
  - eauto.
Qed.

Lemma fold_addOpcode_holds (key : Opcode → string) ops f :
  let f' := fold_left (λ f o, File_line (op_srcline o) (addOpcode (key o) o) f) ops f in
  (∀ m k, holds_key f m k → holds_key f' m k)
  ∧ ∀ o, o ∈ ops → holds_key f' (op_srcline o) (key o).
Proof.
  revert f. induction ops as [|o ops IH]; intros f; simpl.
  { split; [done|]. intros o Ho. by apply elem_of_nil in Ho. }
  destruct (IH (File_line (op_srcline o) (addOpcode (key o) o) f)) as [IH1 IH2].
  split.
  - intros m k H. apply IH1, File_line_holds; [apply addOpcode_keeps_keys|done].
  - intros o' [->|Ho']%elem_of_cons; [|by apply IH2].
    apply IH1. unfold holds_key, File_line. simpl.
    rewrite lookup_alter_line, N.eqb_refl.
    eexists. split; [done|]. apply addOpcode_has_key.
Qed.

Lemma assoc_assoc_set {A} k (v : A) l : assoc k (assoc_set k v l) = Some v.
Proof.
  induction l as [|[k' v'] l IH]; simpl.
  - by rewrite String.eqb_refl.
  - destruct (String.eqb k k') eqn:Hk; simpl; by rewrite Hk.
Qed.

(** X21.  No opcode of a Script is lost on the way to its File: after the
    Script has been added, the Line of the source line of each of its
    opcodes holds an opcode under the key of that opcode, the name of the
    Script followed by the address (the opcode itself, unless the key was
    taken already). *)
Theorem add_script_stores_every_opcode (files files' : list (string * File))
    (script : Script) (o : Opcode) :
  add_script files script = Val files' →
  o ∈ opcodes script →
  ∃ file, assoc (str id (filename script)) files' = Some file
          ∧ holds_key file (op_srcline o)
              (str id (name script) ++ ":" ++ dec (op_pc o))%string.
Proof.
  unfold add_script. intros H Ho.
  destruct (assoc _ _) as [file|]; [|done].
  destruct (head (opcodes script)) as [first|]; [|done].
  destruct (last (opcodes script)) as [final|]; [|done].
  injection H as <-. eexists. split; [apply assoc_assoc_set|].
  assert (Hflag : ∀ g, (∀ l, line_opcodes (g l) = line_opcodes l) → keeps_keys g).
  { intros g Hg l k Hk. by rewrite Hg. }
  apply File_line_holds; [by apply Hflag|].
  apply File_line_holds; [by apply Hflag|].
  by apply (fold_addOpcode_holds
              (λ o, (str id (name script) ++ ":" ++ dec (op_pc o))%string)).
Qed.

Lemma add_script_stores_every_opcode_witness :
  ∃ files' file,
    add_script [] loop_script = Val files'
    ∧ assoc (str id (filename loop_script)) files' = Some file
    ∧ holds_key file 4 (str id (name loop_script) ++ ":" ++ dec 4)%string.
Proof.
  eexists.
  destruct (add_script_stores_every_opcode [] _ loop_script
              (opcode_of 4 1 4 "stop" false false) eq_refl) as (file & H1 & H2).
  - vm_compute. do 4 right. by left.
  - exists file. split; [reflexivity|]. split; [exact H1|exact H2].
Defined.

(** *** One Line per line number *)

Lemma alter_line_tidy g n ls :
  (∀ l, number (g l) = number l) →
  (∀ l, line_opcodes l ≠ [] → line_opcodes (g l) ≠ []) →
  (lookup_line n ls = None → line_opcodes (g (new_Line n)) ≠ []) →
  NoDup (map fst ls) →
  Forall (λ nl, number (snd nl) = fst nl ∧ line_opcodes (snd nl) ≠ []) ls →
  NoDup (map fst (alter_line g n ls))
  ∧ Forall (λ nl, number (snd nl) = fst nl ∧ line_opcodes (snd nl) ≠ [])
      (alter_line g n ls).
Proof.
  intros Hnum Hkeep. induction ls as [|[m l] ls IH]; simpl; intros Hnew Hnd Hok.
  - split; [apply NoDup_singleton|]. constructor; [|constructor]. simpl.
    split; [by rewrite Hnum|by apply Hnew].
  - apply NoDup_cons in Hnd as [Hnotin Hnd'].
    apply Forall_cons in Hok as [[Hm Hl] Hok']. simpl in Hm, Hl.
    destruct (N.eqb_spec m n) as [Heq|Hne]; simpl.
    + split; [by apply NoDup_cons|]. constructor; [|done]. simpl.
      split; [by rewrite Hnum|by apply Hkeep].
    + assert (Hnew' : lookup_line n ls = None → line_opcodes (g (new_Line n)) ≠ []).
      { intros H. apply Hnew. simpl. by destruct (N.eqb_spec m n). }
      destruct (IH Hnew' Hnd' Hok') as [H1 H2]. split.
      * apply NoDup_cons. split; [|done].
        intros Hin. apply alter_line_keys in Hin as [->|?]; done.
      * constructor; [by split|done].
Qed.

Lemma File_line_tidy n g f :
  (∀ l, number (g l) = number l) →
  (∀ l, line_opcodes l ≠ [] → line_opcodes (g l) ≠ []) →
  (lookup_line n (lines f) = None → line_opcodes (g (new_Line n)) ≠ []) →
  tidy f → tidy (File_line n g f).
Proof. intros H1 H2 H3 [H4 H5]. by apply alter_line_tidy. Qed.

Lemma addOpcode_tidy k o :
  (∀ l, number (addOpcode k o l) = number l)
  ∧ (∀ l, line_opcodes l ≠ [] → line_opcodes (addOpcode k o l) ≠ [])
  ∧ (∀ n, line_opcodes (addOpcode k o (new_Line n)) ≠ []).
Proof.
  unfold addOpcode. split; [|split].
  - intros l. by destruct (has_key _ _).
  - intros l Hl. destruct (has_key _ _); [done|]. simpl. by destruct (line_opcodes l).
  - done.
Qed.

Lemma fold_addOpcode_tidy (key : Opcode → string) ops f :
  tidy f →
  tidy (fold_left (λ f o, File_line (op_srcline o) (addOpcode (key o) o) f) ops f).
Proof.
  revert f. induction ops as [|o ops IH]; intros f Hf; simpl; [done|].
  apply IH. destruct (addOpcode_tidy (key o) o) as (H1 & H2 & H3).
  by apply File_line_tidy.
Qed.

Lemma add_script_tidy files script files' :
  Forall (λ kv, tidy (snd kv)) files →
  add_script files script = Val files' →
  Forall (λ kv, tidy (snd kv)) files'.
Proof.
  intros Hfiles. unfold add_script.
  set (fn := str id (filename script)).
  set (files1 := if negb (has_key fn files || inherited fn)
                 then files ++ [(fn, new_File fn)] else files).
  assert (H1 : Forall (λ kv, tidy (snd kv)) files1).
  { unfold files1. destruct (negb _); [|done]. apply Forall_app. split; [done|].
    constructor; [|constructor]. split; simpl; constructor. }
  destruct (assoc fn files1) as [file|] eqn:Hfile; [|done].
  pose proof (assoc_Forall tidy _ _ _ H1 Hfile) as Hf.
  destruct (head (opcodes script)) as [first|] eqn:Hfirst; [|done].
  destruct (last (opcodes script)) as [final|] eqn:Hfinal; [|done].
  intros [= <-]. apply assoc_set_Forall; [|done].
  set (key := λ o : Opcode, (str id (name script) ++ ":" ++ dec (op_pc o))%string).
  pose proof (fold_addOpcode_holds key (opcodes script) file) as [_ Hholds].
  cbv zeta in Hholds.
  assert (Hin1 : first ∈ opcodes script).
  { destruct (opcodes script); simplify_eq/=. by left. }
  assert (Hin2 : final ∈ opcodes script).
  { apply last_Some in Hfinal as [l' ->]. apply elem_of_app. right. by left. }
  assert (Hflag : ∀ g, (∀ l, line_opcodes (g l) = line_opcodes l) → keeps_keys g).
  { intros g Hg l k Hk. by rewrite Hg. }
  apply File_line_tidy; [done|done| |].
  { intros Hnone.
    destruct (File_line_holds set_startFunc (op_srcline first) _ _ _
                (Hflag _ (λ _, eq_refl)) (Hholds final Hin2)) as (line & Hl & _).
    discriminate (eq_trans (eq_sym Hl) Hnone). }
  apply File_line_tidy; [done|done| |].
  { intros Hnone. destruct (Hholds first Hin1) as (line & Hl & _).
    discriminate (eq_trans (eq_sym Hl) Hnone). }
  by apply fold_addOpcode_tidy.
Qed.

Lemma add_scripts_tidy files l files' :
  Forall (λ kv, tidy (snd kv)) files →
  add_scripts files l = Val files' →
  Forall (λ kv, tidy (snd kv)) files'.
Proof.
  revert files. induction l as [|s l IH]; intros files Hfiles; simpl; [by intros [= <-]|].
  destruct (add_script files s) as [files1|] eqn:H1; [|done].
  apply IH. by eapply add_script_tidy.
Qed.

(** X22.  Every File [parseData] builds from a text has one Line per line
    number, and each of its Lines has the number it is stored under and
    holds an opcode. These are the conditions under which the counts of a
    line are sorted and the numbers of a file count its classes. *)
Theorem files_of_a_text_are_tidy (rawdata : string) :
  Forall (λ kv, tidy (snd kv)) (files_of rawdata).
Proof.
  unfold files_of. destruct (processLines _ _) as [p| |]; [|constructor..].
  destruct (add_scripts [] (scripts p)) as [files|] eqn:H; [|constructor].
  eapply add_scripts_tidy; [|exact H]. constructor.
Qed.

(** ** Comparing counts *)

Lemma strict_eq_true x y : strict_eq x y = true ↔ x = y ∧ x ≠ NaN.
Proof.
  destruct x, y; simpl; split; try done; try (by intros [? ?]).
  - intros ->%Z.eqb_eq. done.
  - intros [[= ->] _]. apply Z.eqb_refl.
Qed.

Lemma equalArrays_same a b : equalArrays a b = true → a = b.
Proof.
  revert b. induction a as [|x a IH]; intros [|y b]; simpl; try done.
  intros [Hx Ha]%andb_true_iff. apply strict_eq_true in Hx as [-> _].
  by rewrite (IH b Ha).
Qed.

(** X23.  [equalArrays] holds of two arrays of numbers exactly when they are
    the same sequence and hold no [NaN]: an array with a [NaN] is not equal
    to itself. *)
Theorem equalArrays_iff (a b : list jsnum) :
  equalArrays a b = true ↔ a = b ∧ NaN ∉ a.
Proof.
  revert b. induction a as [|x a IH]; intros [|y b]; simpl.
  - split; [intros _; split; [done|apply not_elem_of_nil]|done].
  - split; [done|by intros [? _]].
  - split; [done|by intros [? _]].
  - rewrite andb_true_iff, strict_eq_true, IH, not_elem_of_cons. split.
    + intros [[-> Hx] [-> Ha]]. split; [done|]. split; [congruence|done].
    + intros [[= -> ->] [Hx Ha]]. split; [split; [done|congruence]|done].
Qed.

Lemma cov_eqb_eq a b : cov_eqb a b = true ↔ a = b.
Proof. destruct a, b; simpl; split; done. Qed.

Lemma unchanged_same ol nl :
  changed ol nl = false → coverage nl = coverage ol ∧ counts nl = counts ol.
Proof.
  unfold changed. intros [H1 H2]%orb_false_iff.
  apply negb_false_iff in H1, H2. apply cov_eqb_eq in H1.
  by apply equalArrays_same in H2.
Qed.

Lemma reconciled_fields ol nl :
  coverage (reconciled ol nl) = coverage nl
  ∧ counts (reconciled ol nl) = counts nl
  ∧ ld_startFunc (reconciled ol nl) = ld_startFunc ol
  ∧ ld_endFunc (reconciled ol nl) = ld_endFunc ol.
Proof.
  unfold reconciled. destruct (changed ol nl) eqn:Hc; [done|].
  by destruct (unchanged_same _ _ Hc) as [-> ->].
Qed.

(** ** Updating a known file *)

Lemma array_get_lookup {A} (a : array A) i x :
  array_get a i = Some x ↔ a !! i = Some (Some x).
Proof.
  unfold array_get. destruct (a !! i) as [[y|]|]; split; try done; by intros [= ->].
Qed.

(** The loop of the reconciliation, from position [i] on. *)
Lemma reconcile_lines_spec filename newlines i old evs :
  match reconcile_lines filename i newlines (old, evs) with
  | Ok (old', evs') =>
      (∀ j nl, newlines !! j = Some (Some nl) → is_Some (array_get old (i + j)))
      ∧ (∀ t, t < i → array_get old' t = array_get old t)
      ∧ (∀ j, array_get old' (i + j)
              = match newlines !! j with
                | Some (Some nl) => (λ ol, reconciled ol nl) <$> array_get old (i + j)
                | _ => array_get old (i + j)
                end)
      ∧ ∃ sent, evs' = evs ++ sent
          ∧ ∀ e, e ∈ sent ↔
                 ∃ j nl ol, newlines !! j = Some (Some nl)
                            ∧ array_get old (i + j) = Some ol
                            ∧ changed ol nl = true
                            ∧ e = onLineUpdate filename (i + j) (overwrite ol nl)
  | TypeError (old', evs') =>
      (∃ j nl, newlines !! j = Some (Some nl) ∧ array_get old (i + j) = None)
      ∧ (∀ t, is_Some (array_get old t) → is_Some (array_get old' t))
      ∧ ∃ sent, evs' = evs ++ sent
  | OutOfFuel => False
  end.
Proof.
  revert i old evs. induction newlines as [|[nl|] rest IH]; intros i old evs.
  - cbn [reconcile_lines]. split; [intros j nl H; by rewrite lookup_nil in H|].
    split; [done|]. split; [intros j; by rewrite lookup_nil|].
    exists []. split; [by rewrite app_nil_r|].
    intros e. split; [by intros H%elem_of_nil|].
    intros (j & nl & ol & H & _). by rewrite lookup_nil in H.
  - cbn [reconcile_lines]. destruct (array_get old i) as [ol|] eqn:Hol.
    2: { split; [exists 0, nl; by rewrite Nat.add_0_r|]. split; [|by eexists].
         intros t Ht. rewrite array_get_set. by case_decide. }
    set (old1 := if changed ol nl then array_set i (overwrite ol nl) old else old).
    set (evs1 := if changed ol nl then evs ++ [onLineUpdate filename i (overwrite ol nl)]
                 else evs).
    assert (Hrec : reconcile_lines filename (S i) rest (old1, evs1)
                   = (if negb (cov_eqb (coverage nl) (coverage ol))
                         || negb (equalArrays (counts nl) (counts ol))
                      then reconcile_lines filename (S i) rest
                             (array_set i (overwrite ol nl) old,
                              evs ++ [onLineUpdate filename i (overwrite ol nl)])
                      else reconcile_lines filename (S i) rest (old, evs))).
    { unfold old1, evs1, changed. by destruct (_ || _). }
    rewrite <- Hrec. clear Hrec.
    assert (Hne : ∀ t, t ≠ i → array_get old1 t = array_get old t).
    { intros t Ht. unfold old1. destruct (changed ol nl); [|done].
      rewrite array_get_set. by case_decide. }
    assert (Hi : array_get old1 i = Some (reconciled ol nl)).
    { unfold old1, reconciled. destruct (changed ol nl); [|done].
      rewrite array_get_set. by case_decide. }
    specialize (IH (S i) old1 evs1).
    destruct (reconcile_lines filename (S i) rest (old1, evs1)) as [[old' evs']|[old' evs']|];
      [| |done].
    + destruct IH as (Hall & Hlow & Hget & sent & -> & Hsent). split; [|split; [|split]].
      * intros [|j] nl' Hj; [rewrite Nat.add_0_r; by eexists|].
        simpl in Hj. rewrite <- Nat.add_succ_comm, <- Hne by lia. by eapply Hall.
      * intros t Ht. rewrite Hlow, Hne by lia. done.
      * intros [|j]; simpl.
        -- rewrite Nat.add_0_r, Hlow, Hi, Hol by lia. done.
        -- rewrite <- Nat.add_succ_comm, Hget, Hne by lia. done.
      * exists ((if changed ol nl then [onLineUpdate filename i (overwrite ol nl)] else [])
                ++ sent).
        split; [unfold evs1; destruct (changed ol nl); by rewrite <- ?app_assoc|].
        intros e. rewrite elem_of_app, Hsent. split.
        -- intros [He|(j & nl' & ol' & Hj & Hol' & Hc & ->)].
           ++ destruct (changed ol nl) eqn:Hc; [|by apply elem_of_nil in He].
              apply list_elem_of_singleton in He as ->.
              exists 0, nl, ol. by rewrite Nat.add_0_r.
           ++ exists (S j), nl', ol'. rewrite <- Nat.add_succ_comm.
              rewrite Hne in Hol' by lia. done.
        -- intros ([|j] & nl' & ol' & Hj & Hol' & Hc & ->).
           ++ left. simpl in Hj. injection Hj as <-. rewrite Nat.add_0_r in *.
              rewrite Hol in Hol'. injection Hol' as <-. rewrite Hc.
              by apply list_elem_of_singleton.
           ++ right. exists j, nl', ol'. simpl in Hj.
              rewrite <- Nat.add_succ_comm in *. rewrite Hne by lia. done.
    + destruct IH as ((j & nl' & Hj & Hnone) & Hkept & sent & ->). split; [|split].
      * exists (S j), nl'. rewrite <- Nat.add_succ_comm. rewrite Hne in Hnone by lia. done.
      * intros t Ht. apply Hkept. destruct (decide (t = i)) as [->|Hti].
        -- rewrite Hi. by eexists.
        -- by rewrite Hne.
      * exists ((if changed ol nl then [onLineUpdate filename i (overwrite ol nl)] else [])
                ++ sent).
        unfold evs1; destruct (changed ol nl); by rewrite <- ?app_assoc.
  - cbn [reconcile_lines]. specialize (IH (S i) old evs).
    destruct (reconcile_lines filename (S i) rest (old, evs)) as [[old' evs']|[old' evs']|];
      [| |done].
    + destruct IH as (Hall & Hlow & Hget & sent & -> & Hsent). split; [|split; [|split]].
      * intros [|j] nl' Hj; [done|]. simpl in Hj.
        rewrite <- Nat.add_succ_comm. by eapply Hall.
      * intros t Ht. apply Hlow. lia.
      * intros [|j]; simpl.
        -- rewrite Nat.add_0_r. apply Hlow. lia.
        -- rewrite <- Nat.add_succ_comm. apply Hget.
      * exists sent. split; [done|]. intros e. rewrite Hsent. split.
        -- intros (j & nl' & ol' & Hj & Hol' & Hc & ->).
           exists (S j), nl', ol'. by rewrite <- Nat.add_succ_comm.
        -- intros ([|j] & nl' & ol' & Hj & Hol' & Hc & ->); [done|].
           exists j, nl', ol'. simpl in Hj. by rewrite <- Nat.add_succ_comm in *.
    + destruct IH as ((j & nl' & Hj & Hnone) & Hkept & sent & ->). split; [|split].
      * exists (S j), nl'. by rewrite <- Nat.add_succ_comm.
      * done.
      * by exists sent.
Qed.

Lemma tally_eqb_eq a b : tally_eqb a b = true ↔ a = b.
Proof.
  destruct a as [[[a0 a1] a2] a3], b as [[[b0 b1] b2] b3]. simpl.
  rewrite !andb_true_iff, !Nat.eqb_eq. split.
  - intros [[[-> ->] ->] ->]. done.
  - intros [= -> -> -> ->]. done.
Qed.

(** X24.  [update_file] returns exactly when every line of the new snapshot
    is a line of the stored one, and throws otherwise: a line the stored
    snapshot lacks is adopted, and then read as if it had been there. *)
Theorem update_file_returns_iff (self : Coverage) (filename : string)
    (olddata filedata : FileData) :
  match update_file self filename olddata filedata with
  | Ok _ =>
      ∀ i, is_Some (array_get (fd_lines filedata) i) →
           is_Some (array_get (fd_lines olddata) i)
  | TypeError _ =>
      ∃ i, is_Some (array_get (fd_lines filedata) i)
           ∧ array_get (fd_lines olddata) i = None
  | OutOfFuel => False
  end.
Proof.
  unfold update_file.
  pose proof (reconcile_lines_spec filename (fd_lines filedata) 0 (fd_lines olddata)
                (triggered self)) as H.
  destruct (reconcile_lines _ _ _ _) as [[old evs]|[old evs]|]; [| |done].
  - destruct H as (Hall & _).
    assert (Hok : ∀ i, is_Some (array_get (fd_lines filedata) i) →
                       is_Some (array_get (fd_lines olddata) i)).
    { intros i [nl Hi]. apply array_get_lookup in Hi. by apply (Hall i nl). }
    by destruct (negb _).
  - destruct H as ((j & nl & Hj & Hnone) & _). exists j. split; [|done].
    exists nl. by apply array_get_lookup.
Qed.

(** X25.  After an update that returns, the stored snapshot of the file has,
    for every line of the new snapshot, the new coverage and counts and the
    function marks it had before; its other lines are as they were; its four
    numbers are those of its lines; and no other file of the engine has
    changed. *)
Theorem update_file_stores_new_counts (self self' : Coverage) (filename : string)
    (olddata filedata : FileData) :
  update_file self filename olddata filedata = Ok self' →
  ∃ fd',
    filenames self' !! filename = Some fd'
    ∧ (∀ i, array_get (fd_lines filedata) i = None →
            array_get (fd_lines fd') i = array_get (fd_lines olddata) i)
    ∧ (∀ i nl, array_get (fd_lines filedata) i = Some nl →
               ∃ ol l, array_get (fd_lines olddata) i = Some ol
                       ∧ array_get (fd_lines fd') i = Some l
                       ∧ coverage l = coverage nl ∧ counts l = counts nl
                       ∧ ld_startFunc l = ld_startFunc ol
                       ∧ ld_endFunc l = ld_endFunc ol)
    ∧ tally_of fd' = recount (fd_lines fd') (0, 0, 0, 0)
    ∧ (∀ n, n ≠ filename → filenames self' !! n = filenames self !! n)
    ∧ _listeners self' = _listeners self.
Proof.
  unfold update_file.
  pose proof (reconcile_lines_spec filename (fd_lines filedata) 0 (fd_lines olddata)
                (triggered self)) as H.
  destruct (reconcile_lines _ _ _ _) as [[old evs]|[old evs]|]; [|done..].
  destruct H as (Hall & _ & Hget & _).
  assert (Habsent : ∀ i, array_get (fd_lines filedata) i = None →
                         array_get old i = array_get (fd_lines olddata) i).
  { intros i Hi. specialize (Hget i). simpl in Hget. rewrite Hget.
    destruct (fd_lines filedata !! i) as [[nl|]|] eqn:Hl; try done.
    apply array_get_lookup in Hl. congruence. }
  assert (Hpresent : ∀ i nl, array_get (fd_lines filedata) i = Some nl →
            ∃ ol l, array_get (fd_lines olddata) i = Some ol ∧ array_get old i = Some l
                    ∧ coverage l = coverage nl ∧ counts l = counts nl
                    ∧ ld_startFunc l = ld_startFunc ol ∧ ld_endFunc l = ld_endFunc ol).
  { intros i nl Hi. apply array_get_lookup in Hi.
    destruct (Hall i nl Hi) as [ol Hol]. simpl in Hol.
    specialize (Hget i). simpl in Hget. rewrite Hi, Hol in Hget.
    exists ol, (reconciled ol nl). split; [done|]. split; [done|].
    apply reconciled_fields. }
  destruct (recount old (0, 0, 0, 0)) as [[[r0 r1] r2] r3] eqn:Hrec.
  destruct (negb (tally_eqb _ _)) eqn:Ht; intros [= <-]; simpl.
  - eexists. rewrite lookup_insert_eq. split; [done|]. simpl.
    split; [done|]. split; [done|]. split; [done|].
    split; [|done]. intros n Hn. by rewrite !lookup_insert_ne.
  - eexists. rewrite lookup_insert_eq. split; [done|]. simpl.
    split; [done|]. split; [done|].
    split; [|split; [|done]].
    + apply negb_false_iff, tally_eqb_eq in Ht. rewrite Hrec. done.
    + intros n Hn. by rewrite lookup_insert_ne.
Qed.

Lemma update_file_stores_new_counts_witness :
  let self := after listening known_file_trace in
  let self' := after self idle_trace in
  let olddata := snapshot_of known_file_trace "a.js" in
  let filedata := snapshot_of idle_trace "a.js" in
  ∃ fd',
    filenames self' !! "a.js"%string = Some fd'
    ∧ (∀ i, array_get (fd_lines filedata) i = None →
            array_get (fd_lines fd') i = array_get (fd_lines olddata) i)
    ∧ (∀ i nl, array_get (fd_lines filedata) i = Some nl →
               ∃ ol l, array_get (fd_lines olddata) i = Some ol
                       ∧ array_get (fd_lines fd') i = Some l
                       ∧ coverage l = coverage nl ∧ counts l = counts nl
                       ∧ ld_startFunc l = ld_startFunc ol
                       ∧ ld_endFunc l = ld_endFunc ol)
    ∧ tally_of fd' = recount (fd_lines fd') (0, 0, 0, 0)
    ∧ (∀ n, n ≠ "a.js"%string → filenames self' !! n = filenames self !! n)
    ∧ _listeners self' = _listeners self.
Proof.
  apply (update_file_stores_new_counts (after listening known_file_trace)).
  vm_compute. reflexivity.
Defined.

(** X26.  The events of an update that returns. A line event is sent exactly
    for the lines whose coverage or counts differ from the stored ones; it
    carries the array index of the line, which is the line number minus one,
    and the stored line with its new coverage and counts. A file event is
    sent, after the line events, exactly when the numbers of the stored
    lines differ from the stored numbers. No other event is sent. *)
Theorem update_file_events (self self' : Coverage) (filename : string)
    (olddata filedata : FileData) :
  update_file self filename olddata filedata = Ok self' →
  ∃ sent updates,
    triggered self' = triggered self ++ sent ++ updates
    ∧ (∀ e, e ∈ sent ↔
            ∃ i nl ol, array_get (fd_lines filedata) i = Some nl
                       ∧ array_get (fd_lines olddata) i = Some ol
                       ∧ changed ol nl = true
                       ∧ e = onLineUpdate filename i (overwrite ol nl))
    ∧ updates
      = match filenames self' !! filename with
        | Some fd' =>
            if tally_eqb (tally_of fd') (tally_of olddata) then []
            else [onScriptUpdate filename fd']
        | None => []
        end.
Proof.
  unfold update_file.
  pose proof (reconcile_lines_spec filename (fd_lines filedata) 0 (fd_lines olddata)
                (triggered self)) as H.
  destruct (reconcile_lines _ _ _ _) as [[old evs]|[old evs]|]; [|done..].
  destruct H as (_ & _ & _ & sent & -> & Hsent).
  assert (Hsent' : ∀ e, e ∈ sent ↔
            ∃ i nl ol, array_get (fd_lines filedata) i = Some nl
                       ∧ array_get (fd_lines olddata) i = Some ol
                       ∧ changed ol nl = true
                       ∧ e = onLineUpdate filename i (overwrite ol nl)).
  { intros e. rewrite Hsent. split; intros (i & nl & ol & H1 & H2 & H3 & H4);
      exists i, nl, ol; simpl in *; (split; [by apply array_get_lookup|done]). }
  destruct (recount old (0, 0, 0, 0)) as [[[r0 r1] r2] r3] eqn:Hrec.
  destruct (negb (tally_eqb _ _)) eqn:Ht; intros [= <-]; simpl; exists sent.
  - exists [onScriptUpdate filename
              (with_tally (r0, r1, r2, r3) (with_lines old olddata))].
    split; [by rewrite <- app_assoc|]. split; [done|].
    rewrite lookup_insert_eq. apply negb_true_iff in Ht.
    unfold tally_of in *. simpl in *. by rewrite Ht.
  - exists []. split; [by rewrite app_nil_r|]. split; [done|].
    rewrite lookup_insert_eq. unfold tally_of. simpl. by rewrite !Nat.eqb_refl.
Qed.

Lemma update_file_events_witness :
  let self := after listening known_file_trace in
  let self' := after self idle_trace in
  let olddata := snapshot_of known_file_trace "a.js" in
  let filedata := snapshot_of idle_trace "a.js" in
  ∃ sent updates,
    triggered self' = triggered self ++ sent ++ updates
    ∧ (∀ e, e ∈ sent ↔
            ∃ i nl ol, array_get (fd_lines filedata) i = Some nl
                       ∧ array_get (fd_lines olddata) i = Some ol
                       ∧ changed ol nl = true
                       ∧ e = onLineUpdate "a.js" i (overwrite ol nl))
    ∧ updates
      = match filenames self' !! "a.js"%string with
        | Some fd' =>
            if tally_eqb (tally_of fd') (tally_of olddata) then []
            else [onScriptUpdate "a.js" fd']
        | None => []
        end.
Proof.
  apply (update_file_events (after listening known_file_trace)).
  vm_compute. reflexivity.
Defined.

(** ** What the engine keeps *)

Lemma extends_refl self : extends self self.
Proof.
  split; [done|]. split; [exists []; by rewrite app_nil_r|]. intros n fd i H1 H2. eauto.
Qed.

Lemma extends_trans a b c : extends a b → extends b c → extends a c.
Proof.
  intros (H1 & [s1 H2] & H3) (H4 & [s2 H5] & H6). split; [congruence|]. split.
  - exists (s1 ++ s2). by rewrite H5, H2, app_assoc.
  - intros n fd i Hn Hi. destruct (H3 n fd i Hn Hi) as (fd' & Hn' & Hi'). by eapply H6.
Qed.

Lemma update_file_extends self filename olddata filedata self' :
  filenames self !! filename = Some olddata →
  ends_in (update_file self filename olddata filedata) self' →
  extends self self'.
Proof.
  intros Hold. unfold update_file.
  pose proof (reconcile_lines_spec filename (fd_lines filedata) 0 (fd_lines olddata)
                (triggered self)) as H.
  destruct (reconcile_lines _ _ _ _) as [[old evs]|[old evs]|]; [| |by intros [[=]|[=]]].
  - destruct H as (_ & _ & Hget & sent & -> & _).
    assert (Hkept : ∀ i, is_Some (array_get (fd_lines olddata) i) → is_Some (array_get old i)).
    { intros i [ol Hi]. specialize (Hget i). simpl in Hget. rewrite Hget, Hi.
      destruct (fd_lines filedata !! i) as [[nl|]|]; by eexists. }
    assert (Hlines : ∀ (fd' : FileData) sent',
              fd_lines fd' = old →
              extends self {| _listeners := _listeners self;
                              filenames := <[filename := fd']> (filenames self);
                              triggered := triggered self ++ sent' |}).
    { intros fd' sent' Hfd'. split; [done|]. split; [by eexists|]. simpl.
      intros n fd i Hn Hi. destruct (decide (n = filename)) as [->|Hne].
      - rewrite lookup_insert_eq. eexists. split; [done|]. rewrite Hfd'.
        apply Hkept. congruence.
      - rewrite lookup_insert_ne by done. eauto. }
    destruct (recount old (0, 0, 0, 0)) as [[[r0 r1] r2] r3].
    destruct (negb _); intros [[= <-]|[=]].
    + unfold _trigger, set_file, add_events. simpl. rewrite insert_insert_eq.
      rewrite <- app_assoc. by apply Hlines.
    + unfold set_file, add_events. simpl. by apply Hlines.
  - destruct H as (_ & Hkept & sent & ->). intros [[=]|[= <-]].
    split; [done|]. split; [by eexists|]. simpl.
    intros n fd i Hn Hi. destruct (decide (n = filename)) as [->|Hne].
    + rewrite lookup_insert_eq. eexists. split; [done|]. simpl. apply Hkept. congruence.
    + rewrite lookup_insert_ne by done. eauto.
Qed.

Lemma process_file_extends files self name self' :
  ends_in (process_file files self name) self' → extends self self'.
Proof.
  unfold process_file.
  destruct (assoc name files) as [file|]; [|intros [[=]|[= <-]]; apply extends_refl].
  destruct (make_filedata name file) as [filedata|];
    [|intros [[=]|[= <-]]; apply extends_refl].
  destruct (filenames self !! name) as [olddata|] eqn:Hold.
  - rewrite bool_decide_true by eauto. simpl. by apply update_file_extends.
  - rewrite bool_decide_false by (by intros [? ?]). simpl.
    destruct (inherited name); simpl; [intros [[=]|[= <-]]; apply extends_refl|].
    intros [[= <-]|[=]]. split; [done|]. split; [by eexists|]. simpl.
    intros n fd i Hn Hi. destruct (decide (n = name)) as [->|Hne]; [congruence|].
    rewrite lookup_insert_ne by done. eauto.
Qed.

Lemma process_files_extends files self names self' :
  ends_in (process_files files self names) self' → extends self self'.
Proof.
  revert self. induction names as [|name names IH]; intros self; simpl.
  { intros [[= <-]|[=]]. apply extends_refl. }
  destruct (process_file files self name) as [self1|self1|] eqn:H1.
  - intros H2. eapply extends_trans; [|by apply IH].
    apply (process_file_extends files self name). by left.
  - intros [[=]|[= <-]]. apply (process_file_extends files self name). by right.
  - by intros [[=]|[=]].
Qed.

(** X27.  Whatever its outcome, a return or an exception, [parseData] leaves
    the listeners as they are, keeps every event sent so far and only sends
    more, and keeps every file and every line the engine has stored: a line
    stays known when later data does not mention it. *)
Theorem parseData_keeps_what_is_stored (self self' : Coverage) (rawdata : string) :
  ends_in (parseData self rawdata) self' → extends self self'.
Proof.
  unfold parseData. destruct (processLines _ _) as [p|p|].
  - destruct (add_scripts [] (scripts p)) as [files|].
    + apply process_files_extends.
    + intros [[=]|[= <-]]. apply extends_refl.
  - intros [[=]|[= <-]]. apply extends_refl.
  - by intros [[=]|[=]].
Qed.

Lemma parseData_keeps_what_is_stored_witness :
  extends (after listening known_file_trace)
    (thrown (after listening known_file_trace) new_line_trace).
Proof.
  apply (parseData_keeps_what_is_stored _ _ new_line_trace).
  right. vm_compute. reflexivity.
Defined.

(** ** The first data of an engine *)

Lemma sort_insert_string_perm x l : sort_insert_string x l ≡ₚ x :: l.
Proof.
  induction l as [|y l IH]; simpl; [done|].
  destruct (String.ltb x y); [done|]. rewrite IH. apply Permutation_swap.
Qed.

Lemma sort_strings_perm l : sort_strings l ≡ₚ l.
Proof.
  unfold sort_strings.
  assert (H : ∀ acc, fold_left (λ acc x, sort_insert_string x acc) l acc ≡ₚ acc ++ l).
  { induction l as [|x l IH]; intros acc; simpl; [by rewrite app_nil_r|].
    rewrite IH, sort_insert_string_perm. by rewrite <- Permutation_middle. }
  apply (H []).
Qed.

Lemma has_key_false {A} k (l : list (string * A)) :
  has_key k l = false → k ∉ map fst l.
Proof.
  induction l as [|[k' v] l IH]; simpl; [intros _; apply not_elem_of_nil|].
  intros [H1 H2]%orb_false_iff. apply not_elem_of_cons. split; [|by apply IH].
  by apply String.eqb_neq.
Qed.

Lemma assoc_set_keys {A} k (v x : A) l :
  assoc k l = Some x → map fst (assoc_set k v l) = map fst l.
Proof.
  induction l as [|[k' v'] l IH]; simpl; [done|].
  destruct (String.eqb k k'); simpl; [done|]. intros H. by rewrite IH.
Qed.

Lemma add_script_keys files script files' :
  NoDup (map fst files) → add_script files script = Val files' → NoDup (map fst files').
Proof.
  intros Hnd. unfold add_script.
  set (fn := str id (filename script)).
  set (files1 := if negb (has_key fn files || inherited fn)
                 then files ++ [(fn, new_File fn)] else files).
  assert (Hnd1 : NoDup (map fst files1)).
  { unfold files1. destruct (has_key fn files) eqn:Hk; simpl; [done|].
    destruct (inherited fn); simpl; [done|].
    rewrite map_app. simpl. apply NoDup_app. split; [done|]. split.
    - intros x Hx ->%list_elem_of_singleton. by apply has_key_false in Hk.
    - apply NoDup_singleton. }
  destruct (assoc fn files1) as [file|] eqn:Hf; [|done].
  destruct (head _); [|done]. destruct (last _); [|done]. intros [= <-].
  by rewrite (assoc_set_keys _ _ _ _ Hf).
Qed.

Lemma add_scripts_keys files l files' :
  NoDup (map fst files) → add_scripts files l = Val files' → NoDup (map fst files').
Proof.
  revert files. induction l as [|s l IH]; intros files Hnd; simpl; [by intros [= <-]|].
  destruct (add_script files s) as [files1|] eqn:H1; [|done].
  apply IH. by eapply add_script_keys.
Qed.

Lemma process_files_new files self names self' :
  NoDup names → (∀ n, n ∈ names → filenames self !! n = None) →
  process_files files self names = Ok self' →
  ∃ fds, triggered self' = triggered self ++ map (λ fd, onNewScript (fd_filename fd) fd) fds
         ∧ map fd_filename fds = names
         ∧ (∀ fd, fd ∈ fds → ∃ file, assoc (fd_filename fd) files = Some file
                                      ∧ make_filedata (fd_filename fd) file = Val fd)
         ∧ ∀ n fd, filenames self' !! n = Some fd ↔
                   filenames self !! n = Some fd ∨ (fd ∈ fds ∧ fd_filename fd = n).
Proof.
  intros Hnd. revert self. induction Hnd as [|name names Hname Hnd IH]; intros self Hnew; simpl.
  { intros [= <-]. exists []. split; [by rewrite app_nil_r|]. split; [done|].
    split; [by intros fd H%elem_of_nil|]. intros n fd. split; [by left|].
    intros [H|[H%elem_of_nil _]]; done. }
  unfold process_file.
  destruct (assoc name files) as [file|] eqn:Hfile; [|done].
  destruct (make_filedata name file) as [fd0|] eqn:Hfd; [|done].
  rewrite (Hnew name) by (by left).
  rewrite bool_decide_false by (by intros [? ?]). simpl.
  destruct (inherited name); simpl; [done|].
  assert (Hname0 : fd_filename fd0 = name).
  { unfold make_filedata in Hfd. destruct (File_coverage file) as [[[[??]?]?]|]; [|done].
    destruct (fill_lines _ _); [|done]. by injection Hfd as <-. }
  intros H. apply IH in H as (fds & Hev & Hnames & Hsnap & Hmap).
  2: { intros n Hn. simpl. rewrite lookup_insert_ne; [apply Hnew; by right|].
       intros ->. done. }
  exists (fd0 :: fds). split; [|split; [|split]].
  - rewrite Hev. simpl. rewrite <- app_assoc. simpl. by rewrite Hname0.
  - simpl. by rewrite Hname0, Hnames.
  - intros fd [->|Hfd']%elem_of_cons; [|by apply Hsnap].
    exists file. by rewrite Hname0.
  - intros n fd. rewrite Hmap. simpl. destruct (decide (n = name)) as [->|Hne].
    + rewrite lookup_insert_eq, (Hnew name) by (by left). split.
      * intros [[= <-]|[H1 H2]]; right; [split; [by left|done]|split; [by right|done]].
      * intros [?|[[->|Hin]%elem_of_cons H2]]; [done|by left|]. right. done.
    + rewrite lookup_insert_ne by done. split.
      * intros [H|[H1 H2]]; [by left|right]. split; [by right|done].
      * intros [H|[[->|Hin]%elem_of_cons H2]]; [by left|congruence|by right].
Qed.

(** *** The order of the file names *)

Lemma ascii_compare_lt_trans a b c :
  Ascii.compare a b = Lt → Ascii.compare b c = Lt → Ascii.compare a c = Lt.
Proof.
  unfold Ascii.compare. rewrite !N.compare_lt_iff. lia.
Qed.

Lemma string_compare_lt_trans a b c :
  String.compare a b = Lt → String.compare b c = Lt → String.compare a c = Lt.
Proof.
  revert b c. induction a as [|x a IH]; intros [|y b] [|z c]; simpl; try done.
  destruct (Ascii.compare x y) eqn:Hxy; [|
    destruct (Ascii.compare y z) eqn:Hyz | done].
  - apply Ascii.compare_eq_iff in Hxy as ->.
    destruct (Ascii.compare y z); [apply IH|done..].
  - apply Ascii.compare_eq_iff in Hyz as <-. by rewrite Hxy.
  - by rewrite (ascii_compare_lt_trans _ _ _ Hxy Hyz).
  - done.
Qed.

Lemma before_trans a b c : before a b → before b c → before a c.
Proof.
  unfold before, String.ltb. intros H1 H2.
  destruct (String.compare a b) eqn:Hab; try done.
  destruct (String.compare b c) eqn:Hbc; try done.
  by rewrite (string_compare_lt_trans _ _ _ Hab Hbc).
Qed.

Lemma not_before a b : String.ltb a b = false → a ≠ b → before b a.
Proof.
  unfold before, String.ltb. intros H Hne. rewrite String.compare_antisym.
  destruct (String.compare a b) eqn:Hab; try done.
  by apply String.compare_eq_iff in Hab.
Qed.

Lemma sort_insert_string_sorted x l :
  x ∉ l → StronglySorted before l → StronglySorted before (sort_insert_string x l).
Proof.
  intros Hx Hl. induction Hl as [|y l Hl IH Hy]; simpl.
  { repeat constructor. }
  apply not_elem_of_cons in Hx as [Hxy Hx].
  destruct (String.ltb x y) eqn:Hlt.
  - constructor; [by constructor|]. constructor; [done|].
    eapply Forall_impl; [exact Hy|]. intros z Hz. by eapply before_trans.
  - constructor; [by apply IH|].
    rewrite sort_insert_string_perm. constructor; [by apply not_before|done].
Qed.

Lemma sort_strings_sorted l : NoDup l → StronglySorted before (sort_strings l).
Proof.
  unfold sort_strings.
  assert (H : ∀ acc, StronglySorted before acc → NoDup (acc ++ l) →
                     StronglySorted before
                       (fold_left (λ acc x, sort_insert_string x acc) l acc)).
  { induction l as [|x l IH]; intros acc Hacc Hnd; simpl; [done|].
    apply NoDup_app in Hnd as (Hnda & Hdisj & Hndl).
    apply NoDup_cons in Hndl as [Hx Hndl].
    apply IH.
    - apply sort_insert_string_sorted; [|done]. intros Hin.
      apply (Hdisj x Hin). by left.
    - apply NoDup_app. split; [|split; [|done]].
      + rewrite sort_insert_string_perm. apply NoDup_cons. split; [|done].
        intros Hin. apply (Hdisj x Hin). by left.
      + intros y Hy Hyl. rewrite sort_insert_string_perm in Hy.
        apply elem_of_cons in Hy as [->|Hy]; [done|].
        apply (Hdisj y Hy). by right. }
  intros Hnd. apply H; [constructor|done].
Qed.

(** X28.  On an engine that holds no file, a [parseData] that returns sends
    one [onNewScript] per file of the text and no other event, in the
    ascending order of the file names, whatever the order of the files in
    the text; each event carries the snapshot of its file, and the engine
    stores exactly these snapshots. *)
Theorem first_parse_announces_every_file (self self' : Coverage) (rawdata : string) :
  filenames self = ∅ →
  parseData self rawdata = Ok self' →
  ∃ fds,
    triggered self' = triggered self ++ map (λ fd, onNewScript (fd_filename fd) fd) fds
    ∧ map fd_filename fds ≡ₚ map fst (files_of rawdata)
    ∧ StronglySorted before (map fd_filename fds)
    ∧ (∀ fd, fd ∈ fds →
             ∃ file, assoc (fd_filename fd) (files_of rawdata) = Some file
                     ∧ make_filedata (fd_filename fd) file = Val fd)
    ∧ ∀ n fd, filenames self' !! n = Some fd ↔ fd ∈ fds ∧ fd_filename fd = n.
Proof.
  intros Hempty. unfold parseData, files_of.
  destruct (processLines _ _) as [p| |]; [|done..].
  destruct (add_scripts [] (scripts p)) as [files|] eqn:Hfiles; [|done].
  assert (Hkeys : NoDup (map fst files)).
  { eapply add_scripts_keys; [|exact Hfiles]. constructor. }
  assert (Hnd : NoDup (sort_strings (map fst files))).
  { by rewrite sort_strings_perm. }
  intros H. apply process_files_new in H as (fds & Hev & Hnames & Hsnap & Hmap); [|done|].
  2: { intros n _. by rewrite Hempty. }
  exists fds. split; [done|]. split; [by rewrite Hnames, sort_strings_perm|].
  split; [rewrite Hnames; by apply sort_strings_sorted|].
  split; [done|]. intros n fd. rewrite Hmap, Hempty, lookup_empty. split.
  - by intros [?|?].
  - by right.
Qed.

Lemma first_parse_announces_every_file_witness :
  let self' := after listening unsorted_files_trace in
  map fst (files_of unsorted_files_trace) = ["b.js"; "a.js"]%string
  ∧ ∃ fds,
    triggered self'
    = triggered listening ++ map (λ fd, onNewScript (fd_filename fd) fd) fds
    ∧ map fd_filename fds ≡ₚ map fst (files_of unsorted_files_trace)
    ∧ StronglySorted before (map fd_filename fds)
    ∧ (∀ fd, fd ∈ fds →
             ∃ file, assoc (fd_filename fd) (files_of unsorted_files_trace) = Some file
                     ∧ make_filedata (fd_filename fd) file = Val fd)
    ∧ ∀ n fd, filenames self' !! n = Some fd ↔ fd ∈ fds ∧ fd_filename fd = n.
Proof.
  split; [by vm_compute|].
  apply (first_parse_announces_every_file listening _ unsorted_files_trace).
  - reflexivity.
  - vm_compute. reflexivity.
Defined.

(** ** Listeners *)

Lemma indexOf_None {R} `{EqDecision R} (l : R) a :
  Registry.indexOf l a = None ↔ l ∉ a.
Proof.
  induction a as [|x a IH]; simpl.
  - split; [intros _; apply not_elem_of_nil|done].
  - rewrite not_elem_of_cons. destruct (decide (x = l)) as [->|Hne].
    + split; [done|]. by intros [? _].
    + destruct (Registry.indexOf l a) as [i|].
      * split; [done|]. intros [_ H]. by apply IH in H.
      * split; [|done]. intros _. split; [done|]. by apply IH.
Qed.

Lemma removeListener_first {R} `{EqDecision R} (l : R) pre post :
  l ∉ pre → Registry.removeListener l (pre ++ l :: post) = pre ++ post.
Proof.
  unfold Registry.removeListener. induction pre as [|x pre IH]; simpl; intros Hpre.
  - by rewrite decide_True.
  - apply not_elem_of_cons in Hpre as [Hx Hpre]. rewrite decide_False by done.
    specialize (IH Hpre).
    destruct (Registry.indexOf l (pre ++ l :: post)) as [i|] eqn:Hi.
    + simpl. by rewrite IH.
    + apply indexOf_None in Hi. exfalso. apply Hi. apply elem_of_app. right. by left.
Qed.

Lemma removeListener_absent {R} `{EqDecision R} (l : R) a :
  l ∉ a → Registry.removeListener l a = a.
Proof.
  intros H. unfold Registry.removeListener. apply indexOf_None in H. by rewrite H.
Qed.

(** X29.  [removeListener] takes the first registration of the listener out
    of the array and keeps the others in their order; a listener that is
    registered twice is still registered once afterwards, and removing a
    listener that is not registered changes nothing. *)
Theorem removeListener_removes_first_registration {R} `{EqDecision R}
    (l : R) (listeners : list R) :
  (l ∉ listeners → Registry.removeListener l listeners = listeners)
  ∧ (∀ pre post, listeners = pre ++ l :: post → l ∉ pre →
                 Registry.removeListener l listeners = pre ++ post).
Proof.
  split; [apply removeListener_absent|].
  intros pre post -> Hpre. by apply removeListener_first.
Qed.

Lemma removeListener_removes_first_registration_witness :
  Registry.removeListener 7 [3; 5] = [3; 5]
  ∧ Registry.removeListener 7 [3; 7; 5; 7] = [3; 5; 7].
Proof.
  split.
  - apply (proj1 (removeListener_removes_first_registration 7 [3; 5])).
    apply (bool_decide_unpack _). vm_compute. reflexivity.
  - apply (proj2 (removeListener_removes_first_registration 7 [3; 7; 5; 7]) [3] [5; 7]).
    + reflexivity.
    + apply (bool_decide_unpack _). vm_compute. reflexivity.
Defined.

(** X30.  Removing a listener right after adding it leaves the array as it
    was when the listener was not registered before; when it was, the
    earlier registration is the one removed and the new one stays at the
    end. *)
Theorem removeListener_after_addListener {R} `{EqDecision R}
    (l : R) (listeners : list R) :
  Registry.removeListener l (Registry.addListener l listeners)
  = if decide (l ∈ listeners)
    then Registry.addListener l (Registry.removeListener l listeners)
    else listeners.
Proof.
  unfold Registry.addListener. destruct (decide (l ∈ listeners)) as [Hin|Hnotin].
  - apply list_elem_of_split_l in Hin as (pre & post & -> & Hpre).
    rewrite <- app_assoc. simpl.
    rewrite (removeListener_first l pre (post ++ [l])) by done.
    rewrite (removeListener_first l pre post) by done. by rewrite app_assoc.
  - rewrite (removeListener_first l listeners []) by done. by rewrite app_nil_r.
Qed.

(** ** Parsing the same text again, on any engine *)

Lemma reconcile_lines_quiet filename newlines i old evs :
  (∀ j nl, newlines !! j = Some (Some nl) →
           ∃ ol, array_get old (i + j) = Some ol ∧ changed ol nl = false) →
  reconcile_lines filename i newlines (old, evs) = Ok (old, evs).
Proof.
  revert i. induction newlines as [|[nl|] rest IH]; intros i H; cbn [reconcile_lines].
  - done.
  - destruct (H 0 nl eq_refl) as (ol & Hol & Hc). rewrite Nat.add_0_r in Hol.
    rewrite Hol. unfold changed in Hc. rewrite Hc. apply IH.
    intros j nl' Hj. rewrite Nat.add_succ_comm. by apply H.
  - apply IH. intros j nl' Hj. rewrite Nat.add_succ_comm. by apply H.
Qed.

Lemma with_lines_same fd : with_lines (fd_lines fd) fd = fd.
Proof. by destruct fd. Qed.

Lemma tally_of_with_tally t fd : tally_of (with_tally t fd) = t.
Proof. by destruct t as [[[a b] c] d]. Qed.

Lemma fd_lines_with_tally t fd : fd_lines (with_tally t fd) = fd_lines fd.
Proof. by destruct t as [[[a b] c] d]. Qed.

Lemma update_file_quiet self filename old new :
  filenames self !! filename = Some old → quiet old new →
  update_file self filename old new = Ok self.
Proof.
  intros Hold [Hlines Htally]. unfold update_file.
  rewrite reconcile_lines_quiet.
  2: { intros j nl Hj. apply Hlines. by apply array_get_lookup. }
  rewrite with_lines_same, Htally, tally_eqb_refl. simpl. f_equal.
  unfold add_events, set_file. simpl. rewrite insert_id by done. by destruct self.
Qed.

Lemma changed_reconciled ol nl :
  equalArrays (counts nl) (counts nl) = true → changed (reconciled ol nl) nl = false.
Proof.
  intros H. unfold reconciled. destruct (changed ol nl) eqn:Hc; [|done].
  unfold changed, overwrite. simpl. by rewrite cov_eqb_refl, H.
Qed.

Lemma update_file_settles self filename old new self1 :
  Forall entry_ok (fd_lines new) →
  update_file self filename old new = Ok self1 →
  (∃ old1, filenames self1 !! filename = Some old1 ∧ quiet old1 new)
  ∧ ∀ n, n ≠ filename → filenames self1 !! n = filenames self !! n.
Proof.
  intros Hnew. unfold update_file.
  pose proof (reconcile_lines_spec filename (fd_lines new) 0 (fd_lines old)
                (triggered self)) as H.
  destruct (reconcile_lines _ _ _ _) as [[old' evs]|[old' evs]|]; [|done..].
  destruct H as (Hall & _ & Hget & _).
  assert (Hq : ∀ i nl, array_get (fd_lines new) i = Some nl →
                       ∃ ol, array_get old' i = Some ol ∧ changed ol nl = false).
  { intros i nl Hi. apply array_get_lookup in Hi.
    destruct (Hall i nl Hi) as [ol Hol]. specialize (Hget i).
    rewrite Hi in Hget. simpl in Hget, Hol. rewrite Hol in Hget.
    eexists. split; [exact Hget|]. apply changed_reconciled.
    rewrite Forall_forall in Hnew. apply list_elem_of_lookup_2 in Hi.
    apply (Hnew _ Hi). }
  destruct (tally_eqb (recount old' (0, 0, 0, 0)) (tally_of (with_lines old' old)))
    eqn:Ht; simpl; intros [= <-]; simpl.
  - apply tally_eqb_eq in Ht. split.
    + eexists. rewrite lookup_insert_eq. split; [done|]. split; [done|]. by simpl.
    + intros n Hn. by rewrite lookup_insert_ne.
  - split.
    + eexists. rewrite lookup_insert_eq. split; [done|]. split.
      * by rewrite fd_lines_with_tally.
      * by rewrite fd_lines_with_tally, tally_of_with_tally.
    + intros n Hn. by rewrite !lookup_insert_ne.
Qed.

Lemma make_filedata_entries filename file fd :
  file_ok file → make_filedata filename file = Val fd → Forall entry_ok (fd_lines fd).
Proof.
  intros [Hnd Hok]. unfold make_filedata, File_coverage.
  destruct (File_coverage_loop _ _) as [[[[c0 c1] c2] c3]|] eqn:Hcov; [|done].
  destruct (fill_lines _ _) as [a|] eqn:Hfill; [|done].
  intros [= <-]. simpl.
  by destruct (fill_lines_settled _ _ _ _ _ Hnd Hok (λ n _, array_get_nil _)
                 (Forall_nil_2 _) Hfill Hcov) as [H1 _].
Qed.

Lemma process_file_settles files self name self1 :
  Forall (λ kv, file_ok (snd kv)) files →
  process_file files self name = Ok self1 →
  (∀ n, n ≠ name → filenames self1 !! n = filenames self !! n)
  ∧ ∀ self2, filenames self2 !! name = filenames self1 !! name →
             process_file files self2 name = Ok self2.
Proof.
  intros Hfiles. unfold process_file.
  destruct (assoc name files) as [file|] eqn:Hfile; [|done].
  destruct (make_filedata name file) as [fd|] eqn:Hfd; [|done].
  pose proof (assoc_Forall file_ok _ _ _ Hfiles Hfile) as Hok.
  destruct (filenames self !! name) as [old|] eqn:Hold.
  - rewrite bool_decide_true by eauto. simpl. intros Hup.
    apply update_file_settles in Hup as [(old1 & Hst & Hq) Hrest];
      [|by eapply make_filedata_entries].
    split; [done|]. intros self2 H2. rewrite Hst in H2. rewrite H2.
    rewrite bool_decide_true by eauto. simpl. by apply update_file_quiet.
  - rewrite bool_decide_false by (by intros [? ?]). simpl.
    destruct (inherited name) eqn:Hinh; simpl; [done|]. intros [= <-]. simpl. split.
    + intros n Hn. by rewrite lookup_insert_ne.
    + intros self2 H2. rewrite lookup_insert_eq in H2.
      pose proof (process_file_stored files self2 name file fd Hfile Hfd Hok H2) as Hp.
      unfold process_file in Hp. rewrite Hfile, Hfd, Hinh in Hp. exact Hp.
Qed.

Lemma process_files_settles files self names self' :
  Forall (λ kv, file_ok (snd kv)) files → NoDup names →
  process_files files self names = Ok self' →
  (∀ n, n ∉ names → filenames self' !! n = filenames self !! n)
  ∧ ∀ self2, (∀ n, n ∈ names → filenames self2 !! n = filenames self' !! n) →
             process_files files self2 names = Ok self2.
Proof.
  intros Hfiles Hnd. revert self.
  induction Hnd as [|name names Hname Hnd IH]; intros self; simpl.
  { intros [= <-]. done. }
  destruct (process_file files self name) as [self1| |] eqn:H1; [|done..].
  intros H2. apply process_file_settles in H1 as [Hrest1 Hagain1]; [|done].
  destruct (IH _ H2) as [Hrest Hagain]. split.
  - intros n [Hn1 Hn2]%not_elem_of_cons. by rewrite Hrest, Hrest1.
  - intros self2 Hsame. rewrite Hagain1.
    + apply Hagain. intros n Hn. apply Hsame. by right.
    + rewrite Hsame by (by left). by apply Hrest.
Qed.

(** C2, amended.  When every instruction of the text has an integer count
    (a count group of three fields or more) and a source line between 1 and
    2^32 - 1, and a [parseData] of the text returns, on any engine, whether
    it holds files already or not, a second [parseData] of the same text
    returns with the engine exactly as the first one left it: no
    [onLineUpdate], no [onScriptUpdate] and no [onNewScript] is triggered
    and no stored value changes. *)
Theorem identical_reparse_is_silent (self self' : Coverage) (rawdata : string) :
  in_format rawdata = true →
  parseData self rawdata = Ok self' →
  parseData self' rawdata = Ok self'.
Proof.
  intros Hfmt. unfold parseData, in_format, instructions in *.
  destruct (processLines new_Parser (split LF rawdata)) as [parser| |]; [|done..].
  destruct (add_scripts [] (scripts parser)) as [files|] eqn:Hfiles; [|done].
  assert (Hok : Forall (λ kv, file_ok (snd kv)) files).
  { eapply add_scripts_ok; [constructor| |done].
    rewrite forallb_forall in Hfmt. apply Forall_forall. intros s Hs.
    apply Forall_forall. intros o Ho.
    specialize (Hfmt o). rewrite andb_true_iff in Hfmt. apply Hfmt.
    apply in_concat. exists (opcodes s).
    split; [apply in_map|]; by apply list_elem_of_In. }
  assert (Hnd : NoDup (sort_strings (map fst files))).
  { rewrite sort_strings_perm. eapply add_scripts_keys; [|exact Hfiles]. constructor. }
  intros H1. destruct (process_files_settles _ _ _ _ Hok Hnd H1) as [_ Hagain].
  by apply Hagain.
Qed.

Lemma identical_reparse_is_silent_witness :
  let self := after listening known_file_trace in
  let self' := after self idle_trace in
  in_format idle_trace = true
  ∧ is_Some (filenames self !! "a.js"%string)
  ∧ parseData self idle_trace = Ok self'
  ∧ length (triggered self) < length (triggered self')
  ∧ parseData self' idle_trace = Ok self'.
Proof.
  split; [by vm_compute|]. split; [eexists; by vm_compute|].
  split; [by vm_compute|]. split; [vm_compute; lia|].
  apply (identical_reparse_is_silent (after listening known_file_trace));
    by vm_compute.
Defined.

(** The claim of C2 fails on two texts that [parseData] accepts.  With a
    count group of two fields the count is [NaN], which differs from itself,
    so the second parse sends [onLineUpdate] for an unchanged line.  With an
    instruction on source line 0 the line is tallied by [File.coverage] but
    stored under the key -1, which the recount of the stored lines does not
    visit, so the second parse finds another tally and sends
    [onScriptUpdate]. *)
Lemma identical_reparse_emits_events :
  (∃ c1 c2,
     parseData new_Coverage two_field_trace = Ok c1
     ∧ parseData c1 two_field_trace = Ok c2
     ∧ triggered c2 =
         triggered c1
           ++ [onLineUpdate "a.js" 0
                 {| coverage := cov_undefined; counts := [NaN];
                    ld_startFunc := true; ld_endFunc := false |}])
  ∧ (∃ c1 c2 fd,
       parseData new_Coverage line_zero_trace = Ok c1
       ∧ tally_of <$> filenames c1 !! "a.js" = Some (2, 0, 0, 0)
       ∧ parseData c1 line_zero_trace = Ok c2
       ∧ triggered c2 = triggered c1 ++ [onScriptUpdate "a.js" fd]
       ∧ tally_of fd = (1, 0, 0, 0)).
Proof.
  split.
  - eexists. eexists. split; [by vm_compute|]. split; by vm_compute.
  - eexists. eexists. eexists. split; [by vm_compute|]. split; [by vm_compute|].
    split; [by vm_compute|]. split; by vm_compute.
Qed.

(** ** Input the program has no use for *)

(** *** Lines that are ignored *)



Lemma is_start_Some l : is_start l = true → is_Some (match_SCRIPT_START l).
Proof. unfold is_start. apply bool_decide_eq_true. Qed.













(** *** Records that close *)





(** *** Files that are built *)









(** *** Snapshots that are taken and reconciled *)










(** *** The analysis does not read the counts *)







(** *** Records that do not close *)










(** *** Files that are not built *)










(** *** The texts on which [parseData] returns *)



